(** * Shipment progression engine of server.py: a shallow embedding

    The development follows the source file top-down:
    - [Py]: the few Python built-ins the engine relies on (indexing that
      raises, [sum], [max(range(n), key=...)], [int] on a non-integer);
    - [generate_step_durations]: the duration allocator;
    - the shipment document and the MongoDB collection it lives in;
    - [handle_incident]: the incident resolver;
    - [process_shipment], [simulation_tick], [simulation_loop]: one
      iteration of the scheduler's [for] loop, one pass of its [while]
      loop, and a run of passes;
    - [generate_tracking_for] and [archive_shipment];
    - [Sys]: the threads of the server as an interleaving of store accesses;
    - the other routes ([signup], [login], [get_shipments],
      [passer_commande], [get_one_shipment]) and [start_simulation].

    Random draws, clock readings and store failures are inputs of the
    model.  Python floats (the random weights of the allocator and the
    clock differences of the scheduler) are idealised as rationals; what is
    proved of the integer part of the allocator, [distribute], is proved
    for any integers that its float part computes.

    Part I holds the definitions, Part II the properties. *)

From Stdlib Require Import ZArith QArith Qround Lia Lqa.
From Stdlib Require Import DecimalString DecimalZ DecimalPos.
From stdpp Require Import base option list strings gmap.

Local Open Scope Z_scope.

(** * Part I: the program *)

(** ** Python built-ins *)

Module Py.

(** Exceptions that can leave the scheduler loop. *)
Inductive exn : Type :=
| IndexError
| StoreError.

(** [l[i]] on a Python list: negative indices count from the end, and an
    index outside [-len(l), len(l)) raises [IndexError]. *)
Definition getitem {A} (l : list A) (i : Z) : exn + A :=
  let n := Z.of_nat (length l) in
  let j := if i <? 0 then i + n else i in
  if (j <? 0) || (n <=? j) then inl IndexError
  else match l !! Z.to_nat j with
       | Some x => inr x
       | None => inl IndexError
       end.

(** [sum(l)] on integers: a left fold starting at 0. *)
Definition sum (l : list Z) : Z := foldl Z.add 0 l.

(** [sum(l)] on floats. *)
Definition fsum (l : list Q) : Q := foldl Qplus 0%Q l.

(** [int(x)] on a float: truncation toward zero. *)
Definition int (x : Q) : Z := Z.quot (Qnum x) (Z.pos (Qden x)).

(** [max(range(len(l)), key=lambda i: l[i])]: the first index holding a
    maximal entry ([max] only replaces its candidate on a strictly
    greater key). *)
Fixpoint argmax_from (best_i : nat) (best : Z) (i : nat) (l : list Z) : nat :=
  match l with
  | [] => best_i
  | x :: l' =>
      if best <? x then argmax_from i x (S i) l'
      else argmax_from best_i best (S i) l'
  end.

Definition argmax (l : list Z) : nat :=
  match l with
  | [] => 0%nat
  | x :: l' => argmax_from 0 x 1 l'
  end.

(** [str(n)] on an integer. *)
Definition str (n : Z) : string := NilZero.string_of_int (Z.to_int n).

End Py.

#[global] Instance exn_ret : MRet (sum Py.exn) := λ _ x, inr x.

#[global] Instance exn_bind : MBind (sum Py.exn) :=
  λ _ _ f m, match m with inl e => inl e | inr x => f x end.

(** ** Duration allocator (generate_step_durations) *)

(** The random draws of the function are its arguments: [total_time] is
    [random.randint(55, 60)], [transit_prop] is [random.uniform(0.4, 0.5)],
    and [rnd i] is the i-th call of [random.random()] in the list
    comprehension. *)

(** Lines 53-58: the six weights, scaled to [rest_time] and truncated. *)
Definition scale_partials (rest_time : Z) (rnd : nat → Q) : list Z :=
  let partials := rnd <$> seq 0 6 in
  let s := Py.fsum partials in
  let '(partials, s) :=
    if Qeq_bool s 0 then (replicate 6 1%Q, 6%Q) else (partials, s) in
  (λ p, Py.int (p / s * inject_Z rest_time)%Q) <$> partials.

(** Lines 60-63: the truncation remainder goes to the largest share. *)
Definition fix_remainder (rest_time : Z) (partials : list Z) : list Z :=
  let diff := rest_time - Py.sum partials in
  if negb (diff =? 0) then
    let imax := Py.argmax partials in
    alter (λ p, p + diff) imax partials
  else partials.

(** Lines 65-72: three stages, the transit stage, three stages. *)
Definition assemble (transit_time : Z) (partials : list Z) : list Z :=
  (λ i : nat,
     if (i <? 3)%nat then partials !!! i
     else if (i =? 3)%nat then transit_time
     else partials !!! (i - 1)%nat) <$> seq 0 7.

(** Lines 74-76: every stage lasts at least 1. *)
Definition clamp_step (durations : list Z) (i : nat) : list Z :=
  if durations !!! i <? 1 then <[i := 1]> durations else durations.

Definition clamp (durations : list Z) : list Z :=
  foldl clamp_step durations (seq 0 7).

(** Lines 78-81: a missing remainder goes to the largest stage. *)
Definition fix_total (total_time : Z) (durations : list Z) : list Z :=
  let sum_diff := total_time - Py.sum durations in
  if 0 <? sum_diff then
    let imax := Py.argmax durations in
    alter (λ d, d + sum_diff) imax durations
  else durations.

Definition generate_step_durations
    (total_time : Z) (transit_prop : Q) (rnd : nat → Q) : list Z :=
  let transit_time := Py.int (inject_Z total_time * transit_prop)%Q in
  let rest_time := total_time - transit_time in
  let partials := scale_partials rest_time rnd in
  let partials := fix_remainder rest_time partials in
  let durations := assemble transit_time partials in
  let durations := clamp durations in
  fix_total total_time durations.

(** ** Shipment documents and their collection *)

(** A document of the [shipments] collection, with the fields that
    [generate_tracking_for] writes.  [on_hold] is the one field the code
    ever removes ([$unset]), hence the option; it is read through
    [shipment.get("on_hold", False)]. *)
Record Shipment : Type := mkShipment {
  tracking : string;
  status : string;
  history : list (string * string);
  client : string;
  quantity : Z;
  destination : string;
  creation_timestamp : string;
  current_step_index : Z;
  finished : bool;
  on_hold : option bool;
  step_durations : list Z;
  time_in_step : Q;
  incident_decision : bool;
  incident_checked : bool;
  archived : bool
}.

(** The collection: documents in insertion order.  Nothing in the server
    deletes a document, and nothing prevents two documents from carrying
    the same tracking number. *)
Abbreviation Store := (list Shipment).

(** One entry of a [$set] document. *)
Inductive Assign : Type :=
| Status (v : string)
| Finished (v : bool)
| OnHold (v : bool)
| IncidentChecked (v : bool)
| CurrentStepIndex (v : Z)
| TimeInStep (v : Q)
| Archived (v : bool).

(** An update document: [{"$set": ..., "$push": {"history": ...},
    "$unset": {"on_hold": ""}}], each part optional. *)
Record Update : Type := mkUpdate {
  upd_set : list Assign;
  upd_push : option (string * string);
  upd_unset_on_hold : bool
}.

Definition assign (d : Shipment) (a : Assign) : Shipment :=
  match a with
  | Status v =>
      mkShipment (tracking d) v (history d) (client d) (quantity d)
        (destination d) (creation_timestamp d) (current_step_index d)
        (finished d) (on_hold d) (step_durations d) (time_in_step d)
        (incident_decision d) (incident_checked d) (archived d)
  | Finished v =>
      mkShipment (tracking d) (status d) (history d) (client d) (quantity d)
        (destination d) (creation_timestamp d) (current_step_index d)
        v (on_hold d) (step_durations d) (time_in_step d)
        (incident_decision d) (incident_checked d) (archived d)
  | OnHold v =>
      mkShipment (tracking d) (status d) (history d) (client d) (quantity d)
        (destination d) (creation_timestamp d) (current_step_index d)
        (finished d) (Some v) (step_durations d) (time_in_step d)
        (incident_decision d) (incident_checked d) (archived d)
  | IncidentChecked v =>
      mkShipment (tracking d) (status d) (history d) (client d) (quantity d)
        (destination d) (creation_timestamp d) (current_step_index d)
        (finished d) (on_hold d) (step_durations d) (time_in_step d)
        (incident_decision d) v (archived d)
  | CurrentStepIndex v =>
      mkShipment (tracking d) (status d) (history d) (client d) (quantity d)
        (destination d) (creation_timestamp d) v
        (finished d) (on_hold d) (step_durations d) (time_in_step d)
        (incident_decision d) (incident_checked d) (archived d)
  | TimeInStep v =>
      mkShipment (tracking d) (status d) (history d) (client d) (quantity d)
        (destination d) (creation_timestamp d) (current_step_index d)
        (finished d) (on_hold d) (step_durations d) v
        (incident_decision d) (incident_checked d) (archived d)
  | Archived v =>
      mkShipment (tracking d) (status d) (history d) (client d) (quantity d)
        (destination d) (creation_timestamp d) (current_step_index d)
        (finished d) (on_hold d) (step_durations d) (time_in_step d)
        (incident_decision d) (incident_checked d) v
  end.

Definition push_history (h : string * string) (d : Shipment) : Shipment :=
  mkShipment (tracking d) (status d) (history d ++ [h]) (client d)
    (quantity d) (destination d) (creation_timestamp d)
    (current_step_index d) (finished d) (on_hold d) (step_durations d)
    (time_in_step d) (incident_decision d) (incident_checked d) (archived d).

Definition unset_on_hold (d : Shipment) : Shipment :=
  mkShipment (tracking d) (status d) (history d) (client d)
    (quantity d) (destination d) (creation_timestamp d)
    (current_step_index d) (finished d) None (step_durations d)
    (time_in_step d) (incident_decision d) (incident_checked d) (archived d).

Definition apply_update (u : Update) (d : Shipment) : Shipment :=
  let d := foldl assign d (upd_set u) in
  let d := from_option (λ h, push_history h d) d (upd_push u) in
  if upd_unset_on_hold u then unset_on_hold d else d.

(** [find_one({"tracking": t})]: the first matching document. *)
Fixpoint find_one (t : string) (db : Store) : option Shipment :=
  match db with
  | [] => None
  | d :: db' => if decide (tracking d = t) then Some d else find_one t db'
  end.

(** [update_one({"tracking": t}, u)]: the first matching document is
    updated in place; without a match nothing happens. *)
Fixpoint update_one (t : string) (u : Update) (db : Store) : Store :=
  match db with
  | [] => []
  | d :: db' =>
      if decide (tracking d = t) then apply_update u d :: db'
      else d :: update_one t u db'
  end.

(** [find({"finished": False, "archived": False})]. *)
Definition find_active (db : Store) : list Shipment :=
  filter (λ d, finished d = false ∧ archived d = false) db.

Definition insert_one (d : Shipment) (db : Store) : Store := db ++ [d].

(** ** Incident resolver (handle_incident) *)

Definition cancel_update (now : string) : Update :=
  {| upd_set := [Status "Livraison annulée"; Finished true];
     upd_push := Some ("Livraison annulée", now);
     upd_unset_on_hold := false |}.

Definition resume_update (now : string) : Update :=
  {| upd_set := [Status "En transit"];
     upd_push := Some ("En transit", now);
     upd_unset_on_hold := true |}.

(** Lines 89-90. *)
Definition incident_chance (days : Z) : Z :=
  let chance := 10 + (days - 1) * 5 in
  Z.min chance 100.

(** Line 91; [draw] is [random.randint(1, 100)]. *)
Definition incident_outcome (days draw : Z) : bool :=
  draw <=? incident_chance days.

(** How a run of the resolver ends; it raises nothing in any of them. *)
Inductive Resolution : Type :=
| NotFound
| Cancelled
| Resumed.

(** The function body, run without interruption; [now] is
    [datetime.now().ctime()]. *)
Definition handle_incident
    (tracking : string) (days draw : Z) (now : string) (db : Store)
  : Store * Resolution :=
  let outcome := incident_outcome days draw in
  match find_one tracking db with
  | None => (db, NotFound)
  | Some _ =>
      if outcome then (update_one tracking (cancel_update now) db, Cancelled)
      else (update_one tracking (resume_update now) db, Resumed)
  end.

(** ** Scheduler (simulation_loop) *)

Definition statuses : list string :=
  [ "Commande confirmée";
    "Colis préparé";
    "Pris en charge par le transporteur";
    "En transit";
    "Arrivé au centre de distribution";
    "En cours de livraison";
    "Livré" ].

(** What one iteration of the [for] loop takes from the outside: the draw
    [random.randint(1, 9)], the clock reading [datetime.now().ctime()], and
    whether the store refuses the iteration's write. *)
Record IterEnv : Type := mkIterEnv {
  it_days : Z;
  it_now : string;
  it_fail : bool
}.

(** [shipments_collection.update_one] as the loop calls it. *)
Definition write (e : IterEnv) (t : string) (u : Update) (db : Store)
  : Py.exn + Store :=
  if it_fail e then inl Py.StoreError else inr (update_one t u db).

(** Line 161. *)
Definition incident_status (days : Z) : string :=
  "Incident signalé : Retard estimé : " +:+ Py.str days +:+ " jour"
  +:+ (if 1 <? days then "s" else "").

Definition incident_update (e : IterEnv) : Update :=
  {| upd_set := [IncidentChecked true;
                 Status (incident_status (it_days e));
                 OnHold true];
     upd_push := Some ("Incident signalé", it_now e);
     upd_unset_on_hold := false |}.

(** Lines 141-144 and 188-191. *)
Definition close_update : Update := mkUpdate [Finished true] None false.

Definition time_update (time_in_step : Q) : Update :=
  mkUpdate [TimeInStep time_in_step] None false.

Definition advance_update (e : IterEnv) (new_idx : Z) (new_status : string)
  : Update :=
  let update_fields :=
    [CurrentStepIndex new_idx; Status new_status; TimeInStep 0] in
  let update_fields :=
    if Z.of_nat (length statuses) - 1 <=? new_idx
    then update_fields ++ [Finished true] else update_fields in
  {| upd_set := update_fields;
     upd_push := Some (new_status, it_now e);
     upd_unset_on_hold := false |}.

(** The test of line 155: the shipment is at the transit stage, has not
    been offered its incident, and is to suffer one. *)
Definition incident_due (shipment : Shipment) : bool :=
  (current_step_index shipment =? 3) && negb (incident_checked shipment)
  && incident_decision shipment.

(** The body of the [for] loop (lines 137-191) on the snapshot document
    [shipment], against the collection [db].  It returns the collection and
    the resolver thread it started, if any, or the exception it raised. *)
Definition process_shipment
    (e : IterEnv) (delta : Q) (shipment : Shipment) (db : Store)
  : Py.exn + (Store * option (string * Z)) :=
  let tracking := tracking shipment in
  let idx := current_step_index shipment in
  if Z.of_nat (length statuses) - 1 <=? idx then
    db' ← write e tracking close_update db;
    mret (db', None)
  else if default false (on_hold shipment) then mret (db, None)
  else
    let time_in_step := (time_in_step shipment + delta)%Q in
    dur_step ← Py.getitem (step_durations shipment) idx;
    if incident_due shipment then
      db' ← write e tracking (incident_update e) db;
      mret (db', Some (tracking, it_days e))
    else if Qle_bool (inject_Z dur_step) time_in_step then
      let new_idx := idx + 1 in
      new_status ← Py.getitem statuses new_idx;
      db' ← write e tracking (advance_update e new_idx new_status) db;
      mret (db', None)
    else
      db' ← write e tracking (time_update time_in_step) db;
      mret (db', None).

(** The collection after an iteration, raised or not, and the thread it
    started. *)
Definition store_after
    (db : Store) (r : Py.exn + (Store * option (string * Z))) : Store :=
  match r with
  | inl _ => db
  | inr (db', _) => db'
  end.

Definition started_by (r : Py.exn + (Store * option (string * Z)))
  : option (string * Z) :=
  match r with
  | inl _ => None
  | inr (_, started) => started
  end.

(** The ways through the loop body, with the conditions the body tests on
    the snapshot document. *)
Inductive iteration (e : IterEnv) (delta : Q) (shipment : Shipment) (db : Store)
  : Py.exn + (Store * option (string * Z)) → Prop :=
| iter_raise (ex : Py.exn) :
    default false (on_hold shipment) = false ∨ 6 ≤ current_step_index shipment →
    iteration e delta shipment db (inl ex)
| iter_close :
    6 ≤ current_step_index shipment →
    iteration e delta shipment db
      (inr (update_one (tracking shipment) close_update db, None))
| iter_hold :
    current_step_index shipment < 6 →
    default false (on_hold shipment) = true →
    iteration e delta shipment db (inr (db, None))
| iter_incident :
    current_step_index shipment = 3 →
    default false (on_hold shipment) = false →
    incident_due shipment = true →
    iteration e delta shipment db
      (inr (update_one (tracking shipment) (incident_update e) db,
            Some (tracking shipment, it_days e)))
| iter_advance (dur_step : Z) (new_status : string) :
    current_step_index shipment < 6 →
    default false (on_hold shipment) = false →
    incident_due shipment = false →
    Py.getitem (step_durations shipment) (current_step_index shipment)
      = inr dur_step →
    (inject_Z dur_step <= time_in_step shipment + delta)%Q →
    Py.getitem statuses (current_step_index shipment + 1) = inr new_status →
    iteration e delta shipment db
      (inr (update_one (tracking shipment)
              (advance_update e (current_step_index shipment + 1) new_status)
              db, None))
| iter_time (dur_step : Z) :
    current_step_index shipment < 6 →
    default false (on_hold shipment) = false →
    incident_due shipment = false →
    Py.getitem (step_durations shipment) (current_step_index shipment)
      = inr dur_step →
    (time_in_step shipment + delta < inject_Z dur_step)%Q →
    iteration e delta shipment db
      (inr (update_one (tracking shipment)
              (time_update (time_in_step shipment + delta)) db, None)).

(** The [for] loop over the snapshot; [k] counts the iterations.  An
    exception leaves the loop: the collection stays as the iterations
    before it left it. *)
Fixpoint process_all
    (env : nat → IterEnv) (delta : Q) (k : nat)
    (shipments : list Shipment) (db : Store)
  : Store * list (string * Z) * option Py.exn :=
  match shipments with
  | [] => (db, [], None)
  | shipment :: rest =>
      match process_shipment (env k) delta shipment db with
      | inl ex => (db, [], Some ex)
      | inr (db', started) =>
          let '(db'', threads, r) := process_all env delta (S k) rest db' in
          (db'', option_list started ++ threads, r)
      end
  end.

(** One pass of the [while] loop: [delta] is [now - last_time]. *)
Definition simulation_tick (env : nat → IterEnv) (delta : Q) (db : Store)
  : Store * list (string * Z) * option Py.exn :=
  let shipments := find_active db in
  process_all env delta 0 shipments db.

(** The [while] loop over the passes whose inputs are listed; an exception
    ends the loop, and the thread with it. *)
Fixpoint simulation_loop (ticks : list (Q * (nat → IterEnv))) (db : Store)
  : Store * list (string * Z) * option Py.exn :=
  match ticks with
  | [] => (db, [], None)
  | (delta, env) :: ticks' =>
      match simulation_tick env delta db with
      | (db', threads, Some ex) => (db', threads, Some ex)
      | (db', threads, None) =>
          let '(db'', threads', r) := simulation_loop ticks' db' in
          (db'', threads ++ threads', r)
      end
  end.

(** ** Shipment factory and archive endpoint *)

(** The draws and clock readings of [generate_tracking_for]. *)
Record CreateDraws : Type := mkCreateDraws {
  cd_tracking : Z;
  cd_total_time : Z;
  cd_transit_prop : Q;
  cd_rnd : nat → Q;
  cd_incident : Z;
  cd_now : string;
  cd_created : string
}.

Definition new_shipment
    (username : string) (quantity : Z) (destination : string) (r : CreateDraws)
  : Shipment :=
  let tracking := Py.str (cd_tracking r) in
  let durations :=
    generate_step_durations (cd_total_time r) (cd_transit_prop r) (cd_rnd r) in
  let incident := cd_incident r <=? 15 in
  {| tracking := tracking;
     status := "Commande confirmée";
     history := [("Commande confirmée", cd_now r)];
     client := username;
     quantity := quantity;
     destination := destination;
     creation_timestamp := cd_created r;
     current_step_index := 0;
     finished := false;
     on_hold := Some false;
     step_durations := durations;
     time_in_step := 0;
     incident_decision := incident;
     incident_checked := false;
     archived := false |}.

(** The [quantity] is taken to be an integer that the store encodes, of at
    most 8 bytes; the route [passer_commande] below tests it, where the
    source raises from the [insert_one] of this function. *)
Definition generate_tracking_for
    (username : string) (quantity : Z) (destination : string) (r : CreateDraws)
    (db : Store) : Store * string :=
  let shipment := new_shipment username quantity destination r in
  (insert_one shipment db, tracking shipment).

Definition archive_update : Update := mkUpdate [Archived true] None false.

(** The archive route; the second component is the HTTP status. *)
Definition archive_shipment (t : string) (db : Store) : Store * Z :=
  match find_one t db with
  | None => (db, 404)
  | Some _ => (update_one t archive_update db, 200)
  end.

(** ** The server as interleaved threads *)

Module Sys.

(** Where a resolver thread stands: asleep (lines 87-91), inside the
    [with lock] block before [find_one], after a successful [find_one], or
    returned. *)
Inductive ResolverPc : Type :=
| Sleeping
| Locked (outcome : bool)
| Found (outcome : bool)
| Done.

Record Resolver : Type := mkResolver {
  r_tracking : string;
  r_days : Z;
  r_pc : ResolverPc
}.

(** The scheduler thread: inside a pass with the snapshot entries still to
    process ([Running delta []] is the top of the [while] loop), or ended by
    an exception. *)
Inductive SchedPc : Type :=
| Running (delta : Q) (rest : list Shipment)
| Dead (ex : Py.exn).

(** Store accesses and thread starts, as they happen. *)
Inductive Event : Type :=
| EvSchedFind (ts : list string)
| EvSchedIter (t : string)
| EvSpawn (t : string) (days : Z)
| EvResolverFind (i : nat) (t : string) (found : bool)
| EvResolverUpdate (i : nat) (t : string)
| EvArchive (t : string)
| EvInsert (t : string).

Record State : Type := mkState {
  db : Store;
  lock : option nat;
  sched : SchedPc;
  resolvers : list Resolver;
  trace : list Event
}.

(** One atomic step of one thread. *)
Inductive Action : Type :=
| TickStart (delta : Q)
| TickNext (e : IterEnv)
| ResolverAcquire (i : nat) (draw : Z)
| ResolverFind (i : nat)
| ResolverUpdate (i : nat) (now : string)
| Archive (t : string)
| Create (username : string) (quantity : Z) (destination : string)
         (r : CreateDraws).

Definition initial (db0 : Store) : State :=
  mkState db0 None (Running 0 []) [] [].

(** [step a σ] is [None] when thread action [a] cannot run in [σ].  The
    scheduler never looks at the lock; a resolver takes it before its
    [find_one] and gives it back when it leaves the [with] block. *)
Definition step (a : Action) (σ : State) : option State :=
  match a with
  | TickStart delta =>
      match sched σ with
      | Running _ [] =>
          let shipments := find_active (db σ) in
          Some (mkState (db σ) (lock σ) (Running delta shipments)
                  (resolvers σ)
                  (trace σ ++ [EvSchedFind (tracking <$> shipments)]))
      | _ => None
      end
  | TickNext e =>
      match sched σ with
      | Running delta (shipment :: rest) =>
          match process_shipment e delta shipment (db σ) with
          | inl ex =>
              Some (mkState (db σ) (lock σ) (Dead ex) (resolvers σ)
                      (trace σ ++ [EvSchedIter (tracking shipment)]))
          | inr (db', started) =>
              Some (mkState db' (lock σ) (Running delta rest)
                      (resolvers σ ++
                         ((λ th, mkResolver th.1 th.2 Sleeping)
                            <$> option_list started))
                      (trace σ ++ [EvSchedIter (tracking shipment)] ++
                         ((λ th, EvSpawn th.1 th.2)
                            <$> option_list started)))
          end
      | _ => None
      end
  | ResolverAcquire i draw =>
      match resolvers σ !! i, lock σ with
      | Some (mkResolver t days Sleeping), None =>
          let outcome := incident_outcome days draw in
          Some (mkState (db σ) (Some i) (sched σ)
                  (<[i := mkResolver t days (Locked outcome)]> (resolvers σ))
                  (trace σ))
      | _, _ => None
      end
  | ResolverFind i =>
      match resolvers σ !! i with
      | Some (mkResolver t days (Locked outcome)) =>
          match find_one t (db σ) with
          | None =>
              Some (mkState (db σ) None (sched σ)
                      (<[i := mkResolver t days Done]> (resolvers σ))
                      (trace σ ++ [EvResolverFind i t false]))
          | Some _ =>
              Some (mkState (db σ) (lock σ) (sched σ)
                      (<[i := mkResolver t days (Found outcome)]> (resolvers σ))
                      (trace σ ++ [EvResolverFind i t true]))
          end
      | _ => None
      end
  | ResolverUpdate i now =>
      match resolvers σ !! i with
      | Some (mkResolver t days (Found outcome)) =>
          let u := if outcome then cancel_update now else resume_update now in
          Some (mkState (update_one t u (db σ)) None (sched σ)
                  (<[i := mkResolver t days Done]> (resolvers σ))
                  (trace σ ++ [EvResolverUpdate i t]))
      | _ => None
      end
  | Archive t =>
      Some (mkState (archive_shipment t (db σ)).1 (lock σ) (sched σ)
              (resolvers σ) (trace σ ++ [EvArchive t]))
  | Create username quantity destination r =>
      let '(db', t) :=
        generate_tracking_for username quantity destination r (db σ) in
      Some (mkState db' (lock σ) (sched σ) (resolvers σ)
              (trace σ ++ [EvInsert t]))
  end.

Fixpoint run (acts : list Action) (σ : State) : option State :=
  match acts with
  | [] => Some σ
  | a :: acts' => σ' ← step a σ; run acts' σ'
  end.

(** The tracking numbers of the resolver threads started, in order, and
    how many of them were started for [t]. *)
Definition spawn_log (tr : list Event) : list string :=
  omap (λ ev, match ev with EvSpawn t _ => Some t | _ => None end) tr.

Definition spawned (t : string) (tr : list Event) : nat :=
  length (filter (λ x, x = t) (spawn_log tr)).

(** *** Exclusive access to a record *)

Inductive Actor : Type :=
| Scheduler
| ResolverThread (i : nat).

#[global] Instance Actor_eq_dec : EqDecision Actor.
Proof. solve_decision. Defined.

(** The thread that touches the record of [t] in an event. *)
Definition toucher (t : string) (ev : Event) : option Actor :=
  match ev with
  | EvSchedFind ts => if bool_decide (t ∈ ts) then Some Scheduler else None
  | EvSchedIter t' => if bool_decide (t' = t) then Some Scheduler else None
  | EvResolverFind i t' _ | EvResolverUpdate i t' =>
      if bool_decide (t' = t) then Some (ResolverThread i) else None
  | _ => None
  end.

(** An event that starts a read-decide-write sequence on a record: the
    scheduler reading it into its snapshot, a resolver finding it.  The
    sequence ends with the scheduler's iteration on the record, or with the
    resolver's update. *)
Definition opens (ev : Event) : bool :=
  match ev with
  | EvSchedFind _ | EvResolverFind _ _ true => true
  | _ => false
  end.

(** [exclusive_from t cur tr]: in [tr], no thread touches the record of [t]
    while another thread, [cur] at first, is between the read and the write
    of a sequence on it. *)
Fixpoint exclusive_from (t : string) (cur : option Actor) (tr : list Event)
  : bool :=
  match tr with
  | [] => true
  | ev :: tr' =>
      match toucher t ev with
      | None => exclusive_from t cur tr'
      | Some a =>
          match cur with
          | Some b =>
              if bool_decide (a = b)
              then exclusive_from t (if opens ev then Some a else None) tr'
              else false
          | None => exclusive_from t (if opens ev then Some a else None) tr'
          end
      end
  end.

Definition exclusive (t : string) (tr : list Event) : bool :=
  exclusive_from t None tr.

(** *** Invariants of the reachable states *)

(** A resolver inside its [with lock] block. *)
Definition inside (r : Resolver) : bool :=
  match r_pc r with
  | Locked _ | Found _ => true
  | Sleeping | Done => false
  end.

(** The lock is held by the one resolver inside its block, if any. *)
Definition lock_inv (σ : State) : Prop :=
  (∀ i r, resolvers σ !! i = Some r → inside r = true → lock σ = Some i) ∧
  (∀ i, lock σ = Some i →
        ∃ r, resolvers σ !! i = Some r ∧ inside r = true).

(** The snapshot entries the scheduler has still to process. *)
Definition rest (σ : State) : list Shipment :=
  match sched σ with
  | Running _ l => l
  | Dead _ => []
  end.

(** Every write goes to the first document of its tracking number, so a
    document that comes after another one of the same number stays as the
    factory made it, at stage 0. *)
Definition first_only (db : Store) : Prop :=
  ∀ i j a b, (i < j)%nat → db !! i = Some a → db !! j = Some b →
             tracking a = tracking b → current_step_index b = 0.

(** Tracking numbers may collide here.  Among the snapshot entries [work]
    still to process, at most one per tracking number is due for an
    incident, and the document it would write to has [incident_checked]
    unset; every resolver thread of [rs] was started once ([log] lists the
    thread starts), and the document it will write to has
    [incident_checked] set. *)
Record once_inv (db : Store) (work : list Shipment) (rs : list Resolver)
    (log : list string) : Prop := {
  oi_first : first_only db;
  oi_in : ∀ s, s ∈ work → is_Some (find_one (tracking s) db);
  oi_due_nodup :
    NoDup (tracking <$> filter (λ s, incident_due s = true) work);
  oi_due :
    ∀ s d, s ∈ work → incident_due s = true →
           find_one (tracking s) db = Some d → incident_checked d = false;
  oi_threads : r_tracking <$> rs = log;
  oi_threads_nodup : NoDup (r_tracking <$> rs);
  oi_checked :
    ∀ r, r ∈ rs →
         ∃ d, find_one (r_tracking r) db = Some d ∧ incident_checked d = true
}.

Definition Once (σ : State) : Prop :=
  once_inv (db σ) (rest σ) (resolvers σ) (spawn_log (trace σ)).


(** A snapshot document and a stored one that agree on the fields only the
    scheduler writes. *)
Definition agree (s d : Shipment) : Prop :=
  current_step_index s = current_step_index d ∧
  time_in_step s = time_in_step d ∧
  incident_checked s = incident_checked d ∧
  incident_decision s = incident_decision d.

(** An update that leaves the scheduler's fields alone. *)
Definition foreign (u : Update) : Prop :=
  ∀ d, agree (apply_update u d) d.

(** The snapshot entries [work] still to process are current on the
    scheduler's own fields, and every resolver thread of [rs] was started
    once ([log] lists the thread starts), for a stored shipment whose
    [incident_checked] is set. *)
Record inv (db : Store) (work : list Shipment) (rs : list Resolver)
    (log : list string) : Prop := {
  inv_rest_nodup : NoDup (tracking <$> work);
  inv_rest_in : ∀ s, s ∈ work → tracking s ∈ tracking <$> db;
  inv_agree :
    ∀ s d, s ∈ work → d ∈ db → tracking s = tracking d → agree s d;
  inv_threads : r_tracking <$> rs = log;
  inv_threads_nodup : NoDup (r_tracking <$> rs);
  inv_threads_in : ∀ r, r ∈ rs → r_tracking r ∈ tracking <$> db;
  inv_checked :
    ∀ r d, r ∈ rs → d ∈ db → tracking d = r_tracking r →
           incident_checked d = true
}.

Definition Inv (σ : State) : Prop :=
  inv (db σ) (rest σ) (resolvers σ) (spawn_log (trace σ)).



End Sys.

(** ** Concrete inputs used in Part II *)

(** Six calls of [random.random()]: one small weight, five equal ones. *)
Definition rnd_skewed (i : nat) : Q :=
  if (i =? 5)%nat then 1 # 64 else 1 # 2.

(** Two orders placed by two clients. *)
Definition draws_a : CreateDraws :=
  mkCreateDraws 10000001 55 (9 # 20) rnd_skewed 50
    "Tue Nov  3 09:00:00 2026" "2026-11-03 09:00:00".

Definition draws_b : CreateDraws :=
  mkCreateDraws 10000002 60 (1 # 2) rnd_skewed 50
    "Tue Nov  3 09:00:01 2026" "2026-11-03 09:00:01".

Definition shipment_a : Shipment := new_shipment "alice" 1 "Paris" draws_a.

Definition shipment_b : Shipment := new_shipment "bob" 2 "Lyon" draws_b.

Definition two_shipments : Store := [shipment_a; shipment_b].

(** A pass in which the store refuses the write of the first iteration. *)
Definition env_first_write_fails (k : nat) : IterEnv :=
  mkIterEnv 5 "Tue Nov  3 09:00:02 2026" (bool_decide (k = 0%nat)).

(** A pass without store failures. *)
Definition env_ok (k : nat) : IterEnv :=
  mkIterEnv 5 "Tue Nov  3 09:00:02 2026" false.

(** Passes that each measure [delta] time units since the one before. *)
Definition steady_ticks (n : nat) (delta : Q) : list (Q * (nat → IterEnv)) :=
  replicate n (delta, env_ok).

(** An order that will suffer an incident, followed from an empty
    collection through 19 passes of one time unit to the transit stage and
    through the pass that declares the incident and starts resolver 0. *)
Definition draws_c : CreateDraws :=
  mkCreateDraws 10000003 55 (9 # 20) rnd_skewed 10
    "Tue Nov  3 09:00:00 2026" "2026-11-03 09:00:00".

Definition shipment_c : Shipment := new_shipment "carol" 1 "Lille" draws_c.

Definition to_transit : list Sys.Action :=
  Sys.Create "carol" 1 "Lille" draws_c ::
  concat (replicate 19 [Sys.TickStart 1; Sys.TickNext (env_ok 0)]).

Definition to_incident : list Sys.Action :=
  to_transit ++ [Sys.TickStart 1; Sys.TickNext (env_ok 0)].

(** Resolver 0 has woken up, drawn 80, taken the lock and found the
    shipment. *)
Definition to_found : list Sys.Action :=
  to_incident ++ [Sys.ResolverAcquire 0 80; Sys.ResolverFind 0].

(** The resolver wakes up, takes the lock and finds the shipment; the
    scheduler starts a pass and reads its snapshot; the resolver writes the
    resumption and leaves; the scheduler runs its iteration on the
    snapshot. *)
Definition race : list Sys.Action :=
  to_incident ++
  [Sys.ResolverAcquire 0 80; Sys.ResolverFind 0;
   Sys.TickStart 1;
   Sys.ResolverUpdate 0 "Tue Nov  3 09:00:50 2026";
   Sys.TickNext (env_ok 0)].

(** The same steps with the resolver's block and the scheduler's pass one
    after the other. *)
Definition serial : list Sys.Action :=
  to_incident ++
  [Sys.ResolverAcquire 0 80; Sys.ResolverFind 0;
   Sys.ResolverUpdate 0 "Tue Nov  3 09:00:50 2026";
   Sys.TickStart 1;
   Sys.TickNext (env_ok 0)].

(** The state a schedule leads to from the empty collection. *)
Definition reached (acts : list Sys.Action) : Sys.State :=
  default (Sys.initial []) (Sys.run acts (Sys.initial [])).

(** ** Relations between a document before and after an operation *)

Definition flags_kept (d d' : Shipment) : Prop :=
  (finished d = true → finished d' = true) ∧
  (archived d = true → archived d' = true).

Definition same_progress (d d' : Shipment) : Prop :=
  time_in_step d' = time_in_step d ∧
  current_step_index d' = current_step_index d.

(** What a pass may do to a document: nothing to the progress of one that
    is on hold, and no change of stage but for one that is not on hold,
    whose [on_hold] then stays as it is. *)
Definition hold_respected (d d' : Shipment) : Prop :=
  (on_hold d = Some true → same_progress d d') ∧
  (current_step_index d' ≠ current_step_index d →
   default false (on_hold d) = false ∧ on_hold d' = on_hold d).

(** ** Progress of a shipment without incident *)

(** Time budget of the stages [i .. 5]; the last stage is never waited for. *)
Definition stage_budget (durations : list Z) (i : nat) : Z :=
  Py.sum (take (6 - i) (drop i durations)).

(** Passes of at least one time unit that the shipment still needs. *)
Definition remaining (d : Shipment) : Z :=
  if finished d then 0
  else stage_budget (step_durations d) (Z.to_nat (current_step_index d))
       - Qfloor (time_in_step d).

(** What holds of a shipment created without incident, under the scheduler
    alone: it is at some stage [0..6], finished exactly at the last one, its
    history lists the stage labels up to its stage, and the time spent in
    the stage is below the stage's duration. *)
Record on_track (t : string) (durations : list Z) (d : Shipment) : Prop := {
  ot_tracking : tracking d = t;
  ot_durations : step_durations d = durations;
  ot_archived : archived d = false;
  ot_decision : incident_decision d = false;
  ot_hold : on_hold d = Some false;
  ot_index : 0 ≤ current_step_index d ≤ 6;
  ot_finished : finished d = bool_decide (current_step_index d = 6);
  ot_history :
    (history d).*1 = take (S (Z.to_nat (current_step_index d))) statuses;
  ot_time :
    current_step_index d < 6 →
    ∃ dur, durations !! Z.to_nat (current_step_index d) = Some dur ∧
           (0 <= time_in_step d)%Q ∧ (time_in_step d < inject_Z dur)%Q
}.

(** ** HTTP routes *)

(** A value of a parsed JSON body, as [request.json] hands it to a route;
    Python's parser also accepts the literals [NaN] and [Infinity]. *)
Inductive PyFloat : Type :=
| Finite (x : Q)
| Infinity (negative : bool)
| NaN.

#[warnings="-register-all"] Inductive Json : Type :=
| JNull
| JBool (b : bool)
| JInt (n : Z)
| JFloat (x : PyFloat)
| JStr (s : string)
| JArr (l : list Json)
| JObj (l : list (string * Json)).

(** The body of a request: a JSON object, as a Python dict. *)
Abbreviation Dict := (gmap string Json).

(** Exceptions a route can raise; Flask answers an uncaught one with
    status 500. *)
Inductive RouteExn : Type :=
| AttributeError
| TypeError
| ValueError
| OverflowError.

(** Two built-ins are left to the interpreter: [str.strip()], and [int()]
    on a string, [None] standing for its [ValueError]. *)
Class Interp : Type := {
  str_strip : string → string;
  int_of_str : string → option Z
}.

(** [int(v)] on a JSON value: a float is truncated, a boolean is 0 or 1,
    and [None], a list or a dict raise [TypeError]. *)
Definition int_of {interp : Interp} (v : Json) : RouteExn + Z :=
  match v with
  | JInt n => inr n
  | JBool b => inr (if b then 1 else 0)
  | JFloat (Finite x) => inr (Py.int x)
  | JFloat (Infinity _) => inl OverflowError
  | JFloat NaN => inl ValueError
  | JStr s =>
      match int_of_str s with
      | Some n => inr n
      | None => inl ValueError
      end
  | JNull | JArr _ | JObj _ => inl TypeError
  end.

(** [js.get(key, "").strip()]: only a string has the method. *)
Definition get_stripped {interp : Interp} (js : Dict) (key : string)
  : RouteExn + string :=
  match default (JStr "") (js !! key) with
  | JStr s => inr (str_strip s)
  | _ => inl AttributeError
  end.

(** A document of the [users] collection. *)
Record User : Type := mkUser {
  username : string;
  password : string
}.

(** The queries [{"username": u}] and [{"username": u, "password": p}]. *)
Definition by_username (u : string) (x : User) : Prop := username x = u.

Definition by_credentials (u p : string) (x : User) : Prop :=
  username x = u ∧ password x = p.

#[global] Instance by_username_dec u x : Decision (by_username u x).
Proof. unfold by_username. apply _. Defined.

#[global] Instance by_credentials_dec u p x : Decision (by_credentials u p x).
Proof. unfold by_credentials. apply _. Defined.

(** [users_collection.find_one(query)]: the first matching document. *)
Definition find_user (query : User → Prop) `{!∀ x, Decision (query x)}
    (users : list User) : option User :=
  head (filter query users).

(** What the routes answer: a JSON body and an HTTP status.  [View] is the
    object that [get_shipments] and [get_one_shipment] build from a
    document. *)
Record View : Type := mkView {
  v_tracking : string;
  v_client : string;
  v_quantity : Z;
  v_destination : string;
  v_status : string;
  v_history : list (string * string);
  v_archived : bool;
  v_current_step_index : Z
}.

Inductive Body : Type :=
| Error (msg : string)
| Success
| SuccessRole (role : string)
| SuccessTracking (t : string)
| One (v : View)
| Many (l : list View).

Abbreviation Response := (Body * Z)%type.

(** A route raises, which it does before it has written anything, or it
    answers and leaves a collection.  The store is taken to answer every
    request of a route.

    [signup] sends two requests to the store, the test of line 232 and the
    insert of line 234, and holds no lock between them.  Lines 227-233:
    what the route decides before it writes, an answer or the account to
    insert. *)
Definition signup_check {interp : Interp} (js : Dict) (users : list User)
  : RouteExn + (Response + User) :=
  match get_stripped js "username", get_stripped js "password" with
  | inl ex, _ | inr _, inl ex => inl ex
  | inr username, inr password =>
      if bool_decide (username = "") || bool_decide (password = "")
      then inr (inl (Error "Champs manquants", 400))
      else
        match find_user (by_username username) users with
        | Some _ => inr (inl (Error "Identifiant déjà existant", 400))
        | None => inr (inr (mkUser username password))
        end
  end.

(** Lines 234-236, on the collection as it is when the insert arrives. *)
Definition signup_finish (checked : RouteExn + (Response + User))
    (users : list User) : (RouteExn + Response) * list User :=
  match checked with
  | inl ex => (inl ex, users)
  | inr (inl resp) => (inr resp, users)
  | inr (inr account) => (inr (Success, 200), users ++ [account])
  end.

(** A request served while no other request writes to [users]. *)
Definition signup {interp : Interp} (js : Dict) (users : list User)
  : RouteExn + (Response * list User) :=
  match signup_finish (signup_check js users) users with
  | (inl ex, _) => inl ex
  | (inr resp, users') => inr (resp, users')
  end.

(** Two requests served by two threads, where both have run the test of
    line 232 before either runs the insert of line 234. *)
Definition signup_overlapped {interp : Interp} (js1 js2 : Dict)
    (users : list User)
  : (RouteExn + Response) * (RouteExn + Response) * list User :=
  let checked1 := signup_check js1 users in
  let checked2 := signup_check js2 users in
  let '(answer1, users) := signup_finish checked1 users in
  let '(answer2, users) := signup_finish checked2 users in
  (answer1, answer2, users).

Definition login {interp : Interp} (js : Dict) (users : list User)
  : RouteExn + Response :=
  match get_stripped js "username", get_stripped js "password" with
  | inl ex, _ | inr _, inl ex => inl ex
  | inr username, inr password =>
      match find_user (by_credentials username password) users with
      | Some _ =>
          let role :=
            if bool_decide (username = "BUT3MLT") then "admin" else "client" in
          inr (SuccessRole role, 200)
      | None => inr (Error "Identifiants invalides", 401)
      end
  end.

Definition view (s : Shipment) : View :=
  {| v_tracking := tracking s;
     v_client := client s;
     v_quantity := quantity s;
     v_destination := destination s;
     v_status := status s;
     v_history := history s;
     v_archived := archived s;
     v_current_step_index := current_step_index s |}.

Definition get_shipments (db : Store) : Response :=
  (Many (view <$> db), 200).

(** An integer that fits the 8 bytes the store has for one.  On any other,
    [insert_one] raises [OverflowError] while it encodes the document, and
    stores nothing. *)
Definition fits_int64 (n : Z) : bool :=
  (- 2 ^ 63 <=? n) && (n <? 2 ^ 63).

(** [r] holds the draws of [generate_tracking_for].  The quantity is the
    one field of the new document that comes from the body as a number; on
    one that does not fit, the [insert_one] that ends
    [generate_tracking_for] raises, and the exception leaves the route. *)
Definition passer_commande {interp : Interp} (js : Dict) (r : CreateDraws)
    (users : list User) (db : Store) : RouteExn + (Response * Store) :=
  let qty := default (JInt 0) (js !! "quantity") in
  match get_stripped js "username", get_stripped js "destination" with
  | inl ex, _ | inr _, inl ex => inl ex
  | inr username, inr dest =>
      if bool_decide (username = "") || bool_decide (dest = "")
      then inr ((Error "Champs manquants", 400), db)
      else
        match int_of qty with
        | inl ValueError => inr ((Error "Quantité invalide", 400), db)
        | inl ex => inl ex
        | inr qty =>
            match find_user (by_username username) users with
            | None => inr ((Error "Utilisateur inexistant", 400), db)
            | Some _ =>
                if fits_int64 qty then
                  let '(db', tracking) :=
                    generate_tracking_for username qty dest r db in
                  inr ((SuccessTracking tracking, 200), db')
                else inl OverflowError
            end
        end
  end.

Definition get_one_shipment (tracking : string) (db : Store) : Response :=
  match find_one tracking db with
  | None => (Error "Invalide", 404)
  | Some shipment => (One (view shipment), 200)
  end.

(** [start_simulation]: the flag [simulation_started] after the call, and
    the number of scheduler threads the call has started. *)
Definition start_simulation (simulation_started : bool) : bool * nat :=
  if negb simulation_started then (true, 1%nat)
  else (simulation_started, 0%nat).

(** ** What the threads write, and the shape they keep *)

(** The update documents that occur in the source. *)
Inductive server_update : Update → Prop :=
| su_close : server_update close_update
| su_time (q : Q) : server_update (time_update q)
| su_incident (e : IterEnv) : server_update (incident_update e)
| su_advance (e : IterEnv) (i : Z) (st : string) :
    Py.getitem statuses i = inr st →
    server_update (advance_update e i st)
| su_cancel (now : string) : server_update (cancel_update now)
| su_resume (now : string) : server_update (resume_update now)
| su_archive : server_update archive_update.

(** A document and a later state of it: the fields given at creation are
    the same, the history has grown at its end, and [incident_checked]
    has not been reset. *)
Record grows (d d' : Shipment) : Prop := {
  g_tracking : tracking d' = tracking d;
  g_client : client d' = client d;
  g_quantity : quantity d' = quantity d;
  g_destination : destination d' = destination d;
  g_created : creation_timestamp d' = creation_timestamp d;
  g_durations : step_durations d' = step_durations d;
  g_decision : incident_decision d' = incident_decision d;
  g_history : history d `prefix_of` history d';
  g_checked : incident_checked d = true → incident_checked d' = true
}.

(** The shape of a stored shipment: a stage among the seven, seven
    durations of at least 1, and [finished] set at the last stage. *)
Record well_formed (d : Shipment) : Prop := {
  wf_index : 0 ≤ current_step_index d ≤ 6;
  wf_length : length (step_durations d) = 7%nat;
  wf_positive : Forall (λ x, 1 ≤ x) (step_durations d);
  wf_last : current_step_index d = 6 → finished d = true
}.

(** The documents are well formed, the snapshot entries still to process
    are well formed and unfinished, and no [IndexError] has ended the
    scheduler. *)
Record shape_inv (σ : Sys.State) : Prop := {
  si_db : Forall well_formed (Sys.db σ);
  si_rest : Forall (λ s, well_formed s ∧ finished s = false) (Sys.rest σ);
  si_sched : Sys.sched σ ≠ Sys.Dead Py.IndexError
}.

(** A document as the factory makes it. *)
Definition as_created (d : Shipment) : Prop :=
  ∃ username quantity destination r,
    d = new_shipment username quantity destination r.

(** Every document that follows another one of the same tracking number
    is as the factory made it. *)
Definition shadowed_as_created (db : Store) : Prop :=
  ∀ i j a b, (i < j)%nat → db !! i = Some a → db !! j = Some b →
             tracking a = tracking b → as_created b.

(** Lines 60-83 of [generate_step_durations], on the integers that lines
    50 and 58 have computed: [transit_time] and the six truncated shares
    [partials]. *)
Definition distribute (total_time transit_time : Z) (partials : list Z)
  : list Z :=
  let rest_time := total_time - transit_time in
  let partials := fix_remainder rest_time partials in
  let durations := assemble transit_time partials in
  let durations := clamp durations in
  fix_total total_time durations.

(** [d'] is not behind [d], and at most [n] stages ahead of it. *)
Definition stage_within (n : nat) (d d' : Shipment) : Prop :=
  current_step_index d ≤ current_step_index d'
  ≤ current_step_index d + Z.of_nat n.

(** The seven durations of [generate_step_durations] as lines 65-72 build
    them, before the loop of lines 74-76 raises the ones below 1. *)
Definition raw_durations
    (total_time : Z) (transit_prop : Q) (rnd : nat → Q) : list Z :=
  let transit_time := Py.int (inject_Z total_time * transit_prop)%Q in
  let rest_time := total_time - transit_time in
  assemble transit_time
    (fix_remainder rest_time (scale_partials rest_time rnd)).

(** The label of the last history entry is the status, or it is
    "Incident signalé" under the status of line 161. *)
Definition status_recorded (d : Shipment) : Prop :=
  ∃ label time,
    last (history d) = Some (label, time) ∧
    (label = status d ∨
     (label = "Incident signalé" ∧ ∃ days, status d = incident_status days)).

(** A shipment that is to suffer no incident, and has not: it was never
    offered one, is not on hold, and carries the label of a stage. *)
Definition quiet (d : Shipment) : Prop :=
  incident_decision d = false →
  incident_checked d = false ∧ on_hold d = Some false ∧
  status d ∈ statuses.

(** Every stored shipment is quiet, and a snapshot entry that is due for
    an incident stands for a stored shipment that is to suffer one. *)
Record decision_inv (σ : Sys.State) : Prop := {
  di_once : Sys.Once σ;
  di_quiet : Forall quiet (Sys.db σ);
  di_due :
    ∀ s d, s ∈ Sys.rest σ → incident_due s = true →
           find_one (tracking s) (Sys.db σ) = Some d →
           incident_decision d = true
}.

(** The steps of the resolver threads. *)
Definition resolver_action (a : Sys.Action) : bool :=
  match a with
  | Sys.ResolverAcquire _ _ | Sys.ResolverFind _ | Sys.ResolverUpdate _ _ =>
      true
  | _ => false
  end.

(** ** More concrete inputs *)

(** An interpreter for the examples: [strip] takes the spaces off both
    ends, and [int] reads a plain decimal numeral. *)
Fixpoint lstrip_spaces (s : string) : string :=
  match s with
  | String c s' =>
      if Ascii.eqb c (Ascii.ascii_of_nat 32) then lstrip_spaces s' else s
  | EmptyString => s
  end.

Definition string_rev (s : string) : string :=
  String.string_of_list_ascii (rev (String.list_ascii_of_string s)).

Definition example_interp : Interp :=
  {| str_strip s := string_rev (lstrip_spaces (string_rev (lstrip_spaces s)));
     int_of_str s := Z.of_int <$> NilZero.int_of_string s |}.

(** The bodies of a registration and of an order without quantity. *)
Definition alice_account : Dict :=
  list_to_map [("username", JStr " alice "); ("password", JStr "secret")].

Definition alice_order : Dict :=
  list_to_map [("username", JStr "alice"); ("destination", JStr " Paris")].

(** A second registration under the name of alice, and an order of alice
    for a quantity of [2 ^ 63]. *)
Definition alice_again : Dict :=
  list_to_map [("username", JStr "alice"); ("password", JStr "other")].

Definition alice_bulk_order : Dict :=
  list_to_map [("username", JStr "alice"); ("destination", JStr " Paris");
               ("quantity", JInt (2 ^ 63))].

(** Two orders that draw the same tracking number, and two passes. *)
Definition collide : list Sys.Action :=
  Sys.Create "carol" 1 "Lille" draws_c ::
  Sys.Create "dave" 2 "Nice" draws_c ::
  concat (replicate 2 [Sys.TickStart 1; Sys.TickNext (env_ok 0);
                       Sys.TickNext (env_ok 1)]).

(** The order of carol is on hold, its resolver not yet awake, when dave's
    order is created under the same tracking number. *)
Definition held_with_namesake : list Sys.Action :=
  to_incident ++ [Sys.Create "dave" 2 "Nice" draws_c].


(** * Part II: properties *)

(** ** Python built-ins *)

Lemma py_sum_from (a : Z) (l : list Z) : foldl Z.add a l = a + Py.sum l.
Proof.
  unfold Py.sum. revert a.
  induction l as [|x l IH]; intros a; simpl; [lia|].
  rewrite (IH (a + x)), (IH (0 + x)). lia.
Qed.

Lemma py_sum_cons (x : Z) (l : list Z) : Py.sum (x :: l) = x + Py.sum l.
Proof. unfold Py.sum at 1. simpl. apply py_sum_from. Qed.

Lemma py_sum_nil : Py.sum [] = 0.
Proof. reflexivity. Qed.

Lemma py_sum_alter (f : Z → Z) (i : nat) (l : list Z) (x : Z) :
  l !! i = Some x → Py.sum (alter f i l) = Py.sum l + (f x - x).
Proof.
  revert i. induction l as [|y l IH]; intros [|i] H; simplify_eq/=.
  - rewrite !py_sum_cons. lia.
  - rewrite !py_sum_cons. rewrite (IH i H). lia.
Qed.

Lemma argmax_from_bound (l : list Z) (bi : nat) (b : Z) (i : nat) :
  (bi < i)%nat → (Py.argmax_from bi b i l < i + length l)%nat.
Proof.
  revert bi b i. induction l as [|x l IH]; intros bi b i Hlt; simpl; [lia|].
  destruct (b <? x).
  - specialize (IH i x (S i)). lia.
  - specialize (IH bi b (S i)). lia.
Qed.

Lemma argmax_bound (l : list Z) : l ≠ [] → (Py.argmax l < length l)%nat.
Proof.
  destruct l as [|x l]; [done|]. intros _. simpl.
  pose proof (argmax_from_bound l 0 x 1). lia.
Qed.

(** ** Duration allocator *)

Lemma scale_partials_length (rest_time : Z) (rnd : nat → Q) :
  length (scale_partials rest_time rnd) = 6%nat.
Proof.
  unfold scale_partials.
  destruct (Qeq_bool _ _); by rewrite length_fmap.
Qed.

Lemma fix_remainder_length (rest_time : Z) (partials : list Z) :
  length (fix_remainder rest_time partials) = length partials.
Proof.
  unfold fix_remainder. destruct (negb _); [|done].
  apply length_alter.
Qed.

Lemma fix_remainder_sum (rest_time : Z) (partials : list Z) :
  partials ≠ [] → Py.sum (fix_remainder rest_time partials) = rest_time.
Proof.
  intros Hne. unfold fix_remainder.
  destruct (Z.eqb_spec (rest_time - Py.sum partials) 0) as [Heq|Hneq]; simpl.
  - lia.
  - destruct (lookup_lt_is_Some_2 partials (Py.argmax partials)
                (argmax_bound partials Hne)) as [x Hx].
    rewrite (py_sum_alter _ _ _ x Hx). lia.
Qed.

Lemma assemble_length (transit_time : Z) (partials : list Z) :
  length (assemble transit_time partials) = 7%nat.
Proof. reflexivity. Qed.

Lemma assemble_sum (transit_time : Z) (partials : list Z) :
  length partials = 6%nat →
  Py.sum (assemble transit_time partials) = transit_time + Py.sum partials.
Proof.
  intros Hlen.
  destruct partials as [|a [|b [|c [|d [|e [|f [|g l]]]]]]]; simplify_eq/=.
  unfold assemble. simpl. rewrite !py_sum_cons, py_sum_nil. lia.
Qed.

Lemma clamp_map (durations : list Z) :
  length durations = 7%nat → clamp durations = Z.max 1 <$> durations.
Proof.
  intros Hlen.
  rewrite (list_fmap_ext (Z.max 1) (λ d, if d <? 1 then 1 else d) durations)
    by (intros _ d _; destruct (Z.ltb_spec d 1); lia).
  destruct durations as [|a [|b [|c [|d [|e [|f [|g [|h l]]]]]]]];
    simplify_eq/=.
  unfold clamp, clamp_step. cbn -[Z.ltb].
  destruct (a <? 1) eqn:Ha; cbn -[Z.ltb];
    destruct (b <? 1) eqn:Hb; cbn -[Z.ltb];
    destruct (c <? 1) eqn:Hc; cbn -[Z.ltb];
    destruct (d <? 1) eqn:Hd; cbn -[Z.ltb];
    destruct (e <? 1) eqn:He; cbn -[Z.ltb];
    destruct (f <? 1) eqn:Hf; cbn -[Z.ltb];
    destruct (g <? 1) eqn:Hg; cbn -[Z.ltb]; reflexivity.
Qed.

Lemma py_sum_clamp_ge (l : list Z) : Py.sum l ≤ Py.sum (Z.max 1 <$> l).
Proof.
  induction l as [|x l IH]; [done|]. rewrite fmap_cons, !py_sum_cons.
  revert IH. generalize (Py.sum (Z.max 1 <$> l)) (Py.sum l). lia.
Qed.

Lemma fix_total_length (total_time : Z) (durations : list Z) :
  length (fix_total total_time durations) = length durations.
Proof. unfold fix_total. destruct (0 <? _); [apply length_alter|done]. Qed.

Lemma fix_total_lower (total_time : Z) (durations : list Z) :
  Forall (λ d, 1 ≤ d) durations →
  Forall (λ d, 1 ≤ d) (fix_total total_time durations).
Proof.
  intros H. unfold fix_total.
  destruct (Z.ltb_spec 0 (total_time - Py.sum durations)); [|done].
  apply Forall_alter; [done|]. intros; lia.
Qed.

(** The allocator returns seven durations, each at least 1. *)
Lemma generate_step_durations_shape
    (total_time : Z) (transit_prop : Q) (rnd : nat → Q) :
  let durations := generate_step_durations total_time transit_prop rnd in
  length durations = 7%nat ∧ Forall (λ d, 1 ≤ d) durations.
Proof.
  unfold generate_step_durations. split.
  - rewrite fix_total_length, clamp_map by apply assemble_length.
    by rewrite length_fmap.
  - apply fix_total_lower. rewrite clamp_map by apply assemble_length.
    apply Forall_fmap, Forall_true. intros d. simpl. lia.
Qed.

(** Before the clamp the seven durations add up to [total_time]; the clamp
    can only add to that, and the last correction never runs then. *)
Lemma generate_step_durations_sum
    (total_time : Z) (transit_prop : Q) (rnd : nat → Q) :
  let transit_time := Py.int (inject_Z total_time * transit_prop)%Q in
  let rest_time := total_time - transit_time in
  let raw :=
    assemble transit_time
      (fix_remainder rest_time (scale_partials rest_time rnd)) in
  Py.sum raw = total_time ∧
  generate_step_durations total_time transit_prop rnd = Z.max 1 <$> raw ∧
  total_time ≤ Py.sum (generate_step_durations total_time transit_prop rnd).
Proof.
  intros transit_time rest_time raw.
  assert (Hraw : Py.sum raw = total_time).
  { unfold raw. rewrite assemble_sum.
    - rewrite fix_remainder_sum; [unfold rest_time; lia|].
      intros Hnil. pose proof (scale_partials_length rest_time rnd) as Hl.
      by rewrite Hnil in Hl.
    - by rewrite fix_remainder_length, scale_partials_length. }
  assert (Hgen : generate_step_durations total_time transit_prop rnd
                 = Z.max 1 <$> raw).
  { unfold generate_step_durations. fold transit_time rest_time raw.
    rewrite clamp_map by apply assemble_length.
    unfold fix_total. pose proof (py_sum_clamp_ge raw).
    destruct (Z.ltb_spec 0 (total_time - Py.sum (Z.max 1 <$> raw)));
      [lia|done]. }
  split_and!; [done|done|]. rewrite Hgen. pose proof (py_sum_clamp_ge raw). lia.
Qed.

(** C1 (allocator output: seven entries, each at least 1, adding up to the
    drawn total).  The first two hold on every run, see
    [generate_step_durations_shape]; the total does not.  With the draws
    [total_time = 55], [transit_prop = 0.45] and weights
    [0.5, 0.5, 0.5, 0.5, 0.5, 0.015625], the last share truncates to 0, is
    raised to 1 by the clamp, and the result adds up to 56: the correction
    of lines 78-81 only runs on a missing remainder, never on an excess. *)
Theorem generate_step_durations_overshoot :
  generate_step_durations 55 (9 # 20) rnd_skewed = [7; 6; 6; 24; 6; 6; 1] ∧
  Py.sum (generate_step_durations 55 (9 # 20) rnd_skewed) = 56 ∧
  Py.sum (generate_step_durations 55 (9 # 20) rnd_skewed) ≠ 55.
Proof. split_and!; [vm_compute; reflexivity.. | vm_compute; discriminate]. Qed.

(** ** The collection *)

Lemma assign_tracking (d : Shipment) (a : Assign) :
  tracking (assign d a) = tracking d.
Proof. by destruct a. Qed.

Lemma apply_update_tracking (u : Update) (d : Shipment) :
  tracking (apply_update u d) = tracking d.
Proof.
  unfold apply_update.
  assert (H : ∀ l d, tracking (foldl assign d l) = tracking d).
  { induction l as [|a l IH]; intros d0; simpl; [done|].
    by rewrite IH, assign_tracking. }
  destruct (upd_unset_on_hold u), (upd_push u); simpl; apply H.
Qed.

Lemma find_one_Some (t : string) (db : Store) (d : Shipment) :
  find_one t db = Some d → d ∈ db ∧ tracking d = t.
Proof.
  induction db as [|d0 db IH]; simpl; [done|].
  case_decide; intros Hf; simplify_eq.
  - split; [left|done].
  - destruct (IH Hf). split; [by right|done].
Qed.

Lemma find_one_None (t : string) (db : Store) :
  find_one t db = None ↔ t ∉ tracking <$> db.
Proof.
  induction db as [|d0 db IH]; simpl.
  - split; [intros _; apply not_elem_of_nil|done].
  - rewrite not_elem_of_cons. case_decide as Hd.
    + split; [done|]. intros [Hne _]. by destruct Hne.
    + rewrite IH. split; [|by intros [_ ?]].
      intros Hnotin. split; [|done]. by intros ->.
Qed.

Lemma update_one_missing (t : string) (u : Update) (db : Store) :
  find_one t db = None → update_one t u db = db.
Proof.
  induction db as [|d0 db IH]; simpl; [done|].
  case_decide; [done|]. intros Hf. by rewrite IH.
Qed.

Lemma update_one_trackings (t : string) (u : Update) (db : Store) :
  tracking <$> update_one t u db = tracking <$> db.
Proof.
  induction db as [|d0 db IH]; csimpl; [done|].
  case_decide; csimpl; [by rewrite apply_update_tracking|by rewrite IH].
Qed.

Lemma update_one_find (t : string) (u : Update) (db : Store) (d : Shipment) :
  find_one t db = Some d →
  find_one t (update_one t u db) = Some (apply_update u d).
Proof.
  induction db as [|d0 db IH]; simpl; [done|].
  case_decide as Hd; intros Hf; simplify_eq; simpl.
  - rewrite decide_True by apply apply_update_tracking. done.
  - rewrite decide_False by done. auto.
Qed.

Lemma update_one_find_ne (t t' : string) (u : Update) (db : Store) :
  t ≠ t' → find_one t' (update_one t u db) = find_one t' db.
Proof.
  intros Hne. induction db as [|d0 db IH]; simpl; [done|].
  case_decide as Hd; simpl.
  - rewrite apply_update_tracking. subst. by rewrite !decide_False.
  - by rewrite IH.
Qed.

(** An update touches one position of the collection and nothing else. *)
Lemma update_one_Forall2 (R : Shipment → Shipment → Prop)
    (t : string) (u : Update) (db : Store) :
  (∀ d, R d d) → (∀ d, tracking d = t → R d (apply_update u d)) →
  Forall2 R db (update_one t u db).
Proof.
  intros Hrefl Hupd. induction db as [|d0 db IH]; simpl; [constructor|].
  case_decide.
  - constructor; [by apply Hupd|]. by apply Forall_Forall2_diag, Forall_true.
  - by constructor.
Qed.

(** With distinct tracking numbers an update is a map over the collection. *)
Lemma update_one_NoDup (t : string) (u : Update) (db : Store) :
  NoDup (tracking <$> db) →
  update_one t u db =
  (λ d, if decide (tracking d = t) then apply_update u d else d) <$> db.
Proof.
  induction db as [|d0 db IH]; simpl; [done|].
  intros [Hnotin Hnd]%NoDup_cons. case_decide as Hd.
  - f_equal. rewrite <- (list_fmap_id db) at 1. apply list_fmap_ext.
    intros i d Hin. rewrite decide_False; [done|].
    intros Heq. apply Hnotin. rewrite Hd, <- Heq.
    apply list_elem_of_fmap_2, list_elem_of_lookup. eauto.
  - by rewrite IH.
Qed.

Lemma NoDup_fmap_eq {A B} (f : A → B) (l : list A) (x y : A) :
  NoDup (f <$> l) → x ∈ l → y ∈ l → f x = f y → x = y.
Proof.
  intros Hnd [i Hi]%list_elem_of_lookup [j Hj]%list_elem_of_lookup Hf.
  assert (i = j) as ->.
  { eapply (NoDup_lookup _ _ _ _ Hnd); rewrite list_lookup_fmap.
    - by rewrite Hi.
    - rewrite Hj. simpl. by rewrite Hf. }
  congruence.
Qed.

(** The documents of an updated collection. *)
Lemma elem_of_update_one (t : string) (u : Update) (db : Store) (d' : Shipment) :
  NoDup (tracking <$> db) → d' ∈ update_one t u db →
  (tracking d' ≠ t ∧ d' ∈ db) ∨
  (∃ d, d ∈ db ∧ tracking d = t ∧ d' = apply_update u d).
Proof.
  intros Hnd. rewrite (update_one_NoDup _ _ _ Hnd).
  intros (d & -> & Hd)%list_elem_of_fmap.
  case_decide; [right; eauto|left; eauto].
Qed.

Lemma filter_trackings_NoDup (P : Shipment → Prop) `{!∀ d, Decision (P d)}
    (db : Store) :
  NoDup (tracking <$> db) → NoDup (tracking <$> filter P db).
Proof.
  intros Hnd. eapply sublist_NoDup; [done|].
  apply fmap_sublist, sublist_filter.
Qed.

Lemma apply_close_update (d : Shipment) :
  apply_update close_update d =
  mkShipment (tracking d) (status d) (history d) (client d)
    (quantity d) (destination d) (creation_timestamp d) (current_step_index d)
    true (on_hold d) (step_durations d) (time_in_step d)
    (incident_decision d) (incident_checked d) (archived d).
Proof. reflexivity. Qed.

Lemma apply_time_update (q : Q) (d : Shipment) :
  apply_update (time_update q) d =
  mkShipment (tracking d) (status d) (history d) (client d)
    (quantity d) (destination d) (creation_timestamp d) (current_step_index d)
    (finished d) (on_hold d) (step_durations d) q
    (incident_decision d) (incident_checked d) (archived d).
Proof. reflexivity. Qed.

Lemma apply_incident_update (e : IterEnv) (d : Shipment) :
  apply_update (incident_update e) d =
  mkShipment (tracking d) (incident_status (it_days e))
    (history d ++ [("Incident signalé", it_now e)]) (client d)
    (quantity d) (destination d) (creation_timestamp d) (current_step_index d)
    (finished d) (Some true) (step_durations d) (time_in_step d)
    (incident_decision d) true (archived d).
Proof. reflexivity. Qed.

Lemma apply_cancel_update (now : string) (d : Shipment) :
  apply_update (cancel_update now) d =
  mkShipment (tracking d) "Livraison annulée"
    (history d ++ [("Livraison annulée", now)]) (client d)
    (quantity d) (destination d) (creation_timestamp d) (current_step_index d)
    true (on_hold d) (step_durations d) (time_in_step d)
    (incident_decision d) (incident_checked d) (archived d).
Proof. reflexivity. Qed.

Lemma apply_resume_update (now : string) (d : Shipment) :
  apply_update (resume_update now) d =
  mkShipment (tracking d) "En transit"
    (history d ++ [("En transit", now)]) (client d)
    (quantity d) (destination d) (creation_timestamp d) (current_step_index d)
    (finished d) None (step_durations d) (time_in_step d)
    (incident_decision d) (incident_checked d) (archived d).
Proof. reflexivity. Qed.

Lemma apply_archive_update (d : Shipment) :
  apply_update archive_update d =
  mkShipment (tracking d) (status d) (history d) (client d)
    (quantity d) (destination d) (creation_timestamp d) (current_step_index d)
    (finished d) (on_hold d) (step_durations d) (time_in_step d)
    (incident_decision d) (incident_checked d) true.
Proof. reflexivity. Qed.

Lemma last_index : Z.of_nat (length statuses) - 1 = 6.
Proof. reflexivity. Qed.

Lemma apply_advance_update
    (e : IterEnv) (i : Z) (st : string) (d : Shipment) :
  apply_update (advance_update e i st) d =
  mkShipment (tracking d) st (history d ++ [(st, it_now e)]) (client d)
    (quantity d) (destination d) (creation_timestamp d) i
    (if 6 <=? i then true else finished d) (on_hold d) (step_durations d) 0%Q
    (incident_decision d) (incident_checked d) (archived d).
Proof.
  unfold advance_update. rewrite last_index. by destruct (6 <=? i).
Qed.

Create Rewrite HintDb upd.

#[local] Hint Rewrite apply_advance_update apply_close_update apply_time_update
  apply_incident_update apply_cancel_update apply_resume_update
  apply_archive_update : upd.

(** Rewrites applied updates to the resulting record and projects it. *)
Ltac fields :=
  autorewrite with upd in *;
  cbn [tracking status history client quantity destination creation_timestamp
       current_step_index finished on_hold step_durations time_in_step
       incident_decision incident_checked archived] in *.

(** ** Incident resolver *)

(** A resolver that finds its shipment applies one update to it. *)
Lemma handle_incident_found
    (t : string) (days draw : Z) (now : string) (db : Store) (d : Shipment) :
  find_one t db = Some d →
  let u := if incident_outcome days draw
           then cancel_update now else resume_update now in
  handle_incident t days draw now db
    = (update_one t u db,
       if incident_outcome days draw then Cancelled else Resumed) ∧
  find_one t (handle_incident t days draw now db).1 = Some (apply_update u d).
Proof.
  intros Hfind. unfold handle_incident. rewrite Hfind.
  destruct (incident_outcome days draw); simpl;
    (split; [done|by apply update_one_find]).
Qed.

(** C3 (resolver decision): the chance is [min(10 + (days-1)*5, 100)].  A
    resolver that finds its shipment [d] writes the cancellation to it when
    the draw is at most the chance, and the resumption otherwise: the
    document read back under the tracking number is [d] with the status
    "Livraison annulée", [finished] set and one more history entry in the
    first case, and [d] with the status "En transit", [on_hold] removed and
    one more history entry, at the stage it was, in the second; so the
    stored status is the cancellation exactly when the draw is at most the
    chance.  For [days = 5] the chance is 30: with a draw of 20 the document
    read back is cancelled, with a draw of 80 it is resumed. *)
Theorem handle_incident_outcome
    (t : string) (days draw : Z) (now : string) (db : Store) (d : Shipment) :
  find_one t db = Some d →
  let after := λ days draw, handle_incident t days draw now db in
  incident_chance days = Z.min (10 + (days - 1) * 5) 100 ∧
  (∃ d', find_one t (after days draw).1 = Some d' ∧
         (status d' = "Livraison annulée" ↔ draw ≤ incident_chance days) ∧
         ((after days draw).2 = Cancelled ↔ draw ≤ incident_chance days) ∧
         (draw ≤ incident_chance days →
          (after days draw).1 = update_one t (cancel_update now) db ∧
          status d' = "Livraison annulée" ∧ finished d' = true ∧
          history d' = history d ++ [("Livraison annulée", now)] ∧
          on_hold d' = on_hold d ∧
          current_step_index d' = current_step_index d) ∧
         (incident_chance days < draw →
          (after days draw).1 = update_one t (resume_update now) db ∧
          (after days draw).2 = Resumed ∧
          status d' = "En transit" ∧ on_hold d' = None ∧
          history d' = history d ++ [("En transit", now)] ∧
          finished d' = finished d ∧
          current_step_index d' = current_step_index d)) ∧
  incident_chance 5 = 30 ∧
  (∃ d', find_one t (after 5 20).1 = Some d' ∧ (after 5 20).2 = Cancelled ∧
         status d' = "Livraison annulée" ∧ finished d' = true) ∧
  (∃ d', find_one t (after 5 80).1 = Some d' ∧ (after 5 80).2 = Resumed ∧
         status d' = "En transit" ∧ on_hold d' = None ∧
         current_step_index d' = current_step_index d).
Proof.
  intros Hfind after. split_and!; [reflexivity| |reflexivity| |].
  - destruct (handle_incident_found t days draw now db d Hfind) as [Hh Hf].
    eexists. split; [exact Hf|]. unfold after. rewrite Hh. simpl.
    unfold incident_outcome.
    destruct (Z.leb_spec draw (incident_chance days)) as [Hle|Hgt].
    + rewrite apply_cancel_update. simpl. split_and!; try done.
      intros ?. lia.
    + rewrite apply_resume_update. simpl. split_and!; try done;
        try (split; [done|intros; lia]).
      intros ?. lia.
  - destruct (handle_incident_found t 5 20 now db d Hfind) as [Hh Hf].
    eexists. split; [exact Hf|]. unfold after. by rewrite Hh.
  - destruct (handle_incident_found t 5 80 now db d Hfind) as [Hh Hf].
    eexists. split; [exact Hf|]. unfold after. by rewrite Hh.
Qed.

Lemma handle_incident_outcome_witness :
  let d := default shipment_c
             (find_one "10000003" (Sys.db (reached to_found))) in
  let now := "Tue Nov  3 09:00:50 2026" in
  let db := Sys.db (reached to_found) in
  let after := λ days draw, handle_incident "10000003" days draw now db in
  incident_chance 5 = Z.min (10 + (5 - 1) * 5) 100 ∧
  (∃ d', find_one "10000003" (after 5 80).1 = Some d' ∧
         (status d' = "Livraison annulée" ↔ 80 ≤ incident_chance 5) ∧
         ((after 5 80).2 = Cancelled ↔ 80 ≤ incident_chance 5) ∧
         (80 ≤ incident_chance 5 →
          (after 5 80).1 = update_one "10000003" (cancel_update now) db ∧
          status d' = "Livraison annulée" ∧ finished d' = true ∧
          history d' = history d ++ [("Livraison annulée", now)] ∧
          on_hold d' = on_hold d ∧
          current_step_index d' = current_step_index d) ∧
         (incident_chance 5 < 80 →
          (after 5 80).1 = update_one "10000003" (resume_update now) db ∧
          (after 5 80).2 = Resumed ∧
          status d' = "En transit" ∧ on_hold d' = None ∧
          history d' = history d ++ [("En transit", now)] ∧
          finished d' = finished d ∧
          current_step_index d' = current_step_index d)) ∧
  incident_chance 5 = 30 ∧
  (∃ d', find_one "10000003" (after 5 20).1 = Some d' ∧
         (after 5 20).2 = Cancelled ∧
         status d' = "Livraison annulée" ∧ finished d' = true) ∧
  (∃ d', find_one "10000003" (after 5 80).1 = Some d' ∧
         (after 5 80).2 = Resumed ∧
         status d' = "En transit" ∧ on_hold d' = None ∧
         current_step_index d' = current_step_index d).
Proof.
  apply (handle_incident_outcome "10000003" 5 80 "Tue Nov  3 09:00:50 2026"
           (Sys.db (reached to_found))
           (default shipment_c
              (find_one "10000003" (Sys.db (reached to_found))))).
  vm_compute. reflexivity.
Defined.

(** C6 (resolver without its shipment): when [find_one] finds no document
    for the tracking number, the resolver returns normally and the
    collection is what it was. *)
Theorem handle_incident_missing
    (t : string) (days draw : Z) (now : string) (db : Store) :
  find_one t db = None →
  handle_incident t days draw now db = (db, NotFound).
Proof. intros H. unfold handle_incident. by rewrite H. Qed.

Lemma handle_incident_missing_witness :
  handle_incident "99999999" 5 20 "Tue Nov  3 09:00:30 2026" two_shipments
  = (two_shipments, NotFound).
Proof. apply handle_incident_missing. reflexivity. Defined.

(** ** Scheduler: one iteration *)

(** Every run of the loop body is one of the cases of [iteration]. *)
Lemma process_shipment_iteration
    (e : IterEnv) (delta : Q) (shipment : Shipment) (db : Store) :
  iteration e delta shipment db (process_shipment e delta shipment db).
Proof.
  unfold process_shipment, write. rewrite last_index.
  destruct (Z.leb_spec 6 (current_step_index shipment)) as [Hlast|Hlast].
  { destruct (it_fail e); simpl; [apply iter_raise; auto|by apply iter_close]. }
  destruct (default false (on_hold shipment)) eqn:Hhold.
  { by apply iter_hold. }
  destruct (Py.getitem (step_durations shipment) (current_step_index shipment))
    as [ex|dur_step] eqn:Hdur; simpl.
  { apply iter_raise; auto. }
  destruct (incident_due shipment) eqn:Hdue.
  { destruct (it_fail e); simpl; [apply iter_raise; auto|].
    apply iter_incident; [|done..].
    unfold incident_due in Hdue.
    destruct (Z.eqb_spec (current_step_index shipment) 3); [done|].
    discriminate. }
  destruct (Qle_bool _ _) eqn:Hle.
  - apply Qle_bool_iff in Hle.
    destruct (Py.getitem statuses (current_step_index shipment + 1))
      as [ex|new_status] eqn:Hst; simpl; [apply iter_raise; auto|].
    destruct (it_fail e); simpl; [apply iter_raise; auto|].
    by eapply iter_advance.
  - destruct (it_fail e); simpl; [apply iter_raise; auto|].
    eapply iter_time; [done..|].
    apply Qnot_le_lt. intros Hle'. apply Qle_bool_iff in Hle'. congruence.
Qed.

(** The updates the loop body issues. *)
Lemma process_shipment_Forall2 (R : Shipment → Shipment → Prop)
    (e : IterEnv) (delta : Q) (shipment : Shipment) (db : Store) :
  (∀ d, R d d) →
  (∀ d, tracking d = tracking shipment → R d (apply_update close_update d)) →
  (∀ d, tracking d = tracking shipment →
        R d (apply_update (incident_update e) d)) →
  (∀ d i st, tracking d = tracking shipment →
             R d (apply_update (advance_update e i st) d)) →
  (∀ d q, tracking d = tracking shipment →
          R d (apply_update (time_update q) d)) →
  Forall2 R db (store_after db (process_shipment e delta shipment db)).
Proof.
  intros Hrefl Hclose Hinc Hadv Htime.
  destruct (process_shipment_iteration e delta shipment db); simpl;
    try (by apply Forall_Forall2_diag, Forall_true);
    apply update_one_Forall2; auto.
Qed.

(** Progress of a shipment through its stages. *)
Lemma on_hold_iteration
    (e : IterEnv) (delta : Q) (shipment : Shipment) (db : Store) :
  on_hold shipment = Some true →
  current_step_index shipment < 6 →
  process_shipment e delta shipment db = inr (db, None).
Proof.
  intros Hhold Hidx.
  destruct (process_shipment_iteration e delta shipment db)
    as [ex [H|H] | H | | ? H | ? ? ? H | ? ? H]; try done;
    try lia; by rewrite Hhold in H.
Qed.

Lemma on_hold_same_progress
    (e : IterEnv) (delta : Q) (s : Shipment) (db : Store) :
  on_hold s = Some true →
  Forall2 (λ x x', tracking x' = tracking x ∧ same_progress x x')
          db (store_after db (process_shipment e delta s db)).
Proof.
  intros Hhold.
  destruct (process_shipment_iteration e delta s db)
    as [ex H | H | | ? H | ? ? ? H | ? ? H]; simpl;
    try (by apply Forall_Forall2_diag, Forall_true);
    try (by rewrite Hhold in H).
  by apply update_one_Forall2.
Qed.

(** ** Scheduler: one pass *)

Lemma process_all_app
    (env : nat → IterEnv) (delta : Q) (k : nat)
    (l1 l2 : list Shipment) (db : Store) :
  process_all env delta k (l1 ++ l2) db =
  match process_all env delta k l1 db with
  | (db1, th1, Some ex) => (db1, th1, Some ex)
  | (db1, th1, None) =>
      let '(db2, th2, r) := process_all env delta (k + length l1) l2 db1 in
      (db2, th1 ++ th2, r)
  end.
Proof.
  revert k db. induction l1 as [|s l1 IH]; intros k db; simpl.
  - rewrite Nat.add_0_r. by destruct (process_all env delta k l2 db) as [[??]?].
  - destruct (process_shipment (env k) delta s db) as [ex|[db' started]];
      [done|].
    rewrite IH. replace (k + S (length l1))%nat with (S k + length l1)%nat by lia.
    destruct (process_all env delta (S k) l1 db') as [[db1 th1] [ex|]]; [done|].
    destruct (process_all env delta (S k + length l1) l2 db1) as [[db2 th2] r].
    by rewrite app_assoc.
Qed.

Lemma process_all_Forall2 (R : Shipment → Shipment → Prop)
    `{!Reflexive R, !Transitive R}
    (env : nat → IterEnv) (delta : Q) (k : nat)
    (shipments : list Shipment) (db : Store) :
  (∀ s e db0, s ∈ shipments →
              Forall2 R db0 (store_after db0 (process_shipment e delta s db0))) →
  Forall2 R db (process_all env delta k shipments db).1.1.
Proof.
  revert k db. induction shipments as [|s rest IH]; intros k db Hstep; simpl.
  - done.
  - pose proof (Hstep s (env k) db ltac:(left)) as Hs.
    destruct (process_shipment (env k) delta s db) as [ex|[db' started]];
      simpl in *; [done|].
    specialize (IH (S k) db' ltac:(intros; apply Hstep; by right)).
    destruct (process_all env delta (S k) rest db') as [[db'' th] r].
    simpl in *. by etrans.
Qed.

(** What an iteration does to each document of the collection, in terms of
    the snapshot entry [s] it runs on. *)
Lemma process_shipment_hold_respected
    (e : IterEnv) (delta : Q) (s : Shipment) (db : Store) :
  Forall2 (λ x x', tracking x' = tracking x ∧
                   (tracking x ≠ tracking s → x' = x) ∧
                   (on_hold s = Some true → same_progress x x') ∧
                   (current_step_index x' ≠ current_step_index x →
                    default false (on_hold s) = false ∧
                    on_hold x' = on_hold x))
          db (store_after db (process_shipment e delta s db)).
Proof.
  destruct (process_shipment_iteration e delta s db)
    as [ex H | H | H1 H2 | H1 H2 H3 | ? ? H1 H2 H3 | ? H1 H2 H3]; simpl;
    try (by apply Forall_Forall2_diag, Forall_true);
    (apply update_one_Forall2; [by intros d; repeat split|]); intros d Hd;
    rewrite ?apply_close_update, ?apply_incident_update,
      ?apply_advance_update, ?apply_time_update; unfold same_progress; simpl;
    (split; [done|]); (split; [by intros []|]);
    (split; [intros Hh; try done; by rewrite Hh in *|]);
    try (by intros []); done.
Qed.

(** With distinct tracking numbers, in the collection and hence in the
    snapshot, a pass writes to each document at most once, through the
    iteration on its own snapshot entry, which is the document as the pass
    found it. *)
Lemma process_all_hold_respected
    (env : nat → IterEnv) (delta : Q) (k : nat)
    (shipments : list Shipment) (db : Store) :
  NoDup (tracking <$> db) → NoDup (tracking <$> shipments) →
  (∀ s, s ∈ shipments → s ∈ db) →
  Forall2 (λ x x', tracking x' = tracking x ∧
                   (tracking x ∉ tracking <$> shipments → x' = x) ∧
                   hold_respected x x')
          db (process_all env delta k shipments db).1.1.
Proof.
  revert k db.
  induction shipments as [|s rest IH]; intros k db Hnd Hnds Hsub; simpl.
  { apply Forall_Forall2_diag, Forall_true. intros x. by repeat split. }
  pose proof (process_shipment_hold_respected (env k) delta s db) as Hs.
  destruct (process_shipment (env k) delta s db) as [ex|[db1 started]];
    simpl in *.
  { apply Forall_Forall2_diag, Forall_true. intros x. by repeat split. }
  apply NoDup_cons in Hnds as [Hs_rest Hnd_rest].
  assert (Htr : tracking <$> db1 = tracking <$> db).
  { symmetry. apply list_eq_Forall2, Forall2_fmap.
    eapply Forall2_impl; [exact Hs|]. by intros x x' [-> _]. }
  assert (Hsub1 : ∀ s', s' ∈ rest → s' ∈ db1).
  { intros s' Hs'.
    destruct (proj1 (list_elem_of_lookup _ _) (Hsub s' ltac:(by right)))
      as [i Hi].
    destruct (Forall2_lookup_l _ _ _ _ _ Hs Hi) as (x' & Hi' & _ & Hfr & _).
    rewrite Hfr in Hi'.
    - apply list_elem_of_lookup. eauto.
    - intros Heq. apply Hs_rest. rewrite <- Heq.
      by apply list_elem_of_fmap_2. }
  specialize (IH (S k) db1 ltac:(by rewrite Htr) Hnd_rest Hsub1).
  destruct (process_all env delta (S k) rest db1) as [[db2 th] r].
  simpl in *.
  apply Forall2_same_length_lookup. split.
  { by rewrite (Forall2_length _ _ _ Hs), (Forall2_length _ _ _ IH). }
  intros i x x2 Hx Hx2.
  destruct (Forall2_lookup_l _ _ _ _ _ Hs Hx)
    as (x1 & Hx1 & Ht1 & Hfr1 & Hhold1 & Hadv1).
  destruct (Forall2_lookup_l _ _ _ _ _ IH Hx1)
    as (x2' & Hx2' & Ht2 & Hfr2 & Hr2).
  assert (x2' = x2) as -> by congruence.
  split; [congruence|].
  destruct (decide (tracking x = tracking s)) as [Heq|Hne].
  - assert (x = s) as ->.
    { apply (NoDup_fmap_eq tracking db); [done| |by apply Hsub; left|done].
      apply list_elem_of_lookup. eauto. }
    rewrite Hfr2 by (by rewrite Ht1). split; [|by split].
    intros Hnot. destruct Hnot. left.
  - rewrite (Hfr1 Hne) in *. split; [|done].
    intros Hnot. apply Hfr2. intros Hin. apply Hnot. by right.
Qed.

(** C4, as the spec has it, fails when an order drew the tracking number of
    a shipment that is on hold.  The order of carol is on hold at stage 3
    when dave's order is created under the same number; the next pass, which
    measures 8 time units, runs its iteration on dave's snapshot entry, and
    the write of that iteration lands on the first document of the number,
    carol's: her shipment is at stage 1, and still on hold. *)
Lemma on_hold_shipment_moved :
  let db := Sys.db (reached held_with_namesake) in
  let db' := (simulation_tick env_ok 8 db).1.1 in
  Sys.run held_with_namesake (Sys.initial [])
    = Some (reached held_with_namesake) ∧
  (λ d, (client d, on_hold d, current_step_index d)) <$> db
    = [("carol", Some true, 3); ("dave", Some false, 0)] ∧
  (λ d, (client d, on_hold d, current_step_index d)) <$> db'
    = [("carol", Some true, 1); ("dave", Some false, 0)] ∧
  (simulation_tick env_ok 8 db).2 = None.
Proof. vm_compute. by split_and!. Qed.

(** C4, amended (a shipment on hold does not progress): on a collection
    whose tracking numbers are distinct, a pass leaves the [time_in_step]
    and the [current_step_index] of every shipment that is on hold when the
    pass reads it as they are, whether the pass ends or raises; and a
    shipment whose [current_step_index] the pass changes was not on hold
    when the pass read it and has its [on_hold] left as it was, so that no
    shipment is on hold and advancing in the same pass.  Whatever the
    tracking numbers, the iteration on a snapshot entry that is on hold
    starts no resolver and leaves the [time_in_step] and the
    [current_step_index] of every document as they are; below the last
    stage it writes nothing at all. *)
Theorem on_hold_freezes_progress
    (env : nat → IterEnv) (delta : Q) (db : Store) :
  NoDup (tracking <$> db) →
  Forall2 (λ d d',
             tracking d' = tracking d ∧
             (on_hold d = Some true → same_progress d d') ∧
             (current_step_index d' ≠ current_step_index d →
              default false (on_hold d) = false ∧ on_hold d' = on_hold d))
          db (simulation_tick env delta db).1.1 ∧
  ∀ (e : IterEnv) (shipment : Shipment) (db0 : Store),
    on_hold shipment = Some true →
    let r := process_shipment e delta shipment db0 in
    Forall2 same_progress db0 (store_after db0 r) ∧
    started_by r = None ∧
    (current_step_index shipment < 6 → r = inr (db0, None)).
Proof.
  intros Hnd. split.
  - unfold simulation_tick.
    eapply Forall2_impl.
    + apply process_all_hold_respected; [done| |].
      * unfold find_active. by apply filter_trackings_NoDup.
      * intros s Hs. by apply list_elem_of_filter in Hs as [_ ?].
    + intros x x' (Ht & _ & Hh). by split.
  - intros e shipment db0 Hhold r. split_and!.
    + eapply Forall2_impl; [by apply on_hold_same_progress|].
      by intros x x' [_ ?].
    + unfold r.
      destruct (process_shipment_iteration e delta shipment db0)
        as [ex H | H | | ? H | ? ? ? H | ? ? H]; simpl; try done.
      by rewrite Hhold in H.
    + intros Hidx. by apply on_hold_iteration.
Qed.

Lemma on_hold_freezes_progress_witness :
  let db := Sys.db (reached to_found) in
  Forall2 (λ d d',
             tracking d' = tracking d ∧
             (on_hold d = Some true → same_progress d d') ∧
             (current_step_index d' ≠ current_step_index d →
              default false (on_hold d) = false ∧ on_hold d' = on_hold d))
          db (simulation_tick env_ok 8 db).1.1 ∧
  ∀ (e : IterEnv) (shipment : Shipment) (db0 : Store),
    on_hold shipment = Some true →
    let r := process_shipment e 8 shipment db0 in
    Forall2 same_progress db0 (store_after db0 r) ∧
    started_by r = None ∧
    (current_step_index shipment < 6 → r = inr (db0, None)).
Proof.
  apply (on_hold_freezes_progress env_ok 8 (Sys.db (reached to_found))).
  apply (bool_decide_unpack _). vm_compute. exact I.
Defined.

#[local] Instance flags_kept_refl : Reflexive flags_kept.
Proof. by intros d. Qed.

#[local] Instance flags_kept_trans : Transitive flags_kept.
Proof. intros d1 d2 d3 [??] [??]. split; auto. Qed.

Lemma process_shipment_flags
    (e : IterEnv) (delta : Q) (shipment : Shipment) (db : Store) :
  Forall2 flags_kept db (store_after db (process_shipment e delta shipment db)).
Proof.
  apply process_shipment_Forall2; try done.
  intros d i st _. unfold advance_update. rewrite last_index.
  by destruct (6 <=? i).
Qed.

(** C10 (the flags [finished] and [archived] never go back): a scheduler
    pass, a resolver run and the archive route leave every document that
    was finished finished and every document that was archived archived;
    the resolver leaves [archived] as it finds it, also on a shipment that
    was archived while it slept. *)
Theorem flags_monotone :
  (∀ env delta db, Forall2 flags_kept db (simulation_tick env delta db).1.1) ∧
  (∀ t days draw now db,
      Forall2 (λ d d', flags_kept d d' ∧ archived d' = archived d)
              db (handle_incident t days draw now db).1) ∧
  (∀ t db, Forall2 flags_kept db (archive_shipment t db).1).
Proof.
  split_and!.
  - intros env delta db. unfold simulation_tick.
    apply process_all_Forall2; try apply _.
    intros s e db0 _. apply process_shipment_flags.
  - intros t days draw now db. unfold handle_incident.
    destruct (find_one t db); simpl;
      [|by apply Forall_Forall2_diag, Forall_true].
    destruct (incident_outcome days draw); simpl;
      by apply update_one_Forall2.
  - intros t db. unfold archive_shipment.
    destruct (find_one t db); simpl;
      [|by apply Forall_Forall2_diag, Forall_true].
    by apply update_one_Forall2.
Qed.

(** C8, as the spec has it, fails: in a pass over the two shipments in
    which the store refuses the first write, the exception leaves the loop;
    the second shipment was read for the pass and its own iteration would
    have gone through and written its [time_in_step], yet the collection is
    left as it was. *)
Lemma tick_failure_not_isolated :
  simulation_tick env_first_write_fails 1 two_shipments
    = (two_shipments, [], Some Py.StoreError) ∧
  shipment_b ∈ find_active two_shipments ∧
  (∃ db', process_shipment (env_first_write_fails 1) 1 shipment_b two_shipments
            = inr (db', None) ∧
          time_in_step <$> db' = [0; 1]%Q ∧
          time_in_step <$> two_shipments = [0; 0]%Q).
Proof.
  split_and!.
  - vm_compute. reflexivity.
  - vm_compute. right. left.
  - eexists. split_and!; [vm_compute; reflexivity|reflexivity..].
Qed.

(** C8, amended (a failure ends the pass and the loop): when an iteration
    raises, the pass ends there.  The collection is as the iterations before
    it left it, the failing shipment and every shipment after it in the
    snapshot are not processed, and the exception ends the [while] loop
    whatever passes would have followed. *)
Theorem simulation_tick_stops_at_failure
    (env : nat → IterEnv) (delta : Q) (db : Store)
    (pre : list Shipment) (s : Shipment) (post : list Shipment)
    (db1 : Store) (th1 : list (string * Z)) (ex : Py.exn) :
  find_active db = pre ++ s :: post →
  process_all env delta 0 pre db = (db1, th1, None) →
  process_shipment (env (length pre)) delta s db1 = inl ex →
  simulation_tick env delta db = (db1, th1, Some ex) ∧
  ∀ ticks, simulation_loop ((delta, env) :: ticks) db = (db1, th1, Some ex).
Proof.
  intros Hsnap Hpre Hfail.
  assert (Htick : simulation_tick env delta db = (db1, th1, Some ex)).
  { unfold simulation_tick. rewrite Hsnap, process_all_app, Hpre. simpl.
    rewrite Hfail. by rewrite app_nil_r. }
  split; [done|]. intros ticks. simpl. by rewrite Htick.
Qed.

Lemma simulation_tick_stops_at_failure_witness :
  simulation_tick env_first_write_fails 1 two_shipments
    = (two_shipments, [], Some Py.StoreError) ∧
  ∀ ticks,
    simulation_loop ((1%Q, env_first_write_fails) :: ticks) two_shipments
    = (two_shipments, [], Some Py.StoreError).
Proof.
  apply (simulation_tick_stops_at_failure env_first_write_fails 1 two_shipments
           [] shipment_a [shipment_b]); vm_compute; reflexivity.
Defined.

(** ** A shipment without incident *)

Lemma getitem_inr_inv {A} (l : list A) (i : Z) (x : A) :
  Py.getitem l i = inr x → 0 ≤ i → l !! Z.to_nat i = Some x.
Proof.
  unfold Py.getitem. intros H Hi.
  destruct (Z.ltb_spec i 0); [lia|].
  destruct (_ || _); [done|].
  destruct (l !! Z.to_nat i); by simplify_eq.
Qed.

Lemma stage_budget_step (durations : list Z) (i : nat) (x : Z) :
  durations !! i = Some x → (i < 6)%nat →
  stage_budget durations i = x + stage_budget durations (S i).
Proof.
  intros Hi Hlt. unfold stage_budget.
  rewrite (drop_S _ _ _ Hi). replace (6 - i)%nat with (S (6 - S i)) by lia.
  simpl. by rewrite py_sum_cons.
Qed.

Lemma py_sum_nonneg (l : list Z) : Forall (λ d, 1 ≤ d) l → 0 ≤ Py.sum l.
Proof.
  induction 1 as [|x l Hx _ IH]; [done|]. rewrite py_sum_cons. lia.
Qed.

Lemma stage_budget_nonneg (durations : list Z) (i : nat) :
  Forall (λ d, 1 ≤ d) durations → 0 ≤ stage_budget durations i.
Proof.
  intros H. apply py_sum_nonneg. by apply Forall_take, Forall_drop.
Qed.

Lemma stage_budget_le_sum (durations : list Z) :
  length durations = 7%nat → Forall (λ d, 1 ≤ d) durations →
  stage_budget durations 0 < Py.sum durations.
Proof.
  intros Hlen Hall.
  destruct durations as [|a [|b [|c [|d [|e [|f [|g [|h l]]]]]]]];
    simplify_eq/=.
  unfold stage_budget. simpl. rewrite !py_sum_cons, py_sum_nil.
  repeat match goal with H : Forall _ (_ :: _) |- _ =>
    apply Forall_cons in H; destruct H end.
  lia.
Qed.

Lemma Qfloor_lt_inject (q : Q) (n : Z) : (q < inject_Z n)%Q → Qfloor q < n.
Proof.
  intros H. rewrite Zlt_Qlt. eapply Qle_lt_trans; [apply Qfloor_le|done].
Qed.

Lemma Qfloor_plus_ge (q delta : Q) :
  (1 <= delta)%Q → Qfloor q + 1 ≤ Qfloor (q + delta).
Proof.
  intros H. rewrite <- (Qfloor_Z (Qfloor q + 1)). apply Qfloor_resp_le.
  rewrite inject_Z_plus. pose proof (Qfloor_le q). simpl.
  change (inject_Z 1) with 1%Q. lra.
Qed.

Lemma on_track_iteration
    (t : string) (durations : list Z) (e : IterEnv) (delta : Q)
    (d : Shipment) (db db' : Store) (started : option (string * Z)) :
  length durations = 7%nat → Forall (λ x, 1 ≤ x) durations →
  (1 <= delta)%Q →
  on_track t durations d → finished d = false →
  find_one t db = Some d →
  process_shipment e delta d db = inr (db', started) →
  ∃ d', find_one t db' = Some d' ∧ on_track t durations d' ∧
        remaining d' ≤ remaining d - 1 ∧ started = None.
Proof.
  intros Hlen Hall Hdelta [Ht Hdur Harch Hdec Hhold Hidx Hfin Hhist Htime]
    Hnotfin Hfind Hproc.
  rewrite Hnotfin in Hfin. symmetry in Hfin. apply bool_decide_eq_false in Hfin.
  assert (Hlt : current_step_index d < 6) by lia.
  destruct (Htime Hlt) as (dur & Hlook & Hge & Hltd).
  pose proof (process_shipment_iteration e delta d db) as Hit.
  rewrite Hproc in Hit.
  inversion Hit as [ | | | | dur_step new_status _ _ Hdue Hgd Hle Hst
                     | dur_step _ _ Hdue Hgd Hlt' ]; subst; clear Hit.
  - lia.
  - rewrite Hhold in *. done.
  - unfold incident_due in *. rewrite Hdec in *.
    rewrite andb_false_r in *. done.
  - (* the stage is over *)
    apply getitem_inr_inv in Hgd; [|lia].
    apply getitem_inr_inv in Hst; [|lia].
    simplify_eq.
    eexists. split; [by apply update_one_find|].
    replace (Z.to_nat (current_step_index d + 1))
      with (S (Z.to_nat (current_step_index d))) in Hst by lia.
    split_and!; [split; fields; try done| |done].
    + lia.
    + destruct (Z.leb_spec 6 (current_step_index d + 1)).
      * symmetry. apply bool_decide_eq_true. lia.
      * rewrite Hnotfin. symmetry. apply bool_decide_eq_false. lia.
    + rewrite fmap_app, Hhist.
      replace (Z.to_nat (current_step_index d + 1))
        with (S (Z.to_nat (current_step_index d))) by lia.
      by rewrite (take_S_r _ _ _ Hst).
    + intros Hlt6.
      replace (Z.to_nat (current_step_index d + 1))
        with (S (Z.to_nat (current_step_index d))) by lia.
      destruct (lookup_lt_is_Some_2 (step_durations d)
                  (S (Z.to_nat (current_step_index d)))) as [dur' Hdur'];
        [lia|].
      exists dur'. split_and!; [done|done|].
      rewrite Forall_lookup in Hall. specialize (Hall _ _ Hdur').
      change 0%Q with (inject_Z 0). rewrite <- Zlt_Qlt. lia.
    + unfold remaining. fields. rewrite Hnotfin.
      rewrite (stage_budget_step _ _ _ Hlook) by lia.
      replace (Z.to_nat (current_step_index d + 1))
        with (S (Z.to_nat (current_step_index d))) by lia.
      pose proof (Qfloor_lt_inject _ _ Hltd).
      pose proof (stage_budget_nonneg (step_durations d)
                    (S (Z.to_nat (current_step_index d))) Hall).
      change (Qfloor 0) with 0.
      destruct (6 <=? current_step_index d + 1); lia.
  - (* the stage goes on *)
    apply getitem_inr_inv in Hgd; [|lia]. simplify_eq.
    eexists. split; [by apply update_one_find|].
    split_and!; [split; fields; try done| |done].
    + rewrite Hnotfin. symmetry. by apply bool_decide_eq_false.
    + intros _. exists dur. split_and!; [done| |done]. lra.
    + unfold remaining. fields. rewrite Hnotfin.
      pose proof (Qfloor_plus_ge (time_in_step d) delta Hdelta). lia.
Qed.

Lemma process_shipment_find_other
    (t : string) (e : IterEnv) (delta : Q) (s : Shipment) (db : Store) :
  tracking s ≠ t →
  find_one t (store_after db (process_shipment e delta s db)) = find_one t db.
Proof.
  intros Hne.
  destruct (process_shipment_iteration e delta s db); simpl;
    try done; by apply update_one_find_ne.
Qed.

Lemma process_all_find_other
    (t : string) (env : nat → IterEnv) (delta : Q)
    (shipments : list Shipment) (k : nat) (db : Store) :
  filter (λ s, tracking s = t) shipments = [] →
  find_one t (process_all env delta k shipments db).1.1 = find_one t db.
Proof.
  revert k db. induction shipments as [|s rest IH]; intros k db; simpl; [done|].
  rewrite filter_cons. case_decide as Ht; [done|]. intros Hrest.
  pose proof (process_shipment_find_other t (env k) delta s db Ht) as Hoth.
  destruct (process_shipment (env k) delta s db) as [ex|[db1 started]];
    [done|].
  specialize (IH (S k) db1 Hrest).
  destruct (process_all env delta (S k) rest db1) as [[db2 th2] r].
  simpl in *. congruence.
Qed.

(** What a pass does to the document of tracking number [t] when the
    snapshot holds it exactly once. *)
Lemma process_all_target
    (t : string) (d : Shipment) (env : nat → IterEnv) (delta : Q)
    (shipments : list Shipment) (k : nat) (db db' : Store)
    (th : list (string * Z)) :
  process_all env delta k shipments db = (db', th, None) →
  find_one t db = Some d →
  filter (λ s, tracking s = t) shipments = [d] →
  ∃ e db1 db1' started,
    find_one t db1 = Some d ∧
    process_shipment e delta d db1 = inr (db1', started) ∧
    find_one t db' = find_one t db1'.
Proof.
  revert k db th. induction shipments as [|s rest IH]; intros k db th; simpl.
  - done.
  - destruct (process_shipment (env k) delta s db) as [ex|[db1 started]] eqn:Hs;
      [done|].
    pose proof (process_all_find_other t env delta rest (S k) db1) as Hother.
    destruct (process_all env delta (S k) rest db1) as [[db2 th2] r] eqn:Hrest.
    intros ? Hfind. simplify_eq.
    rewrite filter_cons. case_decide as Ht.
    + intros Hd. simplify_eq.
      exists (env k), db, db1, started. split_and!; [done..|].
      by apply Hother.
    + pose proof (process_shipment_find_other t (env k) delta s db Ht) as Hoth.
      rewrite Hs in Hoth. simpl in Hoth. rewrite <- Hoth in Hfind.
      apply (IH _ _ _ Hrest Hfind).
Qed.

Lemma filter_tracking_single (t : string) (db : Store) (d : Shipment) :
  filter (λ x, x = t) (tracking <$> db) = [t] →
  find_one t db = Some d →
  filter (λ s, tracking s = t) db = [d].
Proof.
  induction db as [|d0 db IH]; csimpl; [done|].
  rewrite (filter_cons (λ x, x = t)), (filter_cons (λ s, tracking s = t)).
  destruct (decide (tracking d0 = t)) as [Hd|Hd]; [|done].
  intros Hone [= ->]. simplify_eq. f_equal.
  destruct (filter (λ s, tracking s = tracking d) db) as [|x l] eqn:Hf; [done|].
  assert (Hx : x ∈ filter (λ s, tracking s = tracking d) db)
    by (rewrite Hf; left).
  apply list_elem_of_filter in Hx as [Hx1 Hx2].
  assert (Hin : tracking d ∈ filter (λ x, x = tracking d) (tracking <$> db)).
  { apply list_elem_of_filter. split; [done|].
    rewrite <- Hx1. by apply list_elem_of_fmap_2. }
  rewrite Hone in Hin. by apply elem_of_nil in Hin.
Qed.

Lemma process_shipment_trackings
    (e : IterEnv) (delta : Q) (s : Shipment) (db : Store) :
  tracking <$> store_after db (process_shipment e delta s db) = tracking <$> db.
Proof.
  destruct (process_shipment_iteration e delta s db); simpl;
    try done; apply update_one_trackings.
Qed.

Lemma process_all_trackings
    (env : nat → IterEnv) (delta : Q) (k : nat)
    (shipments : list Shipment) (db : Store) :
  tracking <$> (process_all env delta k shipments db).1.1 = tracking <$> db.
Proof.
  revert k db. induction shipments as [|s rest IH]; intros k db; simpl; [done|].
  pose proof (process_shipment_trackings (env k) delta s db) as Hs.
  destruct (process_shipment (env k) delta s db) as [ex|[db1 started]];
    [done|]. simpl in Hs.
  specialize (IH (S k) db1).
  destruct (process_all env delta (S k) rest db1) as [[db2 th2] r].
  simpl in *. congruence.
Qed.

Lemma simulation_tick_trackings
    (env : nat → IterEnv) (delta : Q) (db : Store) :
  tracking <$> (simulation_tick env delta db).1.1 = tracking <$> db.
Proof. apply process_all_trackings. Qed.

Lemma on_track_remaining (t : string) (durations : list Z) (d : Shipment) :
  Forall (λ x, 1 ≤ x) durations →
  on_track t durations d → finished d = false → 1 ≤ remaining d.
Proof.
  intros Hall [Ht Hdur Harch Hdec Hhold Hidx Hfin Hhist Htime] Hnotfin.
  rewrite Hnotfin in Hfin. symmetry in Hfin. apply bool_decide_eq_false in Hfin.
  destruct Htime as (dur & Hlook & Hge & Hlt); [lia|].
  unfold remaining. rewrite Hnotfin, Hdur.
  rewrite (stage_budget_step _ _ _ Hlook) by lia.
  pose proof (Qfloor_lt_inject _ _ Hlt).
  pose proof (stage_budget_nonneg durations
                (S (Z.to_nat (current_step_index d))) Hall).
  lia.
Qed.

(** One pass over a collection holding the shipment once. *)
Lemma simulation_tick_on_track
    (t : string) (durations : list Z) (env : nat → IterEnv) (delta : Q)
    (db db' : Store) (th : list (string * Z)) (d : Shipment) :
  length durations = 7%nat → Forall (λ x, 1 ≤ x) durations →
  (1 <= delta)%Q →
  filter (λ x, x = t) (tracking <$> db) = [t] →
  find_one t db = Some d → on_track t durations d →
  simulation_tick env delta db = (db', th, None) →
  ∃ d', find_one t db' = Some d' ∧ on_track t durations d' ∧
        remaining d' ≤ Z.max 0 (remaining d - 1).
Proof.
  intros Hlen Hall Hdelta Hone Hfind Htrack Htick.
  unfold simulation_tick in Htick.
  pose proof (process_all_target t d _ _ _ _ _ _ _ Htick Hfind) as Hin.
  pose proof (process_all_find_other t env delta (find_active db) 0 db) as Hout.
  rewrite Htick in Hout. simpl in Hout.
  pose proof (filter_tracking_single t db d Hone Hfind) as Hsingle.
  assert (Hsnap : filter (λ s, tracking s = t) (find_active db)
                  = filter (λ s, finished s = false ∧ archived s = false) [d]).
  { unfold find_active. rewrite <- Hsingle.
    rewrite (list_filter_filter (λ s, tracking s = t)
               (λ s, finished s = false ∧ archived s = false)).
    rewrite (list_filter_filter
               (λ s, finished s = false ∧ archived s = false)
               (λ s, tracking s = t)).
    apply list_filter_iff. tauto. }
  rewrite filter_cons, filter_nil in Hsnap.
  destruct (finished d) eqn:Hfin.
  - rewrite decide_False in Hsnap by (intros [??]; done).
    exists d. split_and!; [by rewrite Hout|done|].
    unfold remaining. rewrite Hfin. lia.
  - rewrite decide_True in Hsnap by (split; [done|apply Htrack]).
    destruct (Hin Hsnap) as (e & db1 & db1' & started & Hf1 & Hproc & Hfinal).
    destruct (on_track_iteration t durations e delta d db1 db1' started)
      as (d' & Hd' & Htrack' & Hrem & _); try done.
    exists d'. split_and!; [congruence|done|lia].
Qed.

(** A run of passes. *)
Lemma simulation_loop_on_track
    (t : string) (durations : list Z) (ticks : list (Q * (nat → IterEnv)))
    (db db' : Store) (th : list (string * Z)) (d : Shipment) :
  length durations = 7%nat → Forall (λ x, 1 ≤ x) durations →
  Forall (λ tk, (1 <= tk.1)%Q) ticks →
  filter (λ x, x = t) (tracking <$> db) = [t] →
  find_one t db = Some d → on_track t durations d →
  simulation_loop ticks db = (db', th, None) →
  ∃ d', find_one t db' = Some d' ∧ on_track t durations d' ∧
        remaining d' ≤ Z.max 0 (remaining d - Z.of_nat (length ticks)).
Proof.
  intros Hlen Hall Hticks. revert db th d.
  induction Hticks as [|[delta env] ticks Hdelta _ IH];
    intros db th d Hone Hfind Htrack; simpl.
  - intros [= <- <-]. exists d. split_and!; [done..|]. lia.
  - pose proof (simulation_tick_trackings env delta db) as Htr.
    destruct (simulation_tick env delta db) as [[db1 th1] [ex|]] eqn:Htick;
      [done|].
    destruct (simulation_loop ticks db1) as [[db2 th2] r] eqn:Hloop.
    intros [= <- <- ->]. simpl in Htr.
    destruct (simulation_tick_on_track t durations env delta db db1 th1 d)
      as (d1 & Hfind1 & Htrack1 & Hrem1); try done.
    destruct (IH db1 th2 d1) as (d2 & Hfind2 & Htrack2 & Hrem2); try done.
    { by rewrite Htr. }
    exists d2. split_and!; [done..|]. lia.
Qed.

Lemma new_shipment_on_track
    (username : string) (quantity : Z) (destination : string)
    (r : CreateDraws) :
  15 < cd_incident r →
  let d0 := new_shipment username quantity destination r in
  on_track (tracking d0) (step_durations d0) d0 ∧
  remaining d0 < Py.sum (step_durations d0).
Proof.
  intros Hinc d0.
  destruct (generate_step_durations_shape (cd_total_time r)
              (cd_transit_prop r) (cd_rnd r)) as [Hlen Hall].
  change (length (step_durations d0) = 7%nat) in Hlen.
  change (Forall (λ d, 1 ≤ d) (step_durations d0)) in Hall.
  split.
  - split; try done.
    + simpl. apply Z.leb_gt. lia.
    + intros _.
      destruct (lookup_lt_is_Some_2 (step_durations d0) 0) as [dur Hdur];
        [lia|].
      exists dur. split_and!; [done|done|].
      rewrite Forall_lookup in Hall. specialize (Hall _ _ Hdur).
      change (time_in_step d0) with (inject_Z 0). rewrite <- Zlt_Qlt. lia.
  - unfold remaining.
    change (finished d0) with false. change (time_in_step d0) with 0%Q.
    change (Qfloor 0) with 0.
    change (Z.to_nat (current_step_index d0)) with 0%nat.
    pose proof (stage_budget_le_sum _ Hlen Hall). cbv iota. lia.
Qed.

Lemma no_incident_label (n : nat) : "Incident signalé" ∉ take n statuses.
Proof.
  intros Hin. apply (subseteq_take n statuses) in Hin.
  revert Hin. by apply not_elem_of_cons; split;
    [|repeat (apply not_elem_of_cons; split; [done|]); apply not_elem_of_nil].
Qed.

(** C9, as the spec has it, fails: the order of alice is created without
    incident and its durations add up to 56; after 45 passes that each
    measure 1.25 time units the accumulated time is 56.25, yet the shipment
    is at stage 5 and not finished.  The time a pass measures beyond the
    end of a stage is dropped when the stage changes. *)
Lemma accumulated_time_not_enough :
  let ticks := steady_ticks 45 (5 # 4) in
  incident_decision shipment_a = false ∧
  Py.sum (step_durations shipment_a) = 56 ∧
  (inject_Z 56 <= Py.fsum ticks.*1)%Q ∧
  ∃ d, simulation_loop ticks
         (generate_tracking_for "alice" 1 "Paris" draws_a []).1
       = ([d], [], None) ∧
       finished d = false ∧ current_step_index d = 5.
Proof.
  split_and!.
  - reflexivity.
  - vm_compute. reflexivity.
  - apply Qle_bool_iff. vm_compute. reflexivity.
  - eexists. split_and!; [vm_compute; reflexivity|reflexivity..].
Qed.

Lemma filter_absent (t : string) (l : list string) :
  t ∉ l → filter (λ x, x = t) l = [].
Proof.
  induction l as [|x l IH]; [done|].
  intros [Hne Hl]%not_elem_of_cons.
  rewrite filter_cons, decide_False by done. auto.
Qed.

Lemma find_one_insert (d : Shipment) (db : Store) :
  find_one (tracking d) db = None →
  find_one (tracking d) (insert_one d db) = Some d.
Proof.
  unfold insert_one. induction db as [|x db IH]; simpl.
  - by rewrite decide_True.
  - destruct (decide (tracking x = tracking d)); [done|]. auto.
Qed.

(** C9, amended (a shipment without incident completes): a shipment created
    with [incident_decision = false] under a tracking number that no
    document of the collection carries, and followed from its creation
    through scheduler passes that run one after the other with nothing else
    writing to the collection in between (no archive request, no later
    order, no resolver), each pass measuring at least one time unit and
    none raising, has after these passes a history that lists the stage
    labels up to its stage, hence no incident entry; and once the number of
    passes reaches the sum of its durations it is finished at stage 6 with
    the seven stage labels as its history. *)
Theorem shipment_without_incident_completes
    (username : string) (quantity : Z) (destination : string)
    (r : CreateDraws) (db : Store) (ticks : list (Q * (nat → IterEnv)))
    (db' : Store) (th : list (string * Z)) :
  let d0 := new_shipment username quantity destination r in
  15 < cd_incident r →
  tracking d0 ∉ tracking <$> db →
  Forall (λ tk, (1 <= tk.1)%Q) ticks →
  simulation_loop ticks
    (generate_tracking_for username quantity destination r db).1
  = (db', th, None) →
  ∃ d, find_one (tracking d0) db' = Some d ∧
       (history d).*1 = take (S (Z.to_nat (current_step_index d))) statuses ∧
       ("Incident signalé" ∉ (history d).*1) ∧
       (Py.sum (step_durations d0) ≤ Z.of_nat (length ticks) →
        finished d = true ∧ current_step_index d = 6 ∧
        length (history d) = 7%nat ∧ (history d).*1 = statuses).
Proof.
  intros d0 Hinc Hfresh Hticks Hloop.
  destruct (new_shipment_on_track username quantity destination r Hinc)
    as [Htrack Hrem]. fold d0 in Htrack, Hrem.
  destruct (generate_step_durations_shape (cd_total_time r)
              (cd_transit_prop r) (cd_rnd r)) as [Hlen Hall].
  change (length (step_durations d0) = 7%nat) in Hlen.
  change (Forall (λ d, 1 ≤ d) (step_durations d0)) in Hall.
  unfold generate_tracking_for in Hloop. fold d0 in Hloop.
  simpl in Hloop.
  apply find_one_None in Hfresh as Hnone.
  destruct (simulation_loop_on_track (tracking d0) (step_durations d0) ticks
              (insert_one d0 db) db' th d0)
    as (d & Hfind & Hd & Hremd); try done.
  { unfold insert_one.
    rewrite fmap_app, filter_app, (filter_absent _ _ Hfresh).
    change (tracking <$> [d0]) with [tracking d0].
    by rewrite filter_cons, decide_True. }
  { by apply find_one_insert. }
  exists d. split_and!; [done|apply Hd| |].
  - rewrite (ot_history _ _ _ Hd). apply no_incident_label.
  - intros Hn.
    assert (Hfin : finished d = true).
    { destruct (finished d) eqn:Hf; [done|].
      pose proof (on_track_remaining _ _ _ Hall Hd Hf). lia. }
    assert (Hidx : current_step_index d = 6).
    { rewrite (ot_finished _ _ _ Hd) in Hfin.
      by apply bool_decide_eq_true in Hfin. }
    pose proof (ot_history _ _ _ Hd) as Hhist. rewrite Hidx in Hhist.
    split_and!; [done|done| |done].
    by rewrite <- (length_fmap fst), Hhist.
Qed.

Lemma shipment_without_incident_completes_witness :
  ∃ d, find_one (tracking shipment_a)
         (simulation_loop (steady_ticks 56 1) [shipment_a]).1.1 = Some d ∧
       (history d).*1 = take (S (Z.to_nat (current_step_index d))) statuses ∧
       ("Incident signalé" ∉ (history d).*1) ∧
       (Py.sum (step_durations shipment_a)
          ≤ Z.of_nat (length (steady_ticks 56 1)) →
        finished d = true ∧ current_step_index d = 6 ∧
        length (history d) = 7%nat ∧ (history d).*1 = statuses).
Proof.
  apply (shipment_without_incident_completes "alice" 1 "Paris" draws_a []
           (steady_ticks 56 1)
           (simulation_loop (steady_ticks 56 1) [shipment_a]).1.1
           (simulation_loop (steady_ticks 56 1) [shipment_a]).1.2).
  - reflexivity.
  - apply not_elem_of_nil.
  - apply Forall_replicate. simpl. apply Qle_bool_iff. reflexivity.
  - vm_compute. reflexivity.
Defined.

(** ** The server as interleaved threads *)

Lemma elem_of_insert_inv {A} (l : list A) (i : nat) (x y : A) :
  y ∈ <[i := x]> l → y = x ∨ ∃ j, j ≠ i ∧ l !! j = Some y.
Proof.
  intros [j Hj]%list_elem_of_lookup.
  destruct (decide (i = j)) as [->|Hne].
  - left. destruct (decide (j < length l)%nat).
    + rewrite list_lookup_insert_eq in Hj by done. congruence.
    + rewrite list_insert_ge in Hj by lia.
      apply lookup_lt_Some in Hj. lia.
  - right. rewrite list_lookup_insert_ne in Hj by done. eauto.
Qed.

Lemma fmap_insert_same {A B} (f : A → B) (l : list A) (i : nat) (x y : A) :
  l !! i = Some x → f y = f x → f <$> <[i := y]> l = f <$> l.
Proof.
  intros Hi Hf. rewrite list_fmap_insert, Hf.
  apply list_insert_id. by rewrite list_lookup_fmap, Hi.
Qed.

Lemma spawn_log_snoc_other (tr : list Sys.Event) (ev : Sys.Event) :
  (∀ t days, ev ≠ Sys.EvSpawn t days) →
  Sys.spawn_log (tr ++ [ev]) = Sys.spawn_log tr.
Proof.
  intros Hev. unfold Sys.spawn_log. rewrite omap_app. simpl.
  destruct ev; try by rewrite app_nil_r. by destruct (Hev t days).
Qed.

(** No step removes a document or changes a tracking number. *)
Lemma step_trackings (a : Sys.Action) (σ σ' : Sys.State) :
  Sys.step a σ = Some σ' →
  ∃ new, tracking <$> Sys.db σ' = (tracking <$> Sys.db σ) ++ new.
Proof.
  destruct a as [delta|e|i draw|i|i now|t|username quantity destination r];
    simpl; intros Hstep.
  - destruct (Sys.sched σ) as [? [|]|]; simplify_eq. exists []. simpl.
    by rewrite app_nil_r.
  - destruct (Sys.sched σ) as [delta [|s rest]|]; simplify_eq.
    pose proof (process_shipment_trackings e delta s (Sys.db σ)) as Htr.
    destruct (process_shipment e delta s (Sys.db σ)) as [ex|[db' started]];
      simplify_eq; exists []; simpl in *; by rewrite app_nil_r.
  - destruct (Sys.resolvers σ !! i) as [[t days []]|]; simplify_eq.
    destruct (Sys.lock σ); simplify_eq. exists []. by rewrite app_nil_r.
  - destruct (Sys.resolvers σ !! i) as [[t days []]|]; simplify_eq.
    destruct (find_one t (Sys.db σ)); simplify_eq; exists [];
      by rewrite app_nil_r.
  - destruct (Sys.resolvers σ !! i) as [[t days []]|]; simplify_eq.
    exists []. simpl. by rewrite update_one_trackings, app_nil_r.
  - simplify_eq. exists []. simpl. unfold archive_shipment.
    destruct (find_one t (Sys.db σ)); simpl;
      by rewrite ?update_one_trackings, app_nil_r.
  - simplify_eq. eexists. simpl. unfold insert_one. by rewrite fmap_app.
Qed.

Lemma step_NoDup (a : Sys.Action) (σ σ' : Sys.State) :
  Sys.step a σ = Some σ' →
  NoDup (tracking <$> Sys.db σ') → NoDup (tracking <$> Sys.db σ).
Proof.
  intros [new Hnew]%step_trackings. rewrite Hnew.
  by intros [? _]%NoDup_app.
Qed.

(** Every step of the server keeps the documents in place and the flags
    [finished] and [archived] that are set. *)
Lemma step_flags (a : Sys.Action) (σ σ' : Sys.State) :
  Sys.step a σ = Some σ' →
  ∃ new, Forall2 flags_kept (Sys.db σ ++ new) (Sys.db σ').
Proof.
  destruct a as [delta|e|i draw|i|i now|t|username quantity destination r];
    simpl; intros Hstep.
  - destruct (Sys.sched σ) as [? [|]|]; simplify_eq. exists [].
    rewrite app_nil_r. by apply Forall_Forall2_diag, Forall_true.
  - destruct (Sys.sched σ) as [delta [|s work]|]; simplify_eq.
    pose proof (process_shipment_flags e delta s (Sys.db σ)) as Hfl.
    destruct (process_shipment e delta s (Sys.db σ)) as [ex|[db' started]];
      simplify_eq; exists []; by rewrite app_nil_r.
  - destruct (Sys.resolvers σ !! i) as [[t days []]|]; simplify_eq.
    destruct (Sys.lock σ); simplify_eq. exists [].
    rewrite app_nil_r. by apply Forall_Forall2_diag, Forall_true.
  - destruct (Sys.resolvers σ !! i) as [[t days []]|]; simplify_eq.
    destruct (find_one t (Sys.db σ)); simplify_eq; exists [];
      rewrite app_nil_r; by apply Forall_Forall2_diag, Forall_true.
  - destruct (Sys.resolvers σ !! i) as [[t days []]|]; simplify_eq.
    exists []. rewrite app_nil_r. simpl.
    destruct outcome; by apply update_one_Forall2.
  - simplify_eq. exists []. rewrite app_nil_r. simpl.
    unfold archive_shipment. destruct (find_one t (Sys.db σ)); simpl.
    + by apply update_one_Forall2.
    + by apply Forall_Forall2_diag, Forall_true.
  - simplify_eq. eexists. simpl. unfold insert_one.
    by apply Forall_Forall2_diag, Forall_true.
Qed.

(** *** What the lock does give *)

Lemma step_lock_inv (a : Sys.Action) (σ σ' : Sys.State) :
  Sys.step a σ = Some σ' → Sys.lock_inv σ → Sys.lock_inv σ'.
Proof.
  intros Hstep [Hin Hlock].
  destruct a as [delta|e|i draw|i|i now|t|username quantity destination r];
    simpl in Hstep.
  - destruct (Sys.sched σ) as [? [|]|]; simplify_eq. by split.
  - destruct (Sys.sched σ) as [delta [|s work]|]; simplify_eq.
    destruct (process_shipment e delta s (Sys.db σ)) as [ex|[db' started]];
      simplify_eq; [by split|].
    split; simpl.
    + intros i r [Hi|[Hlen Hi]]%lookup_app_Some; [by apply (Hin i r)|].
      destruct started as [th|]; [|done]. simpl in Hi.
      by apply list_lookup_singleton_Some in Hi as [_ <-].
    + intros i (r & Hi & Hr)%Hlock. exists r.
      split; [|done]. by apply lookup_app_l_Some.
  - destruct (Sys.resolvers σ !! i) as [[t days []]|] eqn:Hi; simplify_eq.
    destruct (Sys.lock σ) eqn:Hl; simplify_eq.
    pose proof (lookup_lt_Some _ _ _ Hi) as Hlen.
    split; simpl.
    + intros j r Hj Hr. destruct (decide (i = j)) as [->|Hne]; [done|].
      rewrite list_lookup_insert_ne in Hj by done.
      by specialize (Hin j r Hj Hr).
    + intros j [= <-]. eexists.
      split; [by apply list_lookup_insert_eq|done].
  - destruct (Sys.resolvers σ !! i) as [[t days []]|] eqn:Hi; simplify_eq.
    pose proof (lookup_lt_Some _ _ _ Hi) as Hlen.
    pose proof (Hin i _ Hi eq_refl) as Hl.
    destruct (find_one t (Sys.db σ)); simplify_eq; split; simpl.
    + intros j r Hj Hr. destruct (decide (i = j)) as [->|Hne]; [done|].
      rewrite list_lookup_insert_ne in Hj by done. by apply (Hin j r).
    + rewrite Hl. intros j [= <-]. eexists.
      split; [by apply list_lookup_insert_eq|done].
    + intros j r Hj Hr. destruct (decide (i = j)) as [->|Hne].
      * rewrite list_lookup_insert_eq in Hj by done. by simplify_eq.
      * rewrite list_lookup_insert_ne in Hj by done.
        specialize (Hin j r Hj Hr). congruence.
    + done.
  - destruct (Sys.resolvers σ !! i) as [[t days []]|] eqn:Hi; simplify_eq.
    pose proof (lookup_lt_Some _ _ _ Hi) as Hlen.
    pose proof (Hin i _ Hi eq_refl) as Hl.
    split; simpl; [|done].
    intros j r Hj Hr. destruct (decide (i = j)) as [->|Hne].
    + rewrite list_lookup_insert_eq in Hj by done. by simplify_eq.
    + rewrite list_lookup_insert_ne in Hj by done.
      specialize (Hin j r Hj Hr). congruence.
  - simplify_eq. by split.
  - simplify_eq. by split.
Qed.

(** In every reachable state at most one resolver is inside its
    [with lock] block: resolvers exclude one another, and nobody else. *)
Lemma resolvers_exclude_each_other
    (db0 : Store) (acts : list Sys.Action) (σ : Sys.State)
    (i j : nat) (r r' : Sys.Resolver) :
  Sys.run acts (Sys.initial db0) = Some σ →
  Sys.resolvers σ !! i = Some r → Sys.resolvers σ !! j = Some r' →
  Sys.inside r = true → Sys.inside r' = true → i = j.
Proof.
  intros Hrun.
  assert (Hinv : Sys.lock_inv σ).
  { assert (H0 : Sys.lock_inv (Sys.initial db0)) by (by split).
    revert Hrun H0. generalize (Sys.initial db0). revert σ.
    induction acts as [|a acts IH]; intros σ σ0; simpl.
    - by intros [= ->].
    - destruct (Sys.step a σ0) as [σ1|] eqn:Hstep; [|done]. simpl.
      intros Hrun H0. apply (IH σ σ1 Hrun). by eapply step_lock_inv. }
  destruct Hinv as [Hin _]. intros Hi Hj Hr Hr'.
  pose proof (Hin i r Hi Hr). pose proof (Hin j r' Hj Hr'). congruence.
Qed.

(** C2 (exclusive read-modify-write per record): the resolver does its
    [find_one] and [update_one] under the lock, the scheduler takes no lock.
    In the schedule [race], resolver 0 holds the lock and has found the
    shipment when the scheduler reads the same shipment into its snapshot;
    the resolver then writes the resumption, and the scheduler's iteration
    decides on the snapshot, where the shipment is still on hold, and skips
    it.  The accesses of the two threads to the one record interleave, and
    the pass is not accounted to the resumed shipment, as it is when the
    same steps run one thread after the other. *)
Theorem scheduler_ignores_lock :
  let t := tracking shipment_c in
  Sys.run race (Sys.initial []) = Some (reached race) ∧
  (∃ σ1,
      Sys.run to_found (Sys.initial []) = Some σ1 ∧
      Sys.lock σ1 = Some 0%nat ∧
      is_Some (Sys.step (Sys.TickStart 1) σ1)) ∧
  drop 42 (Sys.trace (reached race)) =
    [Sys.EvResolverFind 0 t true; Sys.EvSchedFind [t];
     Sys.EvResolverUpdate 0 t; Sys.EvSchedIter t] ∧
  Sys.exclusive t (Sys.trace (reached race)) = false ∧
  Sys.exclusive t (Sys.trace (reached serial)) = true ∧
  (λ d, (on_hold d, time_in_step d)) <$> Sys.db (reached race)
    = [(None, 0%Q)] ∧
  (λ d, (on_hold d, time_in_step d)) <$> Sys.db (reached serial)
    = [(None, 1%Q)].
Proof.
  split_and!; try (vm_compute; reflexivity).
  eexists. split_and!; [vm_compute; reflexivity|reflexivity|].
  vm_compute. eauto.
Qed.

(** *** The snapshot and thread invariant, operation by operation *)

#[local] Instance agree_refl : Reflexive Sys.agree.
Proof. by intros d. Qed.

#[local] Instance agree_trans : Transitive Sys.agree.
Proof.
  intros d1 d2 d3 (?&?&?&?) (?&?&?&?). unfold Sys.agree. split_and!; congruence.
Qed.

#[local] Instance agree_sym : Symmetric Sys.agree.
Proof. intros d1 d2 (?&?&?&?). unfold Sys.agree. split_and!; congruence. Qed.

Lemma inv_rest_sub (db : Store) (work work' : list Shipment)
    (rs : list Sys.Resolver) (log : list string) :
  work' `sublist_of` work → Sys.inv db work rs log → Sys.inv db work' rs log.
Proof.
  intros Hsub [Hnd Hin Hag Hth Hthnd Hthin Hch].
  pose proof (sublist_subseteq _ _ Hsub) as Hsubset.
  split; try done.
  - apply (sublist_NoDup _ _ Hnd). by apply fmap_sublist.
  - intros s Hs. apply Hin, Hsubset, Hs.
  - intros s d Hs. apply Hag, Hsubset, Hs.
Qed.

Lemma inv_set_pc (db : Store) (work : list Shipment) (rs : list Sys.Resolver)
    (log : list string) (i : nat) (r : Sys.Resolver) (pc : Sys.ResolverPc) :
  rs !! i = Some r → Sys.inv db work rs log →
  Sys.inv db work
    (<[i := Sys.mkResolver (Sys.r_tracking r) (Sys.r_days r) pc]> rs) log.
Proof.
  intros Hi [Hnd Hin Hag Hth Hthnd Hthin Hch].
  assert (Hold : ∀ r', r' ∈ <[i := Sys.mkResolver (Sys.r_tracking r)
                                      (Sys.r_days r) pc]> rs →
                       ∃ r0, r0 ∈ rs ∧ Sys.r_tracking r0 = Sys.r_tracking r').
  { intros r' [->|(j & _ & Hj)]%elem_of_insert_inv.
    - exists r. split; [|done]. apply list_elem_of_lookup. eauto.
    - exists r'. split; [|done]. apply list_elem_of_lookup. eauto. }
  split; try done.
  - by rewrite (fmap_insert_same _ _ _ r).
  - by rewrite (fmap_insert_same _ _ _ r).
  - intros r' (r0 & Hr0 & <-)%Hold. by apply Hthin.
  - intros r' d (r0 & Hr0 & <-)%Hold. by apply Hch.
Qed.

Lemma inv_foreign (db : Store) (work : list Shipment) (rs : list Sys.Resolver)
    (log : list string) (t : string) (u : Update) :
  NoDup (tracking <$> db) → Sys.foreign u →
  Sys.inv db work rs log → Sys.inv (update_one t u db) work rs log.
Proof.
  intros Hdb Hu [Hnd Hin Hag Hth Hthnd Hthin Hch].
  split; try done.
  - intros s Hs. rewrite update_one_trackings. by apply Hin.
  - intros s d' Hs [[_ Hd]|(d & Hd & Ht & ->)]%elem_of_update_one Heq;
      [by apply Hag| |done].
    rewrite apply_update_tracking in Heq.
    etrans; [by apply Hag|]. symmetry. apply Hu.
  - intros r Hr. rewrite update_one_trackings. by apply Hthin.
  - intros r d' Hr [[_ Hd]|(d & Hd & Ht & ->)]%elem_of_update_one Heq;
      [by eapply Hch| |done].
    rewrite apply_update_tracking in Heq.
    destruct (Hu d) as (_ & _ & -> & _). by eapply Hch.
Qed.

Lemma inv_snapshot (db : Store) (work : list Shipment) (rs : list Sys.Resolver)
    (log : list string) :
  NoDup (tracking <$> db) →
  Sys.inv db work rs log → Sys.inv db (find_active db) rs log.
Proof.
  intros Hdb [Hnd Hin Hag Hth Hthnd Hthin Hch].
  split; try done.
  - by apply filter_trackings_NoDup.
  - intros s [_ Hs]%list_elem_of_filter. by apply list_elem_of_fmap_2.
  - intros s d [_ Hs]%list_elem_of_filter Hd Heq.
    by rewrite (NoDup_fmap_eq tracking db s d).
Qed.

(** The scheduler's own write, for the snapshot entry it has just taken. *)
Lemma inv_sched_write (db : Store) (s : Shipment) (work : list Shipment)
    (rs : list Sys.Resolver) (log : list string) (u : Update) :
  NoDup (tracking <$> db) →
  (∀ d, incident_checked d = true →
        incident_checked (apply_update u d) = true) →
  Sys.inv db (s :: work) rs log →
  Sys.inv (update_one (tracking s) u db) work rs log.
Proof.
  intros Hdb Hu [Hnd Hin Hag Hth Hthnd Hthin Hch].
  rewrite fmap_cons in Hnd. apply NoDup_cons in Hnd as [Hs Hnd].
  split; try done.
  - intros s' Hs'. rewrite update_one_trackings. apply Hin. by right.
  - intros s' d' Hs' [[_ Hd]|(d & Hd & Ht & ->)]%elem_of_update_one Heq;
      [apply Hag; [by right|done..]| |done].
    rewrite apply_update_tracking, Ht in Heq. destruct Hs. rewrite <- Heq.
    by apply list_elem_of_fmap_2.
  - intros r Hr. rewrite update_one_trackings. by apply Hthin.
  - intros r d' Hr [[_ Hd]|(d & Hd & Ht & ->)]%elem_of_update_one Heq;
      [by eapply Hch| |done].
    rewrite apply_update_tracking in Heq. apply Hu. by eapply Hch.
Qed.

(** A shipment due for its incident has no resolver yet. *)
Lemma inv_due_fresh (db : Store) (s : Shipment) (work : list Shipment)
    (rs : list Sys.Resolver) (log : list string) :
  incident_due s = true → Sys.inv db (s :: work) rs log →
  tracking s ∉ Sys.r_tracking <$> rs.
Proof.
  intros Hdue [Hnd Hin Hag Hth Hthnd Hthin Hch]
    (r & Heq & Hr)%list_elem_of_fmap.
  pose proof (Hin s ltac:(left)) as Hs.
  apply list_elem_of_fmap in Hs as (d & Hd & Hdin).
  specialize (Hch r d Hr Hdin ltac:(congruence)).
  destruct (Hag s d ltac:(left) Hdin Hd) as (_ & _ & Hc & _).
  unfold incident_due in Hdue. rewrite Hc, Hch in Hdue.
  by rewrite andb_false_r in Hdue.
Qed.

Lemma inv_spawn (db : Store) (work : list Shipment) (rs : list Sys.Resolver)
    (log : list string) (t : string) (days : Z) :
  t ∉ Sys.r_tracking <$> rs → t ∈ tracking <$> db →
  (∀ d, d ∈ db → tracking d = t → incident_checked d = true) →
  Sys.inv db work rs log →
  Sys.inv db work (rs ++ [Sys.mkResolver t days Sys.Sleeping]) (log ++ [t]).
Proof.
  intros Hfresh Hin' Hchecked [Hnd Hin Hag Hth Hthnd Hthin Hch].
  split; try done.
  - by rewrite fmap_app, Hth.
  - rewrite fmap_app. apply NoDup_app. split_and!; [done| |].
    + intros x Hx [->|[]%elem_of_nil]%elem_of_cons. done.
    + apply NoDup_singleton.
  - intros r [Hr|[->|[]%elem_of_nil]%elem_of_cons]%elem_of_app; auto.
  - intros r d [Hr|[->|[]%elem_of_nil]%elem_of_cons]%elem_of_app Hd Heq;
      [by eapply Hch|by apply Hchecked].
Qed.

Lemma inv_insert (db : Store) (d0 : Shipment) (work : list Shipment)
    (rs : list Sys.Resolver) (log : list string) :
  NoDup (tracking <$> insert_one d0 db) →
  Sys.inv db work rs log → Sys.inv (insert_one d0 db) work rs log.
Proof.
  unfold insert_one. rewrite fmap_app.
  intros (_ & Hfresh & _)%NoDup_app [Hnd Hin Hag Hth Hthnd Hthin Hch].
  assert (Hnew : ∀ t, t ∈ tracking <$> db → t ≠ tracking d0).
  { intros t Ht ->. apply (Hfresh _ Ht). left. }
  split; try done.
  - intros s Hs. rewrite fmap_app. apply elem_of_app. left. by apply Hin.
  - intros s d Hs [Hd|[->|[]%elem_of_nil]%elem_of_cons]%elem_of_app Heq;
      [by apply Hag|]. by destruct (Hnew _ (Hin s Hs)).
  - intros r Hr. rewrite fmap_app. apply elem_of_app. left. by apply Hthin.
  - intros r d Hr [Hd|[->|[]%elem_of_nil]%elem_of_cons]%elem_of_app Heq;
      [by eapply Hch|]. by destruct (Hnew _ (Hthin r Hr)).
Qed.

Lemma checked_kept_close (d : Shipment) :
  incident_checked d = true →
  incident_checked (apply_update close_update d) = true.
Proof. done. Qed.

Lemma checked_kept_advance (e : IterEnv) (i : Z) (st : string) (d : Shipment) :
  incident_checked d = true →
  incident_checked (apply_update (advance_update e i st) d) = true.
Proof. by rewrite apply_advance_update. Qed.

Lemma checked_kept_time (q : Q) (d : Shipment) :
  incident_checked d = true →
  incident_checked (apply_update (time_update q) d) = true.
Proof. done. Qed.

Lemma foreign_cancel (now : string) : Sys.foreign (cancel_update now).
Proof. by intros d. Qed.

Lemma foreign_resume (now : string) : Sys.foreign (resume_update now).
Proof. by intros d. Qed.

Lemma foreign_archive : Sys.foreign archive_update.
Proof. by intros d. Qed.

(** Every step of every thread keeps the invariant, as long as tracking
    numbers stay distinct. *)
Lemma step_Inv (a : Sys.Action) (σ σ' : Sys.State) :
  Sys.step a σ = Some σ' → NoDup (tracking <$> Sys.db σ') →
  Sys.Inv σ → Sys.Inv σ'.
Proof.
  intros Hstep Hnd'. pose proof (step_NoDup _ _ _ Hstep Hnd') as Hnd.
  unfold Sys.Inv, Sys.rest.
  destruct a as [delta|e|i draw|i|i now|t|username quantity destination r];
    simpl in Hstep.
  - (* the scheduler reads its snapshot *)
    destruct (Sys.sched σ) as [? [|]|]; simplify_eq. simpl.
    rewrite spawn_log_snoc_other by done. by apply inv_snapshot.
  - (* one iteration of the scheduler *)
    destruct (Sys.sched σ) as [delta [|s work]|] eqn:Hsched; simplify_eq.
    pose proof (process_shipment_iteration e delta s (Sys.db σ)) as Hit.
    intros Hinv.
    destruct (process_shipment e delta s (Sys.db σ)) as [ex|[db' started]];
      simplify_eq; simpl.
    { rewrite spawn_log_snoc_other by done.
      eapply inv_rest_sub; [|done]. apply sublist_nil_l. }
    inversion Hit; subst; simpl; rewrite ?app_nil_r.
    + rewrite spawn_log_snoc_other by done.
      by apply inv_sched_write; [|apply checked_kept_close|].
    + rewrite spawn_log_snoc_other by done.
      eapply inv_rest_sub; [|done]. by apply sublist_cons.
    + unfold Sys.spawn_log. rewrite omap_app. simpl.
      fold (Sys.spawn_log (Sys.trace σ)).
      apply inv_spawn.
      * by eapply inv_due_fresh.
      * rewrite update_one_trackings.
        apply (Sys.inv_rest_in _ _ _ _ Hinv). left.
      * intros d' [[Hne _]|(d & _ & _ & ->)]%elem_of_update_one; done.
      * by apply inv_sched_write.
    + rewrite spawn_log_snoc_other by done.
      by apply inv_sched_write; [|apply checked_kept_advance|].
    + rewrite spawn_log_snoc_other by done.
      by apply inv_sched_write; [|apply checked_kept_time|].
  - (* a resolver takes the lock *)
    destruct (Sys.resolvers σ !! i) as [[t days []]|] eqn:Hi; simplify_eq.
    destruct (Sys.lock σ); simplify_eq. simpl. intros Hinv.
    by apply (inv_set_pc _ _ _ _ _ _ _ Hi).
  - (* a resolver looks its shipment up *)
    destruct (Sys.resolvers σ !! i) as [[t days []]|] eqn:Hi; simplify_eq.
    intros Hinv.
    destruct (find_one t (Sys.db σ)); simplify_eq; simpl;
      rewrite spawn_log_snoc_other by done;
      by apply (inv_set_pc _ _ _ _ _ _ _ Hi).
  - (* a resolver writes *)
    destruct (Sys.resolvers σ !! i) as [[t days []]|] eqn:Hi; simplify_eq.
    simpl. intros Hinv. rewrite spawn_log_snoc_other by done.
    apply (inv_set_pc _ _ _ _ _ _ Sys.Done Hi) in Hinv.
    apply inv_foreign; [done| |done].
    destruct outcome; [apply foreign_cancel|apply foreign_resume].
  - (* the archive route *)
    simplify_eq. simpl. intros Hinv. rewrite spawn_log_snoc_other by done.
    unfold archive_shipment. destruct (find_one t (Sys.db σ)); simpl; [|done].
    apply inv_foreign; [done|apply foreign_archive|done].
  - (* the factory *)
    simplify_eq. simpl in *. intros Hinv.
    rewrite spawn_log_snoc_other by done. by apply inv_insert.
Qed.

Lemma run_NoDup (acts : list Sys.Action) (σ σ' : Sys.State) :
  Sys.run acts σ = Some σ' →
  NoDup (tracking <$> Sys.db σ') → NoDup (tracking <$> Sys.db σ).
Proof.
  revert σ. induction acts as [|a acts IH]; intros σ; simpl.
  - by intros [= ->].
  - destruct (Sys.step a σ) as [σ1|] eqn:Hstep; [|done]. simpl.
    intros Hrun Hnd. eapply step_NoDup; eauto.
Qed.

Lemma run_Inv (acts : list Sys.Action) (σ σ' : Sys.State) :
  Sys.run acts σ = Some σ' → NoDup (tracking <$> Sys.db σ') →
  Sys.Inv σ → Sys.Inv σ'.
Proof.
  revert σ. induction acts as [|a acts IH]; intros σ; simpl.
  - by intros [= ->].
  - destruct (Sys.step a σ) as [σ1|] eqn:Hstep; [|done]. simpl.
    intros Hrun Hnd Hinv. apply (IH σ1); [done..|].
    eapply step_Inv; eauto using run_NoDup.
Qed.

Lemma initial_Inv (db0 : Store) : Sys.Inv (Sys.initial db0).
Proof.
  split; simpl; try done; try apply NoDup_nil_2;
    try (by intros ? ?%elem_of_nil); by intros ? ? ?%elem_of_nil.
Qed.

(** *** One resolver per tracking number, colliding numbers included *)

Lemma NoDup_filter_eq (t : string) (l : list string) :
  NoDup l → (length (filter (λ x, x = t) l) ≤ 1)%nat.
Proof.
  induction 1 as [|x l Hx Hnd IH]; [simpl; lia|].
  rewrite filter_cons. case_decide as Heq; [|done]. subst.
  rewrite filter_absent by done. simpl. lia.
Qed.

Lemma filter_eq_elem_of (t : string) (l : list string) :
  (0 < length (filter (λ x, x = t) l))%nat → t ∈ l.
Proof.
  destruct (filter (λ x, x = t) l) as [|x l'] eqn:Hf; simpl; [lia|].
  intros _. assert (Hx : x ∈ filter (λ x, x = t) l) by (rewrite Hf; left).
  by apply list_elem_of_filter in Hx as [-> ?].
Qed.

Lemma find_one_first (t : string) (db : Store) (d : Shipment) :
  find_one t db = Some d →
  ∃ i, db !! i = Some d ∧ tracking d = t ∧
       ∀ k c, (k < i)%nat → db !! k = Some c → tracking c ≠ t.
Proof.
  induction db as [|x db IH]; simpl; [done|].
  case_decide as Hx.
  - intros [= ->]. exists 0%nat. split_and!; [done..|]. intros; lia.
  - intros (i & Hi & Ht & Hfirst)%IH. exists (S i). split_and!; [done..|].
    intros [|k] c Hk Hc; simplify_eq/=; [done|].
    apply (Hfirst k); [lia|done].
Qed.

Lemma find_one_elem_of (db : Store) (s : Shipment) :
  s ∈ db → is_Some (find_one (tracking s) db).
Proof.
  induction 1 as [s db|s x db Hs IH]; simpl.
  - rewrite decide_True by done. eauto.
  - case_decide; eauto.
Qed.

Lemma find_one_app_l (t : string) (db db2 : Store) (d : Shipment) :
  find_one t db = Some d → find_one t (db ++ db2) = Some d.
Proof.
  induction db as [|x db IH]; simpl; [done|]. case_decide; auto.
Qed.

(** The position an update changes is the first one of its tracking
    number. *)
Lemma update_one_lookup (t : string) (u : Update) (db : Store)
    (j : nat) (b' : Shipment) :
  update_one t u db !! j = Some b' →
  ∃ b, db !! j = Some b ∧ tracking b' = tracking b ∧
       (b' = b ∨
        (tracking b = t ∧
         ∀ i a, (i < j)%nat → db !! i = Some a → tracking a ≠ t)).
Proof.
  revert j. induction db as [|x db IH]; intros j; simpl; [done|].
  case_decide as Hx.
  - destruct j as [|j]; simpl.
    + intros [= <-]. exists x. rewrite apply_update_tracking.
      split_and!; [done..|]. right. split; [done|]. intros; lia.
    + intros Hj. exists b'. eauto.
  - destruct j as [|j]; simpl.
    + intros [= ->]. exists b'. eauto.
    + intros (b & Hb & Ht & Hcase)%IH. exists b. split_and!; [done..|].
      destruct Hcase as [?|[? Hfirst]]; [by left|right].
      split; [done|]. intros [|i] a Hi Ha; simplify_eq/=; [done|].
      apply (Hfirst i); [lia|done].
Qed.

Lemma first_only_update_one (t : string) (u : Update) (db : Store) :
  Sys.first_only db → Sys.first_only (update_one t u db).
Proof.
  intros Hfirst i j a' b' Hij
    (a & Ha & Hta & _)%update_one_lookup
    (b & Hb & Htb & Hcase)%update_one_lookup Heq.
  destruct Hcase as [->|[Ht Hnone]].
  - apply (Hfirst i j a b); congruence.
  - destruct (Hnone i a Hij Ha). congruence.
Qed.

Lemma first_only_insert (d0 : Shipment) (db : Store) :
  current_step_index d0 = 0 →
  Sys.first_only db → Sys.first_only (insert_one d0 db).
Proof.
  unfold insert_one. intros Hd0 Hfirst i j a b Hij Ha Hb Heq.
  apply lookup_app_Some in Hb as [Hb|[Hlen Hb]].
  - pose proof (lookup_lt_Some _ _ _ Hb).
    rewrite lookup_app_l in Ha by lia. by apply (Hfirst i j a b).
  - by apply list_lookup_singleton_Some in Hb as [_ <-].
Qed.

Lemma first_only_tail (x : Shipment) (db : Store) :
  Sys.first_only (x :: db) → Sys.first_only db.
Proof.
  intros Hfirst i j a b Hij Ha Hb. apply (Hfirst (S i) (S j)); [lia|done..].
Qed.

(** A document past stage 0 is the first one of its tracking number. *)
Lemma first_only_find (db : Store) (s : Shipment) :
  Sys.first_only db → s ∈ db → current_step_index s ≠ 0 →
  find_one (tracking s) db = Some s.
Proof.
  intros Hfirst [j Hj]%list_elem_of_lookup Hidx.
  destruct (find_one_elem_of db s) as [d Hd];
    [apply list_elem_of_lookup; eauto|].
  destruct (find_one_first _ _ _ Hd) as (i & Hi & Ht & Hnone).
  destruct (decide (i < j)%nat) as [Hlt|Hge].
  { by destruct Hidx; apply (Hfirst i j d s). }
  destruct (decide (j < i)%nat) as [Hlt|Hge'].
  { by destruct (Hnone j s Hlt Hj). }
  assert (i = j) as -> by lia. congruence.
Qed.

Lemma due_not_at_start (s : Shipment) :
  incident_due s = true → current_step_index s ≠ 0.
Proof.
  unfold incident_due. intros H Hidx. by rewrite Hidx in H.
Qed.

Lemma first_only_due_NoDup (db : Store) :
  Sys.first_only db →
  NoDup (tracking <$> filter (λ s, incident_due s = true) db).
Proof.
  induction db as [|x db IH]; intros Hfirst; [apply NoDup_nil_2|].
  rewrite filter_cons. specialize (IH (first_only_tail _ _ Hfirst)).
  case_decide as Hx; [|done].
  rewrite fmap_cons. apply NoDup_cons. split; [|done].
  intros (b & Heq & [Hb [j Hj]%list_elem_of_lookup]%list_elem_of_filter)
    %list_elem_of_fmap.
  apply (due_not_at_start b Hb).
  by apply (Hfirst 0%nat (S j) x b); [lia|..].
Qed.

Lemma find_one_update_one (t t' : string) (u : Update) (db : Store) :
  find_one t' (update_one t u db) =
  (if decide (t = t') then apply_update u else id) <$> find_one t' db.
Proof.
  case_decide as Ht.
  - subst. destruct (find_one t' db) as [d|] eqn:Hd; simpl.
    + by apply update_one_find.
    + by rewrite update_one_missing.
  - rewrite update_one_find_ne by done. by destruct (find_one t' db).
Qed.

Lemma filter_sublist_mono {A} (P : A → Prop) `{!∀ x, Decision (P x)}
    (l1 l2 : list A) :
  l1 `sublist_of` l2 → filter P l1 `sublist_of` filter P l2.
Proof.
  induction 1 as [|x l1 l2 Hsub IH|x l1 l2 Hsub IH]; rewrite ?filter_cons.
  - done.
  - case_decide; [by apply sublist_skip|done].
  - case_decide; [by apply sublist_cons|done].
Qed.

Lemma NoDup_first_only (db : Store) :
  NoDup (tracking <$> db) → Sys.first_only db.
Proof.
  intros Hnd i j a b Hij Ha Hb Heq.
  assert (i = j); [|lia].
  apply (NoDup_lookup _ _ _ (tracking a) Hnd);
    rewrite list_lookup_fmap; [by rewrite Ha|by rewrite Hb, Heq].
Qed.

Lemma once_rest_sub (db : Store) (work work' : list Shipment)
    (rs : list Sys.Resolver) (log : list string) :
  work' `sublist_of` work →
  Sys.once_inv db work rs log → Sys.once_inv db work' rs log.
Proof.
  intros Hsub [Hfirst Hin Hnd Hdue Hth Hthnd Hch].
  pose proof (sublist_subseteq _ _ Hsub) as Hsubset.
  split; try done.
  - intros s Hs. apply Hin, Hsubset, Hs.
  - apply (sublist_NoDup _ _ Hnd). by apply fmap_sublist, filter_sublist_mono.
  - intros s d Hs. apply Hdue, Hsubset, Hs.
Qed.

Lemma once_set_pc (db : Store) (work : list Shipment) (rs : list Sys.Resolver)
    (log : list string) (i : nat) (r : Sys.Resolver) (pc : Sys.ResolverPc) :
  rs !! i = Some r → Sys.once_inv db work rs log →
  Sys.once_inv db work
    (<[i := Sys.mkResolver (Sys.r_tracking r) (Sys.r_days r) pc]> rs) log.
Proof.
  intros Hi [Hfirst Hin Hnd Hdue Hth Hthnd Hch].
  split; try done.
  - by rewrite (fmap_insert_same _ _ _ r).
  - by rewrite (fmap_insert_same _ _ _ r).
  - intros r' [->|(j & _ & Hj)]%elem_of_insert_inv.
    + apply (Hch r), list_elem_of_lookup. eauto.
    + apply Hch, list_elem_of_lookup. eauto.
Qed.

(** A write that leaves [incident_checked] as it is. *)
Lemma once_update (db : Store) (work : list Shipment) (rs : list Sys.Resolver)
    (log : list string) (t : string) (u : Update) :
  (∀ d, incident_checked (apply_update u d) = incident_checked d) →
  Sys.once_inv db work rs log → Sys.once_inv (update_one t u db) work rs log.
Proof.
  intros Hu [Hfirst Hin Hnd Hdue Hth Hthnd Hch].
  split; try done.
  - by apply first_only_update_one.
  - intros s Hs. rewrite find_one_update_one.
    destruct (Hin s Hs) as [d ->]. simpl. eauto.
  - intros s d' Hs Hd. rewrite find_one_update_one.
    destruct (find_one (tracking s) db) as [d|] eqn:Hf; simpl; [|done].
    intros [= <-]. case_decide; [rewrite Hu|]; by eapply Hdue.
  - intros r Hr. destruct (Hch r Hr) as (d & Hf & Hc).
    rewrite find_one_update_one, Hf. simpl. eexists. split; [done|].
    case_decide; [by rewrite Hu|done].
Qed.

(** The incident: the entry is due, so no thread was started for its
    tracking number, and no other entry of the snapshot is due under that
    number. *)
Lemma once_incident (db : Store) (s : Shipment) (work : list Shipment)
    (rs : list Sys.Resolver) (log : list string) (e : IterEnv) :
  incident_due s = true →
  Sys.once_inv db (s :: work) rs log →
  Sys.once_inv (update_one (tracking s) (incident_update e) db) work
    (rs ++ [Sys.mkResolver (tracking s) (it_days e) Sys.Sleeping])
    (log ++ [tracking s]).
Proof.
  intros Hs [Hfirst Hin Hnd Hdue Hth Hthnd Hch].
  rewrite filter_cons, decide_True, fmap_cons in Hnd by done.
  apply NoDup_cons in Hnd as [Hfresh Hnd].
  destruct (Hin s ltac:(left)) as [d Hd].
  pose proof (Hdue s d ltac:(left) Hs Hd) as Hunchecked.
  split.
  - by apply first_only_update_one.
  - intros s' Hs'. rewrite find_one_update_one.
    destruct (Hin s' ltac:(by right)) as [d' ->]. simpl. eauto.
  - done.
  - intros s' d' Hs' Hdue'. rewrite find_one_update_one.
    case_decide as Heq.
    { destruct Hfresh. rewrite Heq. apply list_elem_of_fmap_2.
      by apply list_elem_of_filter. }
    destruct (find_one (tracking s') db) as [d1|] eqn:Hf; simpl; [|done].
    intros [= <-]. apply (Hdue s'); [by right|done..].
  - by rewrite fmap_app, Hth.
  - rewrite fmap_app. apply NoDup_app. split_and!; [done| |apply NoDup_singleton].
    intros x (r & -> & Hr)%list_elem_of_fmap [Heq|[]%elem_of_nil]%elem_of_cons.
    simpl in Heq. destruct (Hch r Hr) as (d' & Hf & Hc). congruence.
  - intros r [Hr|[->|[]%elem_of_nil]%elem_of_cons]%elem_of_app.
    + destruct (Hch r Hr) as (d' & Hf & Hc).
      rewrite find_one_update_one, Hf. simpl. eexists. split; [done|].
      case_decide; [by rewrite apply_incident_update|done].
    + simpl. rewrite find_one_update_one, Hd, decide_True by done. simpl.
      eexists. split; [done|]. by rewrite apply_incident_update.
Qed.

Lemma once_insert (db : Store) (d0 : Shipment) (work : list Shipment)
    (rs : list Sys.Resolver) (log : list string) :
  current_step_index d0 = 0 →
  Sys.once_inv db work rs log → Sys.once_inv (insert_one d0 db) work rs log.
Proof.
  intros Hd0 [Hfirst Hin Hnd Hdue Hth Hthnd Hch].
  split; try done.
  - by apply first_only_insert.
  - intros s Hs. destruct (Hin s Hs) as [d Hd]. exists d.
    by apply find_one_app_l.
  - intros s d Hs Hd. destruct (Hin s Hs) as [d1 Hd1]. unfold insert_one.
    rewrite (find_one_app_l _ _ _ _ Hd1). intros [= <-]. by eapply Hdue.
  - intros r Hr. destruct (Hch r Hr) as (d & Hf & Hc). exists d.
    split; [by apply find_one_app_l|done].
Qed.

(** A fresh snapshot: its entries due for an incident are first documents
    of their tracking numbers. *)
Lemma once_snapshot (db : Store) (work : list Shipment)
    (rs : list Sys.Resolver) (log : list string) :
  Sys.once_inv db work rs log → Sys.once_inv db (find_active db) rs log.
Proof.
  intros [Hfirst Hin Hnd Hdue Hth Hthnd Hch].
  split; try done.
  - intros s [_ Hs]%list_elem_of_filter. by apply find_one_elem_of.
  - apply (sublist_NoDup _ _ (first_only_due_NoDup db Hfirst)).
    apply fmap_sublist, filter_sublist_mono, sublist_filter.
  - intros s d [_ Hs]%list_elem_of_filter Hd.
    rewrite (first_only_find db s Hfirst Hs (due_not_at_start s Hd)).
    intros [= <-]. unfold incident_due in Hd.
    by destruct (incident_checked s); [rewrite andb_false_r in Hd|].
Qed.

Lemma checked_same_cancel (now : string) (d : Shipment) :
  incident_checked (apply_update (cancel_update now) d) = incident_checked d.
Proof. done. Qed.

Lemma checked_same_resume (now : string) (d : Shipment) :
  incident_checked (apply_update (resume_update now) d) = incident_checked d.
Proof. done. Qed.

Lemma checked_same_advance (e : IterEnv) (i : Z) (st : string) (d : Shipment) :
  incident_checked (apply_update (advance_update e i st) d)
    = incident_checked d.
Proof. by rewrite apply_advance_update. Qed.

(** Every step of every thread keeps the invariant. *)
Lemma step_Once (a : Sys.Action) (σ σ' : Sys.State) :
  Sys.step a σ = Some σ' → Sys.Once σ → Sys.Once σ'.
Proof.
  intros Hstep. unfold Sys.Once, Sys.rest.
  destruct a as [delta|e|i draw|i|i now|t|username quantity destination r];
    simpl in Hstep.
  - (* the scheduler reads its snapshot *)
    destruct (Sys.sched σ) as [? [|]|]; simplify_eq. simpl.
    rewrite spawn_log_snoc_other by done. apply once_snapshot.
  - (* one iteration of the scheduler *)
    destruct (Sys.sched σ) as [delta [|s work]|] eqn:Hsched; simplify_eq.
    pose proof (process_shipment_iteration e delta s (Sys.db σ)) as Hit.
    intros Hinv.
    destruct (process_shipment e delta s (Sys.db σ)) as [ex|[db' started]];
      simplify_eq; simpl.
    { rewrite spawn_log_snoc_other by done.
      eapply once_rest_sub; [|done]. apply sublist_nil_l. }
    apply (once_rest_sub _ _ work) in Hinv as Htail; [|by apply sublist_cons].
    inversion Hit; subst; simpl; rewrite ?app_nil_r.
    + rewrite spawn_log_snoc_other by done. by apply once_update.
    + by rewrite spawn_log_snoc_other.
    + unfold Sys.spawn_log. rewrite omap_app. simpl.
      fold (Sys.spawn_log (Sys.trace σ)). by apply once_incident.
    + rewrite spawn_log_snoc_other by done.
      apply once_update; [apply checked_same_advance|done].
    + rewrite spawn_log_snoc_other by done. by apply once_update.
  - (* a resolver takes the lock *)
    destruct (Sys.resolvers σ !! i) as [[t days []]|] eqn:Hi; simplify_eq.
    destruct (Sys.lock σ); simplify_eq. simpl. intros Hinv.
    by apply (once_set_pc _ _ _ _ _ _ _ Hi).
  - (* a resolver looks its shipment up *)
    destruct (Sys.resolvers σ !! i) as [[t days []]|] eqn:Hi; simplify_eq.
    intros Hinv.
    destruct (find_one t (Sys.db σ)); simplify_eq; simpl;
      rewrite spawn_log_snoc_other by done;
      by apply (once_set_pc _ _ _ _ _ _ _ Hi).
  - (* a resolver writes *)
    destruct (Sys.resolvers σ !! i) as [[t days []]|] eqn:Hi; simplify_eq.
    simpl. intros Hinv. rewrite spawn_log_snoc_other by done.
    apply (once_set_pc _ _ _ _ _ _ Sys.Done Hi) in Hinv.
    apply once_update; [|done].
    destruct outcome; [apply checked_same_cancel|apply checked_same_resume].
  - (* the archive route *)
    simplify_eq. simpl. intros Hinv. rewrite spawn_log_snoc_other by done.
    unfold archive_shipment. destruct (find_one t (Sys.db σ)); simpl; [|done].
    by apply once_update.
  - (* the factory *)
    simplify_eq. simpl in *. intros Hinv.
    rewrite spawn_log_snoc_other by done. by apply once_insert.
Qed.

Lemma run_Once (acts : list Sys.Action) (σ σ' : Sys.State) :
  Sys.run acts σ = Some σ' → Sys.Once σ → Sys.Once σ'.
Proof.
  revert σ. induction acts as [|a acts IH]; intros σ; simpl.
  - by intros [= ->].
  - destruct (Sys.step a σ) as [σ1|] eqn:Hstep; [|done]. simpl.
    intros Hrun Hinv. apply (IH σ1); [done|]. by eapply step_Once.
Qed.

Lemma initial_Once (db0 : Store) :
  Sys.first_only db0 → Sys.Once (Sys.initial db0).
Proof.
  intros Hfirst. split; simpl; try done; try apply NoDup_nil_2;
    try (by intros ? ?%elem_of_nil); by intros ? ? ?%elem_of_nil.
Qed.

(** The collections the server produces stay of that kind. *)
Lemma run_first_only (db0 : Store) (acts : list Sys.Action) (σ : Sys.State) :
  Sys.first_only db0 → Sys.run acts (Sys.initial db0) = Some σ →
  Sys.first_only (Sys.db σ).
Proof.
  intros Hfirst Hrun.
  by destruct (run_Once _ _ _ Hrun (initial_Once db0 Hfirst)).
Qed.

(** C5 (one resolver per shipment): let the server start on a collection
    in which a document that follows another one of the same tracking
    number is at stage 0; collections with distinct tracking numbers are of
    that kind, the empty one too, and so is every collection the server
    reaches from one of them.  Then, along any interleaving of scheduler
    iterations, resolver steps, archive requests and creations, colliding
    tracking numbers included, at most one resolver thread is ever started
    for a tracking number; once it is started, the document that the
    scheduler and the resolver address under that number has
    [incident_checked] set, by the update that declares the incident, and
    no document of that number is due for an incident any more. *)
Theorem at_most_one_resolver
    (db0 : Store) (acts : list Sys.Action) (σ : Sys.State) (t : string) :
  Sys.first_only db0 →
  Sys.run acts (Sys.initial db0) = Some σ →
  (Sys.spawned t (Sys.trace σ) ≤ 1)%nat ∧
  ((0 < Sys.spawned t (Sys.trace σ))%nat →
   (∃ d, find_one t (Sys.db σ) = Some d ∧ incident_checked d = true) ∧
   ∀ d, d ∈ Sys.db σ → tracking d = t → incident_due d = false).
Proof.
  intros Hfirst0 Hrun.
  pose proof (run_Once _ _ _ Hrun (initial_Once db0 Hfirst0))
    as [Hfirst _ _ _ Hth Hthnd Hch].
  unfold Sys.spawned. rewrite <- Hth. split.
  - by apply NoDup_filter_eq.
  - intros (r & Hr & Hrin)%filter_eq_elem_of%list_elem_of_fmap.
    destruct (Hch r Hrin) as (d1 & Hf & Hc). rewrite <- Hr in Hf.
    split; [eauto|]. intros d Hd Ht.
    destruct (incident_due d) eqn:Hdue; [|done].
    rewrite <- Ht, (first_only_find _ d Hfirst Hd (due_not_at_start d Hdue))
      in Hf.
    simplify_eq. unfold incident_due in Hdue. rewrite Hc in Hdue.
    by rewrite andb_false_r in Hdue.
Qed.

Lemma at_most_one_resolver_witness :
  (Sys.spawned "10000003" (Sys.trace (reached race)) ≤ 1)%nat ∧
  ((0 < Sys.spawned "10000003" (Sys.trace (reached race)))%nat →
   (∃ d, find_one "10000003" (Sys.db (reached race)) = Some d ∧
         incident_checked d = true) ∧
   ∀ d, d ∈ Sys.db (reached race) → tracking d = "10000003" →
        incident_due d = false).
Proof.
  apply (at_most_one_resolver [] race).
  - intros i j a b _ Ha. discriminate Ha.
  - vm_compute. reflexivity.
Defined.

(** *** The hold invariant, operation by operation *)











(** The three steps of a resolver, run in a row, are [handle_incident]. *)
Lemma resolver_steps_handle_incident
    (σ : Sys.State) (i : nat) (t : string) (days draw : Z) (now : string) :
  Sys.resolvers σ !! i = Some (Sys.mkResolver t days Sys.Sleeping) →
  Sys.lock σ = None →
  ∃ σ',
    Sys.run (match find_one t (Sys.db σ) with
             | Some _ => [Sys.ResolverAcquire i draw; Sys.ResolverFind i;
                          Sys.ResolverUpdate i now]
             | None => [Sys.ResolverAcquire i draw; Sys.ResolverFind i]
             end) σ
    = Some σ' ∧
    Sys.db σ' = (handle_incident t days draw now (Sys.db σ)).1 ∧
    Sys.lock σ' = None ∧
    Sys.resolvers σ' = <[i := Sys.mkResolver t days Sys.Done]> (Sys.resolvers σ).
Proof.
  intros Hi Hlock. pose proof (lookup_lt_Some _ _ _ Hi) as Hlen.
  unfold handle_incident.
  destruct (find_one t (Sys.db σ)) as [d|] eqn:Hfind; simpl;
    rewrite Hi, Hlock; simpl;
    rewrite list_lookup_insert_eq by done; simpl; rewrite Hfind; simpl.
  - rewrite list_lookup_insert_eq by (by rewrite length_insert).
    eexists. split; [done|]. simpl. rewrite !list_insert_insert_eq.
    by destruct (incident_outcome days draw).
  - eexists. split; [done|]. simpl. by rewrite list_insert_insert_eq.
Qed.




(** ** The integer part of the duration allocator *)

(** Lines 60-83 are the end of [generate_step_durations]. *)
Lemma generate_step_durations_distribute
    (total_time : Z) (transit_prop : Q) (rnd : nat → Q) :
  let transit_time := Py.int (inject_Z total_time * transit_prop)%Q in
  generate_step_durations total_time transit_prop rnd =
  distribute total_time transit_time
    (scale_partials (total_time - transit_time) rnd).
Proof. reflexivity. Qed.

Lemma distribute_sum (total_time transit_time : Z) (partials : list Z) :
  length partials = 6%nat →
  let raw :=
    assemble transit_time
      (fix_remainder (total_time - transit_time) partials) in
  Py.sum raw = total_time ∧
  distribute total_time transit_time partials = Z.max 1 <$> raw.
Proof.
  intros Hlen raw.
  assert (Hraw : Py.sum raw = total_time).
  { unfold raw. rewrite assemble_sum by (by rewrite fix_remainder_length).
    rewrite fix_remainder_sum; [lia|]. by destruct partials. }
  split; [done|]. unfold distribute. fold raw.
  rewrite clamp_map by apply assemble_length.
  unfold fix_total. pose proof (py_sum_clamp_ge raw).
  destruct (Z.ltb_spec 0 (total_time - Py.sum (Z.max 1 <$> raw)));
    [lia|done].
Qed.

Lemma fix_remainder_nonneg (rest_time : Z) (partials : list Z) :
  Forall (λ n, 0 ≤ n) partials → Py.sum partials ≤ rest_time →
  Forall (λ n, 0 ≤ n) (fix_remainder rest_time partials).
Proof.
  intros Hnn Hle. unfold fix_remainder. destruct (negb _); [|done].
  apply Forall_alter; [done|]. intros x _ Hx. lia.
Qed.

(** X1 (the allocator, for all draws): whatever is drawn, the allocator
    returns seven durations of at least 1 whose sum is not below
    [total_time]; they are the durations of lines 65-72 with those below 1
    raised to 1, and the correction of lines 78-81 never changes them. *)
Theorem generate_step_durations_never_short
    (total_time : Z) (transit_prop : Q) (rnd : nat → Q) :
  let durations := generate_step_durations total_time transit_prop rnd in
  length durations = 7%nat ∧
  Forall (λ d, 1 ≤ d) durations ∧
  total_time ≤ Py.sum durations ∧
  Py.sum (raw_durations total_time transit_prop rnd) = total_time ∧
  durations = Z.max 1 <$> raw_durations total_time transit_prop rnd.
Proof.
  intros durations.
  destruct (generate_step_durations_shape total_time transit_prop rnd)
    as [Hlen Hall].
  destruct (generate_step_durations_sum total_time transit_prop rnd)
    as (Hraw & Hgen & Hsum).
  by split_and!.
Qed.

(** X2 (lines 60-83, the excess): take any integers for what lines 50 and
    58 have computed, a [transit_time] of at least 1 and six shares, none
    negative, that add up to at most [rest_time].  Then the transit stage
    (the fourth) lasts [transit_time], no duration of lines 65-72 is
    negative, and the sum of the durations returned exceeds [total_time] by
    the number of those left at 0, each of which the loop of lines 74-76
    raises to 1; when [rest_time] is positive that is at most 5. *)
Theorem generate_step_durations_excess
    (total_time transit_time : Z) (partials : list Z) :
  length partials = 6%nat →
  1 ≤ transit_time →
  Forall (λ p, 0 ≤ p) partials →
  Py.sum partials ≤ total_time - transit_time →
  let raw :=
    assemble transit_time
      (fix_remainder (total_time - transit_time) partials) in
  let durations := distribute total_time transit_time partials in
  durations !! 3%nat = Some transit_time ∧
  Forall (λ d, 0 ≤ d) raw ∧
  Py.sum durations
    = total_time + Z.of_nat (length (filter (λ d, d = 0) raw)) ∧
  (transit_time < total_time → Py.sum durations ≤ total_time + 5).
Proof.
  intros Hlen Htransit Hnn Hle raw durations.
  destruct (distribute_sum total_time transit_time partials Hlen)
    as [Hraw Hgen].
  fold raw in Hraw, Hgen. fold durations in Hgen.
  set (rest_time := total_time - transit_time) in *.
  pose proof (fix_remainder_nonneg _ _ Hnn Hle) as Hnn'.
  pose proof (fix_remainder_sum rest_time partials) as Hsum'.
  pose proof (fix_remainder_length rest_time partials) as Hlen'.
  rewrite Hlen in Hlen'.
  assert (Hne : partials ≠ []) by (by destruct partials).
  specialize (Hsum' Hne).
  remember (fix_remainder rest_time partials) as parts eqn:Hparts.
  assert (Hr : raw = assemble transit_time parts) by (by subst parts).
  clearbody raw durations. clear Hparts.
  destruct parts as [|a [|b [|c [|d [|e [|f [|g l]]]]]]];
    try discriminate Hlen'.
  change (raw = [a; b; c; transit_time; d; e; f]) in Hr.
  rewrite !py_sum_cons, py_sum_nil in Hsum'.
  apply Forall_cons in Hnn' as [Ha Hnn'].
  apply Forall_cons in Hnn' as [Hb Hnn'].
  apply Forall_cons in Hnn' as [Hc Hnn'].
  apply Forall_cons in Hnn' as [Hd Hnn'].
  apply Forall_cons in Hnn' as [He Hnn'].
  apply Forall_cons in Hnn' as [Hf _].
  rewrite Hr in Hraw. rewrite !py_sum_cons, py_sum_nil in Hraw.
  rewrite Hgen, Hr. csimpl. rewrite !py_sum_cons, py_sum_nil.
  split; [f_equal; lia|].
  split; [repeat constructor; lia|].
  rewrite !filter_cons, filter_nil.
  split; [repeat case_decide; simpl; lia|].
  intros Hrest. unfold rest_time in *. repeat case_decide; simpl; lia.
Qed.

Lemma generate_step_durations_excess_witness :
  let raw := assemble 24 (fix_remainder (55 - 24) [6; 6; 6; 6; 6; 0]) in
  let durations := distribute 55 24 [6; 6; 6; 6; 6; 0] in
  durations !! 3%nat = Some 24 ∧
  Forall (λ d, 0 ≤ d) raw ∧
  Py.sum durations = 55 + Z.of_nat (length (filter (λ d, d = 0) raw)) ∧
  (24 < 55 → Py.sum durations ≤ 55 + 5).
Proof.
  apply (generate_step_durations_excess 55 24 [6; 6; 6; 6; 6; 0]).
  - reflexivity.
  - lia.
  - repeat constructor; lia.
  - vm_compute. discriminate.
Defined.

(** X3 (lines 60-83 on equal shares): take any integers for what lines 50
    and 58 have computed, a [transit_time] of at least 1 and six equal
    shares of at least 1 that add up to at most [rest_time].  Then the
    remainder of [rest_time] goes to the first stage, the first of the
    largest shares for [max]; the other stages keep the share, and the
    durations add up to [total_time]. *)
Theorem generate_step_durations_equal_shares
    (total_time transit_time share : Z) :
  1 ≤ transit_time → 1 ≤ share →
  6 * share ≤ total_time - transit_time →
  let remainder := total_time - transit_time - 6 * share in
  distribute total_time transit_time (replicate 6 share) =
    [share + remainder; share; share; transit_time; share; share; share] ∧
  Py.sum (distribute total_time transit_time (replicate 6 share))
    = total_time.
Proof.
  intros Htransit Hshare Hle remainder.
  destruct (distribute_sum total_time transit_time (replicate 6 share)
              eq_refl) as [Hraw Hgen].
  assert (Hfix : fix_remainder (total_time - transit_time)
                   (replicate 6 share) =
                 [share + remainder; share; share; share; share; share]).
  { unfold fix_remainder. simpl. rewrite !py_sum_cons, py_sum_nil.
    rewrite !Z.ltb_irrefl. simpl.
    destruct (Z.eqb_spec (total_time - transit_time
                - (share + (share + (share + (share
                   + (share + (share + 0))))))) 0) as [Heq|Hne]; simpl;
      unfold remainder; repeat f_equal; lia. }
  rewrite Hfix in Hgen, Hraw.
  change (assemble transit_time _)
    with [share + remainder; share; share; transit_time;
          share; share; share] in Hgen, Hraw.
  rewrite Hgen. csimpl.
  assert (0 ≤ remainder) by (unfold remainder; lia).
  rewrite !Z.max_r by lia. split; [done|].
  rewrite !py_sum_cons, py_sum_nil in *. lia.
Qed.

Lemma generate_step_durations_equal_shares_witness :
  let remainder := 55 - 24 - 6 * 5 in
  distribute 55 24 (replicate 6 5) =
    [5 + remainder; 5; 5; 24; 5; 5; 5] ∧
  Py.sum (distribute 55 24 (replicate 6 5)) = 55.
Proof.
  apply (generate_step_durations_equal_shares 55 24 5); lia.
Defined.

(** ** Tracking numbers *)

Lemma py_str_inj (a b : Z) : Py.str a = Py.str b → a = b.
Proof.
  unfold Py.str. intros Heq. apply DecimalZ.to_int_inj.
  assert (Hnn : ∀ z, Z.to_int z ≠ Decimal.Pos Decimal.Nil
                     ∧ Z.to_int z ≠ Decimal.Neg Decimal.Nil).
  { intros [|p|p]; simpl; split; try done;
      intros [= Hp]; by apply DecimalPos.Unsigned.to_uint_nonnil in Hp. }
  apply (f_equal NilZero.int_of_string) in Heq.
  rewrite !NilZero.isi in Heq by apply Hnn. congruence.
Qed.

(** X4 (when tracking numbers collide): the number the factory answers
    is the decimal writing of its draw, whatever the collection holds, so
    that two orders get the same tracking number exactly when the same
    number is drawn for both. *)
Theorem tracking_numbers_collide_iff
    (username username' : string) (quantity quantity' : Z)
    (destination destination' : string) (r r' : CreateDraws)
    (db db' : Store) :
  (generate_tracking_for username quantity destination r db).2
    = Py.str (cd_tracking r) ∧
  ((generate_tracking_for username quantity destination r db).2
     = (generate_tracking_for username' quantity' destination' r' db').2
   ↔ cd_tracking r = cd_tracking r').
Proof.
  split; [done|]. simpl. split; [apply py_str_inj|by intros ->].
Qed.

(** ** The chance of a cancellation *)

(** X5 (chance of a cancellation): for the delays the scheduler draws, 1
    to 9 days, the chance is [5 + 5 * days], between 10 and 50, so that the
    cap at 100 is not reached: a resolver that finds its shipment resumes
    it on every draw above 50 and cancels it on every draw up to 10.  And a
    draw that cancels after some delay cancels after every longer one. *)
Theorem incident_chance_range (days days' draw : Z) :
  1 ≤ days ≤ 9 →
  incident_chance days = 5 + 5 * days ∧
  10 ≤ incident_chance days ≤ 50 ∧
  (50 < draw → incident_outcome days draw = false) ∧
  (draw ≤ 10 → incident_outcome days draw = true) ∧
  (days ≤ days' → incident_outcome days draw = true →
   incident_outcome days' draw = true).
Proof.
  intros Hdays. unfold incident_outcome, incident_chance.
  split_and!; [lia..| | |].
  - intros Hd. apply Z.leb_gt. lia.
  - intros Hd. apply Z.leb_le. lia.
  - intros Hle Ho%Z.leb_le. apply Z.leb_le. lia.
Qed.

Lemma incident_chance_range_witness :
  incident_chance 5 = 5 + 5 * 5 ∧
  10 ≤ incident_chance 5 ≤ 50 ∧
  (50 < 80 → incident_outcome 5 80 = false) ∧
  (80 ≤ 10 → incident_outcome 5 80 = true) ∧
  (5 ≤ 9 → incident_outcome 5 80 = true → incident_outcome 9 80 = true).
Proof. apply (incident_chance_range 5 9 80). lia. Defined.

(** ** One write, one document *)

(** [update_one] rewrites the first document of the tracking number, in
    place. *)
Lemma update_one_first (t : string) (u : Update) (db : Store) (d : Shipment) :
  find_one t db = Some d →
  ∃ i, db !! i = Some d ∧
       (∀ k c, (k < i)%nat → db !! k = Some c → tracking c ≠ t) ∧
       update_one t u db = <[i := apply_update u d]> db.
Proof.
  induction db as [|x db IH]; simpl; [done|].
  case_decide as Hx.
  - intros [= ->]. exists 0%nat. split_and!; [done| |done]. intros; lia.
  - intros (i & Hi & Hfirst & Hupd)%IH. exists (S i).
    split_and!; [done| |by rewrite Hupd].
    intros [|k] c Hk Hc; simplify_eq/=; [done|].
    apply (Hfirst k); [lia|done].
Qed.

(** X6 (the resolver writes to one document): a run of [handle_incident]
    leaves the collection as it is, or rewrites one document in place: the
    first one of its tracking number.  Every other document, a later one of
    the same number included, is untouched, and in the document it
    rewrites the stage, the time in the stage, the durations, the two
    incident flags and [archived] are as before. *)
Theorem handle_incident_frame
    (t : string) (days draw : Z) (now : string) (db db' : Store)
    (res : Resolution) :
  handle_incident t days draw now db = (db', res) →
  (res = NotFound ∧ db' = db) ∨
  ∃ i d d',
    db !! i = Some d ∧ tracking d = t ∧
    (∀ k c, (k < i)%nat → db !! k = Some c → tracking c ≠ t) ∧
    db' = <[i := d']> db ∧
    (∀ k, k ≠ i → db' !! k = db !! k) ∧
    tracking d' = t ∧ same_progress d d' ∧
    step_durations d' = step_durations d ∧
    incident_decision d' = incident_decision d ∧
    incident_checked d' = incident_checked d ∧
    archived d' = archived d.
Proof.
  unfold handle_incident.
  destruct (find_one t db) as [d|] eqn:Hfind; [|intros [= <- <-]; by left].
  intros Hres. right.
  pose proof (proj2 (find_one_Some _ _ _ Hfind)) as Ht.
  destruct (incident_outcome days draw); simplify_eq;
    [destruct (update_one_first _ (cancel_update now) _ _ Hfind)
       as (i & Hi & Hfirst & ->)
    |destruct (update_one_first _ (resume_update now) _ _ Hfind)
       as (i & Hi & Hfirst & ->)];
    exists i, d; eexists; (split_and!; [done|done|done|done| |done..]);
    intros k Hk; by rewrite list_lookup_insert_ne.
Qed.

Lemma handle_incident_frame_witness :
  let db := Sys.db (reached to_incident) in
  (Resumed = NotFound ∧
   (handle_incident "10000003" 5 80 "Tue Nov  3 09:00:50 2026" db).1 = db) ∨
  ∃ i d d',
    db !! i = Some d ∧ tracking d = "10000003" ∧
    (∀ k c, (k < i)%nat → db !! k = Some c → tracking c ≠ "10000003") ∧
    (handle_incident "10000003" 5 80 "Tue Nov  3 09:00:50 2026" db).1
      = <[i := d']> db ∧
    (∀ k, k ≠ i →
          (handle_incident "10000003" 5 80 "Tue Nov  3 09:00:50 2026" db).1
            !! k = db !! k) ∧
    tracking d' = "10000003" ∧ same_progress d d' ∧
    step_durations d' = step_durations d ∧
    incident_decision d' = incident_decision d ∧
    incident_checked d' = incident_checked d ∧
    archived d' = archived d.
Proof.
  apply (handle_incident_frame "10000003" 5 80 "Tue Nov  3 09:00:50 2026").
  vm_compute. reflexivity.
Defined.

(** ** The archive route *)

Lemma update_one_idemp (t : string) (u : Update) (db : Store) :
  (∀ d, apply_update u (apply_update u d) = apply_update u d) →
  update_one t u (update_one t u db) = update_one t u db.
Proof.
  intros Hu. induction db as [|d db IH]; simpl; [done|].
  case_decide as Hd; simpl.
  - rewrite decide_True by (by rewrite apply_update_tracking). by rewrite Hu.
  - rewrite decide_False by done. by rewrite IH.
Qed.

(** X7 (archiving, read back): [archive_shipment] answers 404 exactly
    when no document has the tracking number, and then changes nothing.
    Otherwise it answers 200; after it, [get_one_shipment] shows the same
    shipment with [archived] set and nothing else changed, the answers for
    every other tracking number are as before, and archiving a second time
    changes nothing more. *)
Theorem archive_shipment_read_back (t : string) (db : Store) :
  let db' := (archive_shipment t db).1 in
  match find_one t db with
  | None =>
      archive_shipment t db = (db, 404) ∧
      get_one_shipment t db = (Error "Invalide", 404)
  | Some d =>
      (archive_shipment t db).2 = 200 ∧
      get_one_shipment t db' =
        (One (mkView (tracking d) (client d) (quantity d) (destination d)
                (status d) (history d) true (current_step_index d)), 200)
  end ∧
  (∀ t', t' ≠ t → get_one_shipment t' db' = get_one_shipment t' db) ∧
  tracking <$> db' = tracking <$> db ∧
  archive_shipment t db' = (db', (archive_shipment t db).2).
Proof.
  intros db'. unfold db', archive_shipment, get_one_shipment.
  destruct (find_one t db) as [d|] eqn:Hfind; simpl.
  - rewrite (update_one_find _ archive_update _ _ Hfind).
    split_and!; [done|done| |apply update_one_trackings|].
    + intros t' Hne. by rewrite update_one_find_ne.
    + by rewrite update_one_idemp.
  - rewrite Hfind. done.
Qed.

(** ** What the passes leave alone *)

(** A document outside the snapshot of a pass, under a tracking number of
    its own, is out of the reach of the pass. *)
Lemma simulation_tick_frame
    (env : nat → IterEnv) (delta : Q) (db : Store) :
  NoDup (tracking <$> db) →
  Forall2 (λ d d', tracking d' = tracking d ∧
                   (finished d = true ∨ archived d = true → d' = d))
          db (simulation_tick env delta db).1.1.
Proof.
  intros Hnd. unfold simulation_tick.
  set (T := tracking <$> find_active db).
  assert (Hall : Forall2 (λ d d', tracking d' = tracking d ∧
                                  (tracking d ∉ T → d' = d))
                   db (process_all env delta 0 (find_active db) db).1.1).
  { apply process_all_Forall2.
    - by intros x.
    - intros x y z [Hxy Hp] [Hyz Hq]. split; [congruence|].
      intros Ht. specialize (Hp Ht). subst y. by apply Hq.
    - intros s e db0 Hs.
      assert (Hin : tracking s ∈ T) by (by apply list_elem_of_fmap_2).
      apply process_shipment_Forall2; try done;
        intros; (split; [apply apply_update_tracking|]); intros Hout;
        destruct Hout; congruence. }
  apply Forall2_same_length_lookup. split; [by eapply Forall2_length|].
  intros i d d' Hd Hd'.
  destruct (Forall2_lookup_lr _ _ _ _ _ _ Hall Hd Hd') as [Ht Hout].
  split; [done|]. intros Hdone. apply Hout.
  intros (s & Hts & [[Hfin Harch] Hs]%list_elem_of_filter)%list_elem_of_fmap.
  assert (s = d) as ->.
  { apply (NoDup_fmap_eq tracking db); [done..| |done].
    apply list_elem_of_lookup; eauto. }
  destruct Hdone; congruence.
Qed.

(** X8 (finished and archived shipments are left alone): with distinct
    tracking numbers, a run of scheduler passes, however long and however
    it ends, leaves every shipment that was finished or archived when it
    began exactly as it was, at its place in the collection. *)
Theorem simulation_loop_frame
    (ticks : list (Q * (nat → IterEnv))) (db : Store) :
  NoDup (tracking <$> db) →
  Forall2 (λ d d', finished d = true ∨ archived d = true → d' = d)
          db (simulation_loop ticks db).1.1.
Proof.
  revert db. induction ticks as [|[delta env] ticks IH]; intros db Hnd; simpl.
  { by apply Forall_Forall2_diag, Forall_true. }
  pose proof (simulation_tick_frame env delta db Hnd) as H1.
  pose proof (simulation_tick_trackings env delta db) as Ht.
  destruct (simulation_tick env delta db) as [[db1 th1] [ex|]]; simpl in *.
  { eapply Forall2_impl; [done|]. by intros d d' [_ ?]. }
  specialize (IH db1 ltac:(by rewrite Ht)).
  destruct (simulation_loop ticks db1) as [[db2 th2] r]. simpl in *.
  eapply Forall2_trans; [|exact H1|exact IH].
  intros x y z [_ Hxy] Hyz Hdone. specialize (Hxy Hdone). subst y.
  by apply Hyz.
Qed.

Lemma simulation_loop_frame_witness :
  let db := (archive_shipment "10000002" two_shipments).1 in
  Forall2 (λ d d', finished d = true ∨ archived d = true → d' = d)
          db (simulation_loop (steady_ticks 3 1) db).1.1.
Proof.
  apply (simulation_loop_frame (steady_ticks 3 1)).
  apply (bool_decide_unpack _). vm_compute. exact I.
Defined.

(** ** Every step of the server, as a change of the collection *)

Lemma step_db (a : Sys.Action) (σ σ' : Sys.State) :
  Sys.step a σ = Some σ' →
  Sys.db σ' = Sys.db σ ∨
  (∃ t u, server_update u ∧ Sys.db σ' = update_one t u (Sys.db σ)) ∨
  (∃ d0, as_created d0 ∧ Sys.db σ' = insert_one d0 (Sys.db σ)).
Proof.
  destruct a as [delta|e|i draw|i|i now|t|username quantity destination r];
    simpl; intros Hstep.
  - destruct (Sys.sched σ) as [? [|]|]; simplify_eq. by left.
  - destruct (Sys.sched σ) as [delta [|s work]|]; simplify_eq.
    pose proof (process_shipment_iteration e delta s (Sys.db σ)) as Hit.
    destruct (process_shipment e delta s (Sys.db σ)) as [ex|[db' started]];
      simplify_eq; simpl; [by left|].
    inversion Hit; subst; [|by left|..]; right; left;
      eexists _, _; (split; [|done]); by constructor.
  - destruct (Sys.resolvers σ !! i) as [[t days []]|]; simplify_eq.
    destruct (Sys.lock σ); simplify_eq. by left.
  - destruct (Sys.resolvers σ !! i) as [[t days []]|]; simplify_eq.
    destruct (find_one t (Sys.db σ)); simplify_eq; by left.
  - destruct (Sys.resolvers σ !! i) as [[t days []]|]; simplify_eq.
    right. left. eexists _, _. split; [|done].
    destruct outcome; constructor.
  - simplify_eq. simpl. unfold archive_shipment.
    destruct (find_one t (Sys.db σ)); simpl; [|by left].
    right. left. eexists _, _. split; [|done]. constructor.
  - simplify_eq. simpl. right. right. eexists. split; [|done].
    by eexists _, _, _, _.
Qed.

Lemma step_Forall2 (R : Shipment → Shipment → Prop) `{!Reflexive R}
    (a : Sys.Action) (σ σ' : Sys.State) :
  (∀ u d, server_update u → R d (apply_update u d)) →
  Sys.step a σ = Some σ' →
  ∃ new, Forall2 R (Sys.db σ ++ new) (Sys.db σ').
Proof.
  intros Hupd [->|[(t & u & Hu & ->)|(d0 & _ & ->)]]%step_db.
  - exists []. rewrite app_nil_r. by apply Forall_Forall2_diag, Forall_true.
  - exists []. rewrite app_nil_r. apply update_one_Forall2; [done|].
    intros d _. by apply Hupd.
  - exists [d0]. by apply Forall_Forall2_diag, Forall_true.
Qed.

Lemma run_Forall2 (R : Shipment → Shipment → Prop)
    `{!Reflexive R, !Transitive R}
    (acts : list Sys.Action) (σ σ' : Sys.State) :
  (∀ u d, server_update u → R d (apply_update u d)) →
  Sys.run acts σ = Some σ' →
  ∃ new, Forall2 R (Sys.db σ ++ new) (Sys.db σ').
Proof.
  intros Hupd. revert σ. induction acts as [|a acts IH]; intros σ; simpl.
  - intros [= ->]. exists []. rewrite app_nil_r.
    by apply Forall_Forall2_diag, Forall_true.
  - destruct (Sys.step a σ) as [σ1|] eqn:Hstep; [|done]. simpl.
    intros (new2 & H2)%IH.
    destruct (step_Forall2 R a σ σ1 Hupd Hstep) as (new1 & H1).
    exists (new1 ++ new2). rewrite app_assoc. etrans; [|done].
    apply Forall2_app; [done|]. by apply Forall_Forall2_diag, Forall_true.
Qed.

#[local] Instance grows_refl : Reflexive grows.
Proof. by intros d. Qed.

#[local] Instance grows_trans : Transitive grows.
Proof.
  intros d1 d2 d3 [] []. split; try congruence; [by etrans|auto].
Qed.

Lemma server_update_grows (u : Update) (d : Shipment) :
  server_update u → grows d (apply_update u d).
Proof.
  intros Hu. destruct Hu; fields; split; try done;
    cbn [history]; by apply prefix_app_r.
Qed.

(** X9 (creation fields and history): along every interleaving of
    scheduler iterations, resolver steps, archive requests and creations,
    from any state, no document is removed or moved; the tracking number,
    client, quantity, destination, creation time, stage durations and
    incident decision of a document stay as they were; its history is
    only ever extended at the end; and [incident_checked], once set,
    stays set. *)
Theorem documents_grow
    (acts : list Sys.Action) (σ σ' : Sys.State) :
  Sys.run acts σ = Some σ' →
  ∃ new, Forall2 grows (Sys.db σ ++ new) (Sys.db σ').
Proof.
  apply run_Forall2; [apply _..|]. intros u d. apply server_update_grows.
Qed.

Lemma documents_grow_witness :
  ∃ new, Forall2 grows (Sys.db (Sys.initial []) ++ new) (Sys.db (reached race)).
Proof.
  apply (documents_grow race). vm_compute. reflexivity.
Defined.

(** ** The shape of the stored shipments *)

Lemma update_one_Forall (P : Shipment → Prop) (t : string) (u : Update)
    (db : Store) :
  (∀ d, P d → P (apply_update u d)) →
  Forall P db → Forall P (update_one t u db).
Proof.
  intros Hu. induction 1 as [|d db Hd Hdb IH]; simpl; [done|].
  case_decide; constructor; auto.
Qed.

Lemma new_shipment_well_formed
    (username : string) (quantity : Z) (destination : string)
    (r : CreateDraws) :
  well_formed (new_shipment username quantity destination r).
Proof.
  destruct (generate_step_durations_shape (cd_total_time r)
              (cd_transit_prop r) (cd_rnd r)) as [Hlen Hall].
  by split.
Qed.

(** A write that leaves the stage alone and resets no [finished]. *)
Lemma well_formed_kept (u : Update) (d : Shipment) :
  current_step_index (apply_update u d) = current_step_index d →
  step_durations (apply_update u d) = step_durations d →
  (finished d = true → finished (apply_update u d) = true) →
  well_formed d → well_formed (apply_update u d).
Proof.
  intros Hi Hd Hf [Hidx Hlen Hpos Hlast].
  split; rewrite ?Hi, ?Hd; auto.
Qed.

Lemma well_formed_advance
    (e : IterEnv) (i : Z) (st : string) (d : Shipment) :
  0 ≤ i ≤ 6 → well_formed d →
  well_formed (apply_update (advance_update e i st) d).
Proof.
  intros Hi [Hidx Hlen Hpos Hlast]. rewrite apply_advance_update.
  split; cbn [current_step_index step_durations finished]; try done.
  intros ->. done.
Qed.

Lemma unfinished_below_last (s : Shipment) :
  well_formed s → finished s = false → 0 ≤ current_step_index s < 6.
Proof.
  intros [Hidx _ _ Hlast] Hfin.
  destruct (decide (current_step_index s = 6)) as [Heq|Hne]; [|lia].
  rewrite (Hlast Heq) in Hfin. done.
Qed.

Lemma getitem_in_range {A} (l : list A) (i : Z) :
  0 ≤ i < Z.of_nat (length l) → ∃ x, Py.getitem l i = inr x.
Proof.
  intros Hi. unfold Py.getitem.
  destruct (Z.ltb_spec i 0); [lia|].
  destruct (Z.ltb_spec i 0); [lia|].
  destruct (Z.leb_spec (Z.of_nat (length l)) i); [lia|]. simpl.
  destruct (lookup_lt_is_Some_2 l (Z.to_nat i)) as [x ->]; [lia|]. eauto.
Qed.

(** On a well-formed, unfinished snapshot entry the loop body raises only
    when the store refuses its write. *)
Lemma process_shipment_raises
    (e : IterEnv) (delta : Q) (s : Shipment) (db : Store) (ex : Py.exn) :
  well_formed s → finished s = false →
  process_shipment e delta s db = inl ex →
  ex = Py.StoreError ∧ it_fail e = true.
Proof.
  intros Hwf Hfin.
  pose proof (unfinished_below_last s Hwf Hfin) as Hidx.
  destruct Hwf as [_ Hlen _ _].
  unfold process_shipment, write. rewrite last_index.
  destruct (Z.leb_spec 6 (current_step_index s)); [lia|].
  destruct (default false (on_hold s)); [done|].
  destruct (getitem_in_range (step_durations s) (current_step_index s))
    as [dur ->]; [lia|]. simpl.
  destruct (incident_due s).
  { destruct (it_fail e); simpl; intros; by simplify_eq. }
  destruct (Qle_bool _ _).
  - destruct (getitem_in_range statuses (current_step_index s + 1))
      as [st ->]; [simpl; lia|]. simpl.
    destruct (it_fail e); simpl; intros; by simplify_eq.
  - destruct (it_fail e); simpl; intros; by simplify_eq.
Qed.

Lemma step_shape (a : Sys.Action) (σ σ' : Sys.State) :
  Sys.step a σ = Some σ' → shape_inv σ → shape_inv σ'.
Proof.
  intros Hstep [Hdb Hrest Hsched]. unfold Sys.rest in *.
  destruct a as [delta|e|i draw|i|i now|t|username quantity destination r];
    simpl in Hstep.
  - destruct (Sys.sched σ) as [? [|]|]; simplify_eq.
    split; simpl; [done| |done]. unfold find_active.
    apply Forall_forall. intros s [[Hf _] Hs]%list_elem_of_filter.
    split; [|done]. by apply (proj1 (Forall_forall _ _) Hdb).
  - destruct (Sys.sched σ) as [delta [|s work]|] eqn:Hs; simplify_eq.
    apply Forall_cons in Hrest as [[Hwf Hfin] Hrest].
    pose proof (unfinished_below_last s Hwf Hfin) as Hidx.
    pose proof (process_shipment_iteration e delta s (Sys.db σ)) as Hit.
    destruct (process_shipment e delta s (Sys.db σ)) as [ex|[db' started]]
      eqn:Hp; simplify_eq.
    { apply process_shipment_raises in Hp as [-> _]; [|done..].
      by split. }
    split; simpl; [|done|done].
    inversion Hit; subst; try done; try lia.
    + apply update_one_Forall; [|done]. intros d. by apply well_formed_kept.
    + apply update_one_Forall; [|done]. intros d.
      apply well_formed_advance. lia.
    + apply update_one_Forall; [|done]. intros d. by apply well_formed_kept.
  - destruct (Sys.resolvers σ !! i) as [[t days []]|]; simplify_eq.
    destruct (Sys.lock σ); by simplify_eq.
  - destruct (Sys.resolvers σ !! i) as [[t days []]|]; simplify_eq.
    destruct (find_one t (Sys.db σ)); by simplify_eq.
  - destruct (Sys.resolvers σ !! i) as [[t days []]|]; simplify_eq.
    split; simpl; [|done..].
    apply update_one_Forall; [|done]. intros d.
    destruct outcome; by apply well_formed_kept.
  - simplify_eq. split; simpl; [|done..]. unfold archive_shipment.
    destruct (find_one t (Sys.db σ)); simpl; [|done].
    apply update_one_Forall; [|done]. intros d. by apply well_formed_kept.
  - simplify_eq. split; simpl; [|done..]. unfold insert_one.
    apply Forall_app. split; [done|]. apply Forall_singleton.
    apply new_shipment_well_formed.
Qed.

Lemma run_shape (acts : list Sys.Action) (σ σ' : Sys.State) :
  Sys.run acts σ = Some σ' → shape_inv σ → shape_inv σ'.
Proof.
  revert σ. induction acts as [|a acts IH]; intros σ; simpl.
  - by intros [= ->].
  - destruct (Sys.step a σ) as [σ1|] eqn:Hstep; [|done]. simpl.
    intros Hrun Hinv. apply (IH σ1); [done|]. by eapply step_shape.
Qed.

Lemma initial_shape (db0 : Store) :
  Forall well_formed db0 → shape_inv (Sys.initial db0).
Proof. intros Hdb. by split. Qed.

(** X10 (shape of the stored shipments): the server starts on a collection
    of well-formed shipments, the empty one for instance.  Then in every
    state it reaches, along any interleaving, every shipment is at a stage
    from 0 to 6, has seven stage durations of at least 1, and is finished
    if it is at the last stage. *)
Theorem reachable_well_formed
    (db0 : Store) (acts : list Sys.Action) (σ : Sys.State) (d : Shipment) :
  Forall well_formed db0 →
  Sys.run acts (Sys.initial db0) = Some σ →
  d ∈ Sys.db σ →
  0 ≤ current_step_index d ≤ 6 ∧
  length (step_durations d) = 7%nat ∧
  Forall (λ x, 1 ≤ x) (step_durations d) ∧
  (finished d = false → current_step_index d < 6).
Proof.
  intros Hdb0 Hrun Hd.
  destruct (run_shape _ _ _ Hrun (initial_shape db0 Hdb0)) as [Hdb _ _].
  pose proof (proj1 (Forall_forall _ _) Hdb d Hd) as Hwf.
  split_and!; try apply Hwf.
  intros Hfin. by apply unfinished_below_last.
Qed.

Lemma reachable_well_formed_witness :
  let d := default shipment_c (Sys.db (reached race) !! 0%nat) in
  0 ≤ current_step_index d ≤ 6 ∧
  length (step_durations d) = 7%nat ∧
  Forall (λ x, 1 ≤ x) (step_durations d) ∧
  (finished d = false → current_step_index d < 6).
Proof.
  apply (reachable_well_formed [] race (reached race)).
  - constructor.
  - vm_compute. reflexivity.
  - apply list_elem_of_lookup. exists 0%nat. vm_compute. reflexivity.
Defined.

(** X11 (no [IndexError] in the scheduler): from a collection of
    well-formed shipments, along any interleaving, the scheduler thread is
    never ended by an [IndexError]; the entry it is about to process is
    unfinished and below the last stage, so that the close-out branch of
    lines 140-146 is not taken; and its iteration on that entry raises
    only if the store refuses the write. *)
Theorem scheduler_raises_only_store_errors
    (db0 : Store) (acts : list Sys.Action) (σ : Sys.State) :
  Forall well_formed db0 →
  Sys.run acts (Sys.initial db0) = Some σ →
  Sys.sched σ ≠ Sys.Dead Py.IndexError ∧
  ∀ delta s work, Sys.sched σ = Sys.Running delta (s :: work) →
    finished s = false ∧ 0 ≤ current_step_index s < 6 ∧
    ∀ e, (it_fail e = false →
          ∃ σ', Sys.step (Sys.TickNext e) σ = Some σ' ∧
                Sys.sched σ' = Sys.Running delta work) ∧
         ∀ ex, process_shipment e delta s (Sys.db σ) = inl ex →
               ex = Py.StoreError ∧ it_fail e = true.
Proof.
  intros Hdb0 Hrun.
  destruct (run_shape _ _ _ Hrun (initial_shape db0 Hdb0))
    as [Hdb Hrest Hsched].
  split; [done|]. intros delta s work Hs. unfold Sys.rest in Hrest.
  rewrite Hs in Hrest. apply Forall_cons in Hrest as [[Hwf Hfin] _].
  split_and!; [done|by apply unfinished_below_last..|]. intros e.
  split; [|intros ex; by apply process_shipment_raises].
  intros Hfail. simpl. rewrite Hs.
  destruct (process_shipment e delta s (Sys.db σ)) as [ex|[db' started]]
    eqn:Hp; [|by eexists].
  apply process_shipment_raises in Hp as [_ ?]; [congruence|done..].
Qed.

Lemma scheduler_raises_only_store_errors_witness :
  let σ := reached (to_transit ++ [Sys.TickStart 1]) in
  Sys.sched σ ≠ Sys.Dead Py.IndexError ∧
  ∀ delta s work, Sys.sched σ = Sys.Running delta (s :: work) →
    finished s = false ∧ 0 ≤ current_step_index s < 6 ∧
    ∀ e, (it_fail e = false →
          ∃ σ', Sys.step (Sys.TickNext e) σ = Some σ' ∧
                Sys.sched σ' = Sys.Running delta work) ∧
         ∀ ex, process_shipment e delta s (Sys.db σ) = inl ex →
               ex = Py.StoreError ∧ it_fail e = true.
Proof.
  apply (scheduler_raises_only_store_errors []
           (to_transit ++ [Sys.TickStart 1])); [constructor|].
  vm_compute. reflexivity.
Defined.

(** ** The status and the history *)

Lemma step_Forall (P : Shipment → Prop) (a : Sys.Action) (σ σ' : Sys.State) :
  (∀ u d, server_update u → P d → P (apply_update u d)) →
  (∀ d, as_created d → P d) →
  Sys.step a σ = Some σ' → Forall P (Sys.db σ) → Forall P (Sys.db σ').
Proof.
  intros Hupd Hnew [->|[(t & u & Hu & ->)|(d0 & Hd0 & ->)]]%step_db Hall.
  - done.
  - apply update_one_Forall; [|done]. intros d. by apply Hupd.
  - apply Forall_app. split; [done|]. apply Forall_singleton. by apply Hnew.
Qed.

Lemma run_Forall (P : Shipment → Prop)
    (acts : list Sys.Action) (σ σ' : Sys.State) :
  (∀ u d, server_update u → P d → P (apply_update u d)) →
  (∀ d, as_created d → P d) →
  Sys.run acts σ = Some σ' → Forall P (Sys.db σ) → Forall P (Sys.db σ').
Proof.
  intros Hupd Hnew. revert σ. induction acts as [|a acts IH]; intros σ; simpl.
  - by intros [= ->].
  - destruct (Sys.step a σ) as [σ1|] eqn:Hstep; [|done]. simpl.
    intros Hrun Hall. apply (IH σ1); [done|]. by eapply step_Forall.
Qed.

Lemma server_update_recorded (u : Update) (d : Shipment) :
  server_update u → status_recorded d → status_recorded (apply_update u d).
Proof.
  intros Hu (label & time & Hlast & Hlabel). unfold status_recorded.
  destruct Hu; fields; try (by exists label, time);
    eexists _, _; (split; [apply last_snoc|]); eauto.
Qed.

(** X12 (the status is the last history entry): the server starts on a
    collection in which the last history entry of every shipment carries
    its status, the empty one for instance.  Then in every state it
    reaches the history of every shipment is not empty, and the label of
    its last entry is the status of the shipment; the one exception is a
    declared incident, whose entry is labelled "Incident signalé" while the
    status also tells the estimated delay. *)
Theorem status_is_last_history_entry
    (db0 : Store) (acts : list Sys.Action) (σ : Sys.State) (d : Shipment) :
  Forall status_recorded db0 →
  Sys.run acts (Sys.initial db0) = Some σ →
  d ∈ Sys.db σ →
  ∃ label time,
    last (history d) = Some (label, time) ∧
    (label = status d ∨
     (label = "Incident signalé" ∧ ∃ days, status d = incident_status days)).
Proof.
  intros Hdb0 Hrun Hd.
  apply (proj1 (Forall_forall status_recorded (Sys.db σ))); [|done].
  apply (run_Forall _ _ _ _ server_update_recorded) in Hrun; [done| |done].
  intros d0 (u & q & dst & r & ->).
  exists "Commande confirmée", (cd_now r). eauto.
Qed.

Lemma status_is_last_history_entry_witness :
  let d := default shipment_c (Sys.db (reached to_found) !! 0%nat) in
  ∃ label time,
    last (history d) = Some (label, time) ∧
    (label = status d ∨
     (label = "Incident signalé" ∧ ∃ days, status d = incident_status days)).
Proof.
  apply (status_is_last_history_entry [] to_found (reached to_found)).
  - constructor.
  - vm_compute. reflexivity.
  - apply list_elem_of_lookup. exists 0%nat. vm_compute. reflexivity.
Defined.

(** ** Incidents are for the shipments drawn for one *)

Lemma getitem_elem_of {A} (l : list A) (i : Z) (x : A) :
  Py.getitem l i = inr x → x ∈ l.
Proof.
  unfold Py.getitem. destruct (_ || _); [done|].
  destruct (l !! _) eqn:Hl; intros; simplify_eq.
  apply list_elem_of_lookup. eauto.
Qed.

Lemma quiet_kept (u : Update) (d : Shipment) :
  incident_decision (apply_update u d) = incident_decision d →
  incident_checked (apply_update u d) = incident_checked d →
  on_hold (apply_update u d) = on_hold d →
  status (apply_update u d) = status d ∨ status (apply_update u d) ∈ statuses →
  quiet d → quiet (apply_update u d).
Proof.
  intros Hd Hc Hh Hs Hq. unfold quiet. rewrite Hd, Hc, Hh.
  intros Hdec. destruct (Hq Hdec) as (? & ? & ?). split_and!; [done..|].
  destruct Hs as [->|?]; done.
Qed.

Lemma quiet_decided (u : Update) (d : Shipment) :
  incident_decision (apply_update u d) = incident_decision d →
  incident_decision d = true → quiet (apply_update u d).
Proof. intros Hd Hdec. unfold quiet. rewrite Hd, Hdec. done. Qed.

(** A write to the document that [find_one] returns. *)
Lemma update_one_Forall_first (P : Shipment → Prop)
    (t : string) (u : Update) (db : Store) :
  (∀ d, find_one t db = Some d → P (apply_update u d)) →
  Forall P db → Forall P (update_one t u db).
Proof.
  intros Hu. induction 1 as [|d db Hd Hdb IH]; simpl in *; [done|].
  case_decide as Ht.
  - constructor; [|done]. apply Hu. done.
  - constructor; [done|]. apply IH. intros d'. apply Hu.
Qed.

Lemma decision_due_kept (t : string) (u : Update) (db : Store)
    (work : list Shipment) :
  (∀ d, incident_decision (apply_update u d) = incident_decision d) →
  (∀ s d, s ∈ work → incident_due s = true →
          find_one (tracking s) db = Some d → incident_decision d = true) →
  ∀ s d, s ∈ work → incident_due s = true →
         find_one (tracking s) (update_one t u db) = Some d →
         incident_decision d = true.
Proof.
  intros Hu Hdue s d' Hs Hd. rewrite find_one_update_one.
  destruct (find_one (tracking s) db) as [d|] eqn:Hf; simpl; [|done].
  intros [= <-]. case_decide; [rewrite Hu|]; by eapply Hdue.
Qed.

Lemma step_decision (a : Sys.Action) (σ σ' : Sys.State) :
  Sys.step a σ = Some σ' → decision_inv σ → decision_inv σ'.
Proof.
  intros Hstep [Honce Hquiet Hdue].
  pose proof (step_Once _ _ _ Hstep Honce) as Honce'.
  split; [done|..]; clear Honce'; unfold Sys.Once, Sys.rest in *.
  - (* every stored shipment is quiet *)
    destruct a as [delta|e|i draw|i|i now|t|username quantity destination r];
      simpl in Hstep.
    + destruct (Sys.sched σ) as [? [|]|]; by simplify_eq.
    + destruct (Sys.sched σ) as [delta [|s work]|] eqn:Hs; simplify_eq.
      pose proof (process_shipment_iteration e delta s (Sys.db σ)) as Hit.
      destruct (process_shipment e delta s (Sys.db σ)) as [ex|[db' started]];
        simplify_eq; simpl; [done|].
      inversion Hit; subst; try done.
      * apply update_one_Forall; [|done]. intros d. apply quiet_kept; auto.
      * apply update_one_Forall_first; [|done]. intros d Hd.
        apply quiet_decided; [done|]. apply (Hdue s); [left|done..].
      * apply update_one_Forall; [|done]. intros d.
        apply quiet_kept; try by rewrite apply_advance_update.
        right. rewrite apply_advance_update. cbn [status].
        by eapply getitem_elem_of.
      * apply update_one_Forall; [|done]. intros d. apply quiet_kept; auto.
    + destruct (Sys.resolvers σ !! i) as [[t days []]|]; simplify_eq.
      destruct (Sys.lock σ); by simplify_eq.
    + destruct (Sys.resolvers σ !! i) as [[t days []]|]; simplify_eq.
      destruct (find_one t (Sys.db σ)); by simplify_eq.
    + destruct (Sys.resolvers σ !! i) as [[t days []]|] eqn:Hi; simplify_eq.
      simpl. apply update_one_Forall_first; [|done]. intros d Hd.
      destruct (Sys.oi_checked _ _ _ _ Honce
                  (Sys.mkResolver t days (Sys.Found outcome)))
        as (d' & Hd' & Hc); [apply list_elem_of_lookup; eauto|].
      simpl in Hd'. rewrite Hd in Hd'. simplify_eq.
      apply find_one_Some in Hd as [Hin _].
      pose proof (proj1 (Forall_forall _ _) Hquiet d' Hin) as Hq.
      apply quiet_decided; [by destruct outcome|].
      destruct (incident_decision d') eqn:Hdec; [done|].
      destruct (Hq Hdec) as (Hc' & _). congruence.
    + simplify_eq. simpl. unfold archive_shipment.
      destruct (find_one t (Sys.db σ)); simpl; [|done].
      apply update_one_Forall; [|done]. intros d. apply quiet_kept; auto.
    + simplify_eq. simpl. unfold insert_one. apply Forall_app.
      split; [done|]. apply Forall_singleton. intros _.
      split_and!; [done..|]. simpl. left.
  - (* the entries due for an incident *)
    destruct a as [delta|e|i draw|i|i now|t|username quantity destination r];
      simpl in Hstep.
    + destruct (Sys.sched σ) as [? [|]|]; simplify_eq. simpl.
      intros s d [_ Hs]%list_elem_of_filter Hd.
      rewrite (first_only_find _ s (Sys.oi_first _ _ _ _ Honce) Hs
                 (due_not_at_start s Hd)).
      intros [= <-]. unfold incident_due in Hd.
      by destruct (incident_decision s); [|rewrite andb_false_r in Hd].
    + destruct (Sys.sched σ) as [delta [|s work]|] eqn:Hs; simplify_eq.
      pose proof (process_shipment_iteration e delta s (Sys.db σ)) as Hit.
      destruct (process_shipment e delta s (Sys.db σ)) as [ex|[db' started]];
        simplify_eq; simpl; [by intros ? ? ?%elem_of_nil|].
      assert (Htail : ∀ s0 d, s0 ∈ work → incident_due s0 = true →
                find_one (tracking s0) (Sys.db σ) = Some d →
                incident_decision d = true).
      { intros s0 d Hs0. apply Hdue. by right. }
      inversion Hit; subst; try done;
        apply decision_due_kept; try done.
      intros d. by rewrite apply_advance_update.
    + destruct (Sys.resolvers σ !! i) as [[t days []]|]; simplify_eq.
      destruct (Sys.lock σ); by simplify_eq.
    + destruct (Sys.resolvers σ !! i) as [[t days []]|]; simplify_eq.
      destruct (find_one t (Sys.db σ)); by simplify_eq.
    + destruct (Sys.resolvers σ !! i) as [[t days []]|]; simplify_eq.
      simpl. apply decision_due_kept; [|done]. by destruct outcome.
    + simplify_eq. simpl. unfold archive_shipment.
      destruct (find_one t (Sys.db σ)); simpl; [|done].
      by apply decision_due_kept.
    + simplify_eq. simpl in *. intros s d Hs Hd.
      destruct (Sys.oi_in _ _ _ _ Honce s Hs) as [d1 Hd1]. unfold insert_one.
      rewrite (find_one_app_l _ _ _ _ Hd1). intros [= <-]. by eapply Hdue.
Qed.

Lemma run_decision (acts : list Sys.Action) (σ σ' : Sys.State) :
  Sys.run acts σ = Some σ' → decision_inv σ → decision_inv σ'.
Proof.
  revert σ. induction acts as [|a acts IH]; intros σ; simpl.
  - by intros [= ->].
  - destruct (Sys.step a σ) as [σ1|] eqn:Hstep; [|done]. simpl.
    intros Hrun Hinv. apply (IH σ1); [done|]. by eapply step_decision.
Qed.

(** X13 (no incident without the draw for one): the server starts on a
    collection with distinct tracking numbers whose shipments without
    incident decision are quiet, the empty one for instance.  Then, along
    any interleaving, colliding tracking numbers included, a shipment
    created with [incident_decision] unset is never offered an incident and
    never on hold, its status is always the label of a stage, so it is
    never cancelled; and a resolver thread is only ever started under the
    tracking number of a shipment that has [incident_decision] set. *)
Theorem no_incident_without_decision
    (db0 : Store) (acts : list Sys.Action) (σ : Sys.State) :
  NoDup (tracking <$> db0) → Forall quiet db0 →
  Sys.run acts (Sys.initial db0) = Some σ →
  (∀ d, d ∈ Sys.db σ → incident_decision d = false →
        incident_checked d = false ∧ on_hold d = Some false ∧
        status d ∈ statuses ∧ status d ≠ "Livraison annulée") ∧
  (∀ t, (0 < Sys.spawned t (Sys.trace σ))%nat →
        ∃ d, find_one t (Sys.db σ) = Some d ∧ incident_decision d = true).
Proof.
  intros Hnd Hq0 Hrun.
  assert (H0 : decision_inv (Sys.initial db0)).
  { split; [by apply initial_Once, NoDup_first_only|done|].
    by intros ? ? ?%elem_of_nil. }
  destruct (run_decision _ _ _ Hrun H0) as [Honce Hquiet _].
  assert (Hall : ∀ d, d ∈ Sys.db σ → quiet d).
  { by apply Forall_forall. }
  split.
  - intros d Hd Hdec. destruct (Hall d Hd Hdec) as (Hc & Hh & Hs).
    split_and!; [done..|]. intros Heq. rewrite Heq in Hs.
    by apply (bool_decide_pack _) in Hs.
  - intros t Ht. unfold Sys.spawned in Ht.
    rewrite <- (Sys.oi_threads _ _ _ _ Honce) in Ht.
    apply filter_eq_elem_of, list_elem_of_fmap in Ht as (r & -> & Hr).
    destruct (Sys.oi_checked _ _ _ _ Honce r Hr) as (d & Hf & Hc).
    exists d. split; [done|].
    destruct (incident_decision d) eqn:Hdec; [done|].
    apply find_one_Some in Hf as [Hin _].
    destruct (Hall d Hin Hdec) as (Hc' & _). congruence.
Qed.

Lemma no_incident_without_decision_witness :
  (∀ d, d ∈ Sys.db (reached race) → incident_decision d = false →
        incident_checked d = false ∧ on_hold d = Some false ∧
        status d ∈ statuses ∧ status d ≠ "Livraison annulée") ∧
  (∀ t, (0 < Sys.spawned t (Sys.trace (reached race)))%nat →
        ∃ d, find_one t (Sys.db (reached race)) = Some d ∧
             incident_decision d = true).
Proof.
  apply (no_incident_without_decision [] race); [constructor|constructor|].
  vm_compute. reflexivity.
Defined.

(** ** A shipment created under a tracking number in use *)

Lemma step_shadowed (a : Sys.Action) (σ σ' : Sys.State) :
  Sys.step a σ = Some σ' →
  shadowed_as_created (Sys.db σ) → shadowed_as_created (Sys.db σ').
Proof.
  intros [->|[(t & u & _ & ->)|(d0 & Hd0 & ->)]]%step_db Hsh; [done|..].
  - intros i j a' b' Hij
      (a0 & Ha & Hta & _)%update_one_lookup
      (b & Hb & Htb & Hcase)%update_one_lookup Heq.
    destruct Hcase as [->|[Ht Hnone]].
    + apply (Hsh i j a0 b); congruence.
    + destruct (Hnone i a0 Hij Ha). congruence.
  - unfold insert_one. intros i j a0 b Hij Ha Hb Heq.
    apply lookup_app_Some in Hb as [Hb|[Hlen Hb]].
    + pose proof (lookup_lt_Some _ _ _ Hb).
      rewrite lookup_app_l in Ha by lia. by apply (Hsh i j a0 b).
    + by apply list_lookup_singleton_Some in Hb as [_ <-].
Qed.

Lemma run_shadowed (acts : list Sys.Action) (σ σ' : Sys.State) :
  Sys.run acts σ = Some σ' →
  shadowed_as_created (Sys.db σ) → shadowed_as_created (Sys.db σ').
Proof.
  revert σ. induction acts as [|a acts IH]; intros σ; simpl.
  - by intros [= ->].
  - destruct (Sys.step a σ) as [σ1|] eqn:Hstep; [|done]. simpl.
    intros Hrun Hinv. apply (IH σ1); [done|]. by eapply step_shadowed.
Qed.

(** X14 (a shipment created under a number in use): the factory does not
    look whether its tracking number is taken.  From a collection with
    distinct tracking numbers, along any interleaving, a document that
    follows another one of the same number is still exactly as the factory
    made it: at stage 0 with status "Commande confirmée", neither finished
    nor archived.  A lookup by that number finds a document at an earlier
    position, which is where the scheduler, the resolvers and the archive
    route write. *)
Theorem colliding_shipment_stays_as_created
    (db0 : Store) (acts : list Sys.Action) (σ : Sys.State)
    (i j : nat) (a b : Shipment) :
  NoDup (tracking <$> db0) →
  Sys.run acts (Sys.initial db0) = Some σ →
  (i < j)%nat → Sys.db σ !! i = Some a → Sys.db σ !! j = Some b →
  tracking a = tracking b →
  as_created b ∧ current_step_index b = 0 ∧
  status b = "Commande confirmée" ∧ length (history b) = 1%nat ∧
  finished b = false ∧ archived b = false ∧
  ∃ k c, (k < j)%nat ∧ Sys.db σ !! k = Some c ∧
         find_one (tracking b) (Sys.db σ) = Some c.
Proof.
  intros Hnd Hrun Hij Ha Hb Heq.
  assert (Hsh0 : shadowed_as_created (Sys.db (Sys.initial db0))).
  { intros i0 j0 a0 b0 Hij0 Ha0 Hb0 Heq0. simpl in *.
    assert (i0 = j0); [|lia].
    apply (NoDup_lookup _ _ _ (tracking a0) Hnd);
      rewrite list_lookup_fmap; [by rewrite Ha0|by rewrite Hb0, Heq0]. }
  pose proof (run_shadowed _ _ _ Hrun Hsh0 i j a b Hij Ha Hb Heq) as Hc.
  split; [done|].
  assert (Hfind : ∃ k c, (k < j)%nat ∧ Sys.db σ !! k = Some c ∧
                         find_one (tracking b) (Sys.db σ) = Some c).
  { destruct (find_one_elem_of (Sys.db σ) a) as [c Hfc];
      [apply list_elem_of_lookup; eauto|].
    rewrite Heq in Hfc.
    destruct (find_one_first _ _ _ Hfc) as (k & Hk & _ & Hnone).
    exists k, c. split_and!; [|done..].
    destruct (decide (i < k)%nat) as [Hlt|Hge]; [|lia].
    by destruct (Hnone i a Hlt Ha). }
  destruct Hc as (u & q & dst & r & ->). by split_and!.
Qed.

Lemma colliding_shipment_stays_as_created_witness :
  let b := new_shipment "dave" 2 "Nice" draws_c in
  as_created b ∧ current_step_index b = 0 ∧
  status b = "Commande confirmée" ∧ length (history b) = 1%nat ∧
  finished b = false ∧ archived b = false ∧
  ∃ k c, (k < 1)%nat ∧ Sys.db (reached collide) !! k = Some c ∧
         find_one (tracking b) (Sys.db (reached collide)) = Some c.
Proof.
  apply (colliding_shipment_stays_as_created [] collide (reached collide)
           0 1 (default shipment_c (Sys.db (reached collide) !! 0%nat))).
  - constructor.
  - vm_compute. reflexivity.
  - lia.
  - vm_compute. reflexivity.
  - vm_compute. reflexivity.
  - vm_compute. reflexivity.
Defined.

(** ** Stages move forward *)

Lemma update_one_Forall2_in (R : Shipment → Shipment → Prop)
    (t : string) (u : Update) (db : Store) :
  (∀ d, R d d) →
  (∀ d, d ∈ db → tracking d = t → R d (apply_update u d)) →
  Forall2 R db (update_one t u db).
Proof.
  intros Hrefl. induction db as [|d0 db IH]; intros Hupd; simpl;
    [constructor|].
  case_decide.
  - constructor; [apply Hupd; [left|done]|].
    by apply Forall_Forall2_diag, Forall_true.
  - constructor; [done|]. apply IH. intros d Hd. apply Hupd. by right.
Qed.

Lemma stage_within_refl (d : Shipment) : stage_within 1 d d.
Proof. unfold stage_within. lia. Qed.

Lemma stage_within_same (u : Update) (d : Shipment) :
  current_step_index (apply_update u d) = current_step_index d →
  stage_within 1 d (apply_update u d).
Proof. unfold stage_within. lia. Qed.

(** With distinct tracking numbers the snapshot entry and the stored
    shipment are at the same stage, so that an advance goes to the next
    stage of the stored shipment. *)
Lemma step_stage (a : Sys.Action) (σ σ' : Sys.State) :
  Sys.step a σ = Some σ' → NoDup (tracking <$> Sys.db σ) → Sys.Inv σ →
  ∃ new, Forall2 (stage_within 1) (Sys.db σ ++ new) (Sys.db σ').
Proof.
  intros Hstep Hnd Hinv.
  assert (Hsame : ∀ t u,
            (∀ d, current_step_index (apply_update u d)
                  = current_step_index d) →
            ∃ new, Forall2 (stage_within 1) (Sys.db σ ++ new)
                     (update_one t u (Sys.db σ))).
  { intros t u Hu. exists []. rewrite app_nil_r.
    apply update_one_Forall2; [apply stage_within_refl|].
    intros d _. by apply stage_within_same. }
  assert (Hid : ∃ new, Forall2 (stage_within 1) (Sys.db σ ++ new) (Sys.db σ)).
  { exists []. rewrite app_nil_r. apply Forall_Forall2_diag, Forall_true.
    apply stage_within_refl. }
  destruct a as [delta|e|i draw|i|i now|t|username quantity destination r];
    simpl in Hstep.
  - destruct (Sys.sched σ) as [? [|]|]; by simplify_eq.
  - destruct (Sys.sched σ) as [delta [|s work]|] eqn:Hs; simplify_eq.
    pose proof (process_shipment_iteration e delta s (Sys.db σ)) as Hit.
    destruct (process_shipment e delta s (Sys.db σ)) as [ex|[db' started]];
      simplify_eq; simpl; [done|].
    inversion Hit; subst; try done; try by apply Hsame.
    exists []. rewrite app_nil_r.
    apply update_one_Forall2_in; [apply stage_within_refl|].
    intros d Hd Ht. rewrite apply_advance_update. unfold stage_within.
    cbn [current_step_index].
    destruct (Sys.inv_agree _ _ _ _ Hinv s d) as (Hidx & _);
      [unfold Sys.rest; rewrite Hs; left|done|done|]. lia.
  - destruct (Sys.resolvers σ !! i) as [[t days []]|]; simplify_eq.
    destruct (Sys.lock σ); by simplify_eq.
  - destruct (Sys.resolvers σ !! i) as [[t days []]|]; simplify_eq.
    destruct (find_one t (Sys.db σ)); by simplify_eq.
  - destruct (Sys.resolvers σ !! i) as [[t days []]|]; simplify_eq.
    simpl. apply Hsame. by destruct outcome.
  - simplify_eq. simpl. unfold archive_shipment.
    destruct (find_one t (Sys.db σ)); simpl; [by apply Hsame|done].
  - simplify_eq. simpl. eexists. unfold insert_one.
    apply Forall_Forall2_diag, Forall_true. apply stage_within_refl.
Qed.

(** X15 (stages move forward): with distinct tracking numbers, from any
    state the server has reached and along any interleaving, no shipment
    moves back a stage, and a shipment moves forward by at most one stage
    in each step of a thread. *)
Theorem stages_move_forward
    (db0 : Store) (acts1 acts2 : list Sys.Action) (σ1 σ2 : Sys.State) :
  Sys.run acts1 (Sys.initial db0) = Some σ1 →
  Sys.run acts2 σ1 = Some σ2 →
  NoDup (tracking <$> Sys.db σ2) →
  ∃ new, Forall2 (stage_within (length acts2)) (Sys.db σ1 ++ new) (Sys.db σ2).
Proof.
  intros Hrun1 Hrun2 Hnd2.
  pose proof (run_Inv _ _ _ Hrun1 (run_NoDup _ _ _ Hrun2 Hnd2)
                (initial_Inv db0)) as Hinv.
  clear Hrun1. revert σ1 Hrun2 Hinv.
  induction acts2 as [|a acts IH]; intros σ1; simpl.
  - intros [= ->] _. exists []. rewrite app_nil_r.
    apply Forall_Forall2_diag, Forall_true. intros d. unfold stage_within.
    lia.
  - destruct (Sys.step a σ1) as [σ| ] eqn:Hstep; [|done]. simpl.
    intros Hrun Hinv.
    pose proof (run_NoDup _ _ _ Hrun Hnd2) as Hnd.
    destruct (step_stage a σ1 σ Hstep (step_NoDup _ _ _ Hstep Hnd) Hinv)
      as (new1 & H1).
    destruct (IH σ Hrun (step_Inv _ _ _ Hstep Hnd Hinv)) as (new2 & H2).
    exists (new1 ++ new2). rewrite app_assoc.
    eapply Forall2_trans; [|apply Forall2_app; [exact H1|]|exact H2].
    + intros x y z. unfold stage_within. cbv beta. lia.
    + apply Forall_Forall2_diag, Forall_true. intros d.
      apply stage_within_refl.
Qed.

Lemma stages_move_forward_witness :
  ∃ new, Forall2 (stage_within 2)
           (Sys.db (reached to_transit) ++ new) (Sys.db (reached to_incident)).
Proof.
  apply (stages_move_forward [] to_transit
           [Sys.TickStart 1; Sys.TickNext (env_ok 0)]);
    [vm_compute; reflexivity..|].
  apply (bool_decide_unpack _). vm_compute. exact I.
Defined.

(** ** The lock is given back *)

Lemma run_lock_inv (acts : list Sys.Action) (σ σ' : Sys.State) :
  Sys.run acts σ = Some σ' → Sys.lock_inv σ → Sys.lock_inv σ'.
Proof.
  revert σ. induction acts as [|a acts IH]; intros σ; simpl.
  - by intros [= ->].
  - destruct (Sys.step a σ) as [σ1|] eqn:Hstep; [|done]. simpl.
    intros Hrun Hinv. apply (IH σ1); [done|]. by eapply step_lock_inv.
Qed.

Lemma reachable_lock_inv
    (db0 : Store) (acts : list Sys.Action) (σ : Sys.State) :
  Sys.run acts (Sys.initial db0) = Some σ → Sys.lock_inv σ.
Proof. intros Hrun. apply (run_lock_inv _ _ _ Hrun). by split. Qed.

(** The resolver that holds the lock runs on to its return, by its own
    steps alone. *)
Lemma holder_returns (σ : Sys.State) (i : nat) (now : string) :
  Sys.lock_inv σ → Sys.lock σ = Some i →
  ∃ r todo σ',
    Sys.resolvers σ !! i = Some r ∧ Sys.inside r = true ∧
    (todo = [Sys.ResolverFind i] ∨
     todo = [Sys.ResolverFind i; Sys.ResolverUpdate i now] ∨
     todo = [Sys.ResolverUpdate i now]) ∧
    Sys.run todo σ = Some σ' ∧
    Sys.lock σ' = None ∧
    Sys.resolvers σ' =
      <[i := Sys.mkResolver (Sys.r_tracking r) (Sys.r_days r) Sys.Done]>
        (Sys.resolvers σ).
Proof.
  intros [_ Hheld] Hlock.
  destruct (Hheld i Hlock) as ([t days pc] & Hi & Hin).
  pose proof (lookup_lt_Some _ _ _ Hi) as Hlen.
  exists (Sys.mkResolver t days pc).
  destruct pc as [|outcome|outcome|]; try done.
  - destruct (find_one t (Sys.db σ)) as [d|] eqn:Hfind.
    + exists [Sys.ResolverFind i; Sys.ResolverUpdate i now]. eexists.
      split_and!; [done|done|auto| |..].
      * simpl. rewrite Hi, Hfind. simpl.
        rewrite list_lookup_insert_eq by done. done.
      * done.
      * simpl. by rewrite list_insert_insert_eq.
    + exists [Sys.ResolverFind i]. eexists.
      split_and!; [done|done|auto| |..].
      * simpl. rewrite Hi, Hfind. done.
      * done.
      * done.
  - exists [Sys.ResolverUpdate i now]. eexists.
    split_and!; [done|done|auto| |..].
    + simpl. rewrite Hi. done.
    + done.
    + done.
Qed.

(** X16 (the lock is given back): in every state the server reaches, a
    lock that is taken is held by a resolver inside its [with lock] block,
    and that resolver can run on to the end of the block, whatever the
    other threads have done: past its [find_one] and, if the shipment is
    there, its [update_one]; when it has returned, also by the early
    [return] of line 96, the lock is free. *)
Theorem lock_is_given_back
    (db0 : Store) (acts : list Sys.Action) (σ : Sys.State) (i : nat)
    (now : string) :
  Sys.run acts (Sys.initial db0) = Some σ →
  Sys.lock σ = Some i →
  ∃ r todo σ',
    Sys.resolvers σ !! i = Some r ∧ Sys.inside r = true ∧
    (todo = [Sys.ResolverFind i] ∨
     todo = [Sys.ResolverFind i; Sys.ResolverUpdate i now] ∨
     todo = [Sys.ResolverUpdate i now]) ∧
    Sys.run todo σ = Some σ' ∧
    Sys.lock σ' = None ∧
    Sys.resolvers σ' !! i
      = Some (Sys.mkResolver (Sys.r_tracking r) (Sys.r_days r) Sys.Done).
Proof.
  intros Hrun Hlock.
  destruct (holder_returns σ i now (reachable_lock_inv _ _ _ Hrun) Hlock)
    as (r & todo & σ' & Hi & Hin & Htodo & Hrun' & Hfree & Hrs).
  exists r, todo, σ'. split_and!; try done.
  rewrite Hrs. apply list_lookup_insert_eq. by eapply lookup_lt_Some.
Qed.

Lemma lock_is_given_back_witness :
  ∃ r todo σ',
    Sys.resolvers (reached to_found) !! 0%nat = Some r ∧
    Sys.inside r = true ∧
    (todo = [Sys.ResolverFind 0] ∨
     todo = [Sys.ResolverFind 0;
             Sys.ResolverUpdate 0 "Tue Nov  3 09:00:50 2026"] ∨
     todo = [Sys.ResolverUpdate 0 "Tue Nov  3 09:00:50 2026"]) ∧
    Sys.run todo (reached to_found) = Some σ' ∧
    Sys.lock σ' = None ∧
    Sys.resolvers σ' !! 0%nat
      = Some (Sys.mkResolver (Sys.r_tracking r) (Sys.r_days r) Sys.Done).
Proof.
  apply (lock_is_given_back [] to_found); vm_compute; reflexivity.
Defined.

Lemma run_app (acts1 acts2 : list Sys.Action) (σ σ1 σ2 : Sys.State) :
  Sys.run acts1 σ = Some σ1 → Sys.run acts2 σ1 = Some σ2 →
  Sys.run (acts1 ++ acts2) σ = Some σ2.
Proof.
  revert σ. induction acts1 as [|a acts1 IH]; intros σ; simpl.
  - by intros [= ->].
  - destruct (Sys.step a σ) as [σ'|]; [|done]. simpl. apply IH.
Qed.

(** X17 (no resolver waits for ever): in every state the server reaches,
    every resolver thread can be run to its return by steps of resolver
    threads alone, whatever it draws: the thread that holds the lock, if
    there is one, runs on to the end of its block, and the lock is then
    free for the thread to take, look its shipment up and write.  When it
    has returned the lock is free again. *)
Theorem every_resolver_can_return
    (db0 : Store) (acts : list Sys.Action) (σ : Sys.State) (i : nat)
    (r : Sys.Resolver) (draw : Z) (now : string) :
  Sys.run acts (Sys.initial db0) = Some σ →
  Sys.resolvers σ !! i = Some r →
  ∃ todo σ',
    Forall (λ a, resolver_action a = true) todo ∧
    Sys.run todo σ = Some σ' ∧
    Sys.lock σ' = None ∧
    Sys.resolvers σ' !! i
      = Some (Sys.mkResolver (Sys.r_tracking r) (Sys.r_days r) Sys.Done).
Proof.
  intros Hrun Hi. pose proof (reachable_lock_inv _ _ _ Hrun) as Hinv.
  assert (Hfree : ∀ σ1, Sys.lock_inv σ1 → Sys.lock σ1 = None →
            Sys.resolvers σ1 !! i = Some r →
            ∃ todo σ',
              Forall (λ a, resolver_action a = true) todo ∧
              Sys.run todo σ1 = Some σ' ∧ Sys.lock σ' = None ∧
              Sys.resolvers σ' !! i
                = Some (Sys.mkResolver (Sys.r_tracking r) (Sys.r_days r)
                          Sys.Done)).
  { intros σ1 [Hin1 _] Hlock1 Hi1.
    destruct r as [t days pc]. destruct pc as [|outcome|outcome|].
    - destruct (resolver_steps_handle_incident σ1 i t days draw now Hi1 Hlock1)
        as (σ' & Hrun' & _ & Hl' & Hrs').
      eexists _, σ'. split_and!; [|exact Hrun'|done|].
      + destruct (find_one t (Sys.db σ1)); by repeat constructor.
      + rewrite Hrs'. apply list_lookup_insert_eq. by eapply lookup_lt_Some.
    - specialize (Hin1 i _ Hi1 eq_refl). congruence.
    - specialize (Hin1 i _ Hi1 eq_refl). congruence.
    - exists [], σ1. by split_and!. }
  destruct (Sys.lock σ) as [j|] eqn:Hlock; [|by apply Hfree].
  destruct (holder_returns σ j now Hinv Hlock)
    as (rj & todo1 & σ1 & Hj & Hinj & Htodo1 & Hrun1 & Hfree1 & Hrs1).
  assert (Hact1 : Forall (λ a, resolver_action a = true) todo1).
  { destruct Htodo1 as [->|[->| ->]]; by repeat constructor. }
  destruct (decide (j = i)) as [->|Hne].
  - exists todo1, σ1. split_and!; try done. simplify_eq.
    rewrite Hrs1. apply list_lookup_insert_eq. by eapply lookup_lt_Some.
  - destruct (Hfree σ1) as (todo2 & σ2 & Hact2 & Hrun2 & Hfree2 & Hi2).
    + by apply (run_lock_inv _ _ _ Hrun1).
    + done.
    + rewrite Hrs1. by rewrite list_lookup_insert_ne.
    + exists (todo1 ++ todo2), σ2. split_and!; try done.
      * by apply Forall_app.
      * by eapply run_app.
Qed.

Lemma every_resolver_can_return_witness :
  ∃ todo σ',
    Forall (λ a, resolver_action a = true) todo ∧
    Sys.run todo (reached to_incident) = Some σ' ∧
    Sys.lock σ' = None ∧
    Sys.resolvers σ' !! 0%nat = Some (Sys.mkResolver "10000003" 5 Sys.Done).
Proof.
  apply (every_resolver_can_return [] to_incident (reached to_incident) 0
           (Sys.mkResolver "10000003" 5 Sys.Sleeping) 80
           "Tue Nov  3 09:00:50 2026"); vm_compute; reflexivity.
Defined.

Lemma filter_at_most_one {A} (P : A → Prop) `{!∀ x, Decision (P x)}
    (l : list A) :
  (∀ i j x y, l !! i = Some x → l !! j = Some y → P x → P y → i = j) →
  (length (filter P l) ≤ 1)%nat.
Proof.
  induction l as [|x l IH]; intros Huniq; [simpl; lia|].
  rewrite filter_cons.
  assert (Hl : ∀ i j a b, l !! i = Some a → l !! j = Some b →
                          P a → P b → i = j).
  { intros i j a b Ha Hb Hpa Hpb.
    assert (S i = S j) by (by apply (Huniq (S i) (S j) a b)). lia. }
  case_decide as Hx; [|by apply IH]. simpl.
  destruct (filter P l) as [|y l'] eqn:Hf; [simpl; lia|].
  assert (Hy : y ∈ filter P l) by (rewrite Hf; left).
  apply list_elem_of_filter in Hy as [Hpy [j Hj]%list_elem_of_lookup].
  by specialize (Huniq 0%nat (S j) x y eq_refl Hj Hx Hpy).
Qed.

(** X18 (one resolver inside the block): in every state the server
    reaches, at most one resolver thread is inside its [with lock] block,
    between taking the lock and returning; the lock is taken exactly when
    there is one, and it is that thread that holds it. *)
Theorem one_resolver_in_block
    (db0 : Store) (acts : list Sys.Action) (σ : Sys.State) :
  Sys.run acts (Sys.initial db0) = Some σ →
  (length (filter (λ r, Sys.inside r = true) (Sys.resolvers σ)) ≤ 1)%nat ∧
  (∀ i, Sys.lock σ = Some i ↔
        ∃ r, Sys.resolvers σ !! i = Some r ∧ Sys.inside r = true).
Proof.
  intros Hrun.
  assert (Hinv : Sys.lock_inv σ).
  { apply (run_lock_inv _ _ _ Hrun). by split. }
  destruct Hinv as [Hin Hheld]. split.
  - apply filter_at_most_one. intros i j r r' Hi Hj Hr Hr'.
    pose proof (Hin i r Hi Hr). pose proof (Hin j r' Hj Hr'). congruence.
  - intros i. split; [apply Hheld|]. intros (r & Hi & Hr). by apply (Hin i r).
Qed.

Lemma one_resolver_in_block_witness :
  (length (filter (λ r, Sys.inside r = true)
             (Sys.resolvers (reached to_found))) ≤ 1)%nat ∧
  (∀ i, Sys.lock (reached to_found) = Some i ↔
        ∃ r, Sys.resolvers (reached to_found) !! i = Some r ∧
             Sys.inside r = true).
Proof.
  apply (one_resolver_in_block [] to_found). vm_compute. reflexivity.
Defined.

(** ** HTTP routes *)

Lemma find_user_Some (query : User → Prop) `{!∀ x, Decision (query x)}
    (users : list User) (x : User) :
  find_user query users = Some x → x ∈ users ∧ query x.
Proof.
  unfold find_user. intros Hx%head_Some_elem_of.
  by apply list_elem_of_filter in Hx as [? ?].
Qed.

Lemma find_user_None (query : User → Prop) `{!∀ x, Decision (query x)}
    (users : list User) :
  find_user query users = None ↔ ∀ x, x ∈ users → ¬ query x.
Proof.
  unfold find_user. rewrite head_None. split.
  - intros Hnil x Hx Hq.
    assert (Hin : x ∈ filter query users) by (by apply list_elem_of_filter).
    rewrite Hnil in Hin. by apply elem_of_nil in Hin.
  - intros Hall. destruct (filter query users) as [|x l] eqn:Hf; [done|].
    assert (Hin : x ∈ filter query users) by (rewrite Hf; left).
    apply list_elem_of_filter in Hin as [Hq Hx]. by destruct (Hall x Hx).
Qed.

Lemma find_user_is_Some (query : User → Prop) `{!∀ x, Decision (query x)}
    (users : list User) (x : User) :
  x ∈ users → query x → is_Some (find_user query users).
Proof.
  intros Hx Hq. destruct (find_user query users) eqn:Hf; [eauto|].
  by destruct (proj1 (find_user_None query users) Hf x Hx).
Qed.

Section routes.
Context {interp : Interp}.

Lemma signup_cases (js : Dict) (users users' : list User) (resp : Response) :
  signup js users = inr (resp, users') →
  (resp.2 = 400 ∧ users' = users) ∨
  (∃ u p, get_stripped js "username" = inr u ∧
          get_stripped js "password" = inr p ∧
          u ≠ "" ∧ p ≠ "" ∧ (u ∉ username <$> users) ∧
          resp = (Success, 200) ∧ users' = users ++ [mkUser u p]).
Proof.
  unfold signup, signup_check.
  destruct (get_stripped js "username") as [ex|u]; [done|].
  destruct (get_stripped js "password") as [ex|p]; [done|].
  destruct (bool_decide (u = "")) eqn:Hu; simpl.
  { intros [= <- <-]. by left. }
  destruct (bool_decide (p = "")) eqn:Hp; simpl.
  { intros [= <- <-]. by left. }
  apply bool_decide_eq_false in Hu, Hp.
  destruct (find_user (by_username u) users) as [x|] eqn:Hf; simpl.
  { intros [= <- <-]. by left. }
  intros [= <- <-]. right. exists u, p. split_and!; try done.
  intros (x & Hx & Hin)%list_elem_of_fmap.
  by apply (proj1 (find_user_None _ _) Hf x Hin).
Qed.

Lemma signup_check_new (js : Dict) (users : list User) (u p : string) :
  get_stripped js "username" = inr u → get_stripped js "password" = inr p →
  u ≠ "" → p ≠ "" → u ∉ username <$> users →
  signup_check js users = inr (inr (mkUser u p)).
Proof.
  intros Hu Hp Hune Hpne Hfresh. unfold signup_check. rewrite Hu, Hp.
  rewrite bool_decide_eq_false_2, bool_decide_eq_false_2 by done. simpl.
  destruct (find_user (by_username u) users) as [x|] eqn:Hf; [|done].
  apply find_user_Some in Hf as [Hx Hq]. destruct Hfresh.
  rewrite <- Hq. by apply list_elem_of_fmap_2.
Qed.

(** X19 (signup and the user names): served while no other request writes
    to [users], [signup] answers 400 and leaves the collection as it was, or
    answers 200 and has added, at the end, exactly the account of the
    stripped user name and password of the body, neither of them blank and
    the name one that no account had; so user names that were distinct stay
    distinct, and names that were not blank stay so.  The test of line 232
    and the insert of line 234 are two requests to the store with no lock
    between them: when two requests for one new name have both run the test
    before either inserts, both are answered 200 and the collection ends
    with two accounts of that name. *)
Theorem signup_usernames_distinct (js js' : Dict) (users : list User) :
  (∀ resp users',
     signup js users = inr (resp, users') →
     ((resp.2 = 400 ∧ users' = users) ∨
      (resp = (Success, 200) ∧
       ∃ u p, get_stripped js "username" = inr u ∧
              get_stripped js "password" = inr p ∧
              u ≠ "" ∧ p ≠ "" ∧ (u ∉ username <$> users) ∧
              users' = users ++ [mkUser u p])) ∧
     (NoDup (username <$> users) → NoDup (username <$> users')) ∧
     (Forall (λ x, username x ≠ "") users →
      Forall (λ x, username x ≠ "") users')) ∧
  (∀ u p p',
     get_stripped js "username" = inr u →
     get_stripped js' "username" = inr u →
     get_stripped js "password" = inr p →
     get_stripped js' "password" = inr p' →
     u ≠ "" → p ≠ "" → p' ≠ "" → u ∉ username <$> users →
     signup_overlapped js js' users =
       (inr (Success, 200), inr (Success, 200),
        users ++ [mkUser u p] ++ [mkUser u p']) ∧
     ¬ NoDup (username <$> (users ++ [mkUser u p] ++ [mkUser u p']))).
Proof.
  split.
  - intros resp users' Hs.
    apply signup_cases in Hs
      as [[Hcode ->]|(u & p & Hu & Hp & Hune & Hpne & Hfresh & -> & ->)].
    + split_and!; [by left|done..].
    + split_and!.
      * right. split; [done|]. by exists u, p.
      * intros Hnd. rewrite fmap_app. apply NoDup_app.
        split_and!; [done| |apply NoDup_singleton].
        by intros x Hx [->|[]%elem_of_nil]%elem_of_cons.
      * intros Hne. apply Forall_app. split; [done|].
        by apply Forall_singleton.
  - intros u p p' Hu Hu' Hp Hp' Hune Hpne Hpne' Hfresh. split.
    + unfold signup_overlapped.
      rewrite (signup_check_new js users u p),
        (signup_check_new js' users u p') by done.
      simpl. by rewrite <- app_assoc.
    + rewrite fmap_app. intros [_ [_ Hnd]]%NoDup_app. simpl in Hnd.
      apply NoDup_cons in Hnd as [Hnotin _]. destruct Hnotin. left.
Qed.

(** X20 (signup, then login): after a [signup] answered with 200, [login]
    with the same body is answered with 200, on the collection that
    [signup] left and on every collection that extends it; the role is
    "admin" exactly when the stripped user name is "BUT3MLT", whoever
    registered that name. *)
Theorem signup_then_login
    (js : Dict) (users users' users'' : list User) (body : Body) :
  signup js users = inr ((body, 200), users') →
  users' `prefix_of` users'' →
  ∃ u, get_stripped js "username" = inr u ∧
       login js users'' =
         inr (SuccessRole (if bool_decide (u = "BUT3MLT")
                           then "admin" else "client"), 200).
Proof.
  intros Hs [more ->].
  apply signup_cases in Hs
    as [[Hcode _]|(u & p & Hu & Hp & _ & _ & _ & _ & ->)]; [done|].
  exists u. split; [done|]. unfold login. rewrite Hu, Hp.
  destruct (find_user_is_Some (by_credentials u p)
              ((users ++ [mkUser u p]) ++ more) (mkUser u p)) as [x ->];
    [|done..].
  apply elem_of_app. left. apply elem_of_app. right. left.
Qed.

(** X21 (login needs the account): [login] answers 200 only if the
    collection holds an account with the stripped user name and the
    stripped password of the body, and 401 otherwise; with distinct user
    names, a password other than the one of the account is answered
    with 401. *)
Theorem login_wrong_password
    (js : Dict) (users : list User) (u p p' : string) :
  NoDup (username <$> users) →
  mkUser u p ∈ users →
  get_stripped js "username" = inr u →
  get_stripped js "password" = inr p' →
  login js users =
    if decide (p' = p)
    then inr (SuccessRole (if bool_decide (u = "BUT3MLT")
                           then "admin" else "client"), 200)
    else inr (Error "Identifiants invalides", 401).
Proof.
  intros Hnd Hin Hu Hp. unfold login. rewrite Hu, Hp.
  case_decide as Heq.
  - subst. by destruct (find_user_is_Some (by_credentials u p) users
                          (mkUser u p)) as [x ->].
  - destruct (find_user (by_credentials u p') users) as [x|] eqn:Hf; [|done].
    apply find_user_Some in Hf as [Hx [Hxu Hxp]].
    assert (x = mkUser u p) as -> by (by apply (NoDup_fmap_eq username users)).
    by destruct Heq.
Qed.

Lemma passer_commande_cases
    (js : Dict) (r : CreateDraws) (users : list User) (db db' : Store)
    (resp : Response) :
  passer_commande js r users db = inr (resp, db') →
  (resp.2 = 400 ∧ db' = db) ∨
  (∃ u dest n,
      get_stripped js "username" = inr u ∧
      get_stripped js "destination" = inr dest ∧
      int_of (default (JInt 0) (js !! "quantity")) = inr n ∧
      fits_int64 n = true ∧
      u ≠ "" ∧ dest ≠ "" ∧ u ∈ username <$> users ∧
      resp = (SuccessTracking (tracking (new_shipment u n dest r)), 200) ∧
      db' = db ++ [new_shipment u n dest r]).
Proof.
  unfold passer_commande.
  destruct (get_stripped js "username") as [ex|u]; [done|].
  destruct (get_stripped js "destination") as [ex|dest]; [done|].
  destruct (bool_decide (u = "")) eqn:Hu; simpl.
  { intros [= <- <-]. by left. }
  destruct (bool_decide (dest = "")) eqn:Hd; simpl.
  { intros [= <- <-]. by left. }
  apply bool_decide_eq_false in Hu, Hd.
  destruct (int_of _) as [[]|n] eqn:Hn; try done.
  { intros [= <- <-]. by left. }
  destruct (find_user (by_username u) users) as [x|] eqn:Hf.
  - destruct (fits_int64 n) eqn:Hfit; [|done].
    intros [= <- <-]. right. exists u, dest, n. split_and!; try done.
    apply find_user_Some in Hf as [Hx <-]. by apply list_elem_of_fmap_2.
  - intros [= <- <-]. by left.
Qed.

(** X22 (a refused order writes nothing): whenever [passer_commande]
    answers with a status other than 200, that status is 400 and the
    [shipments] collection is as it was; and the route never lets the
    [ValueError] of [int] escape. *)
Theorem passer_commande_refused
    (js : Dict) (r : CreateDraws) (users : list User) (db : Store) :
  passer_commande js r users db ≠ inl ValueError ∧
  ∀ resp db', passer_commande js r users db = inr (resp, db') →
              resp.2 ≠ 200 → resp.2 = 400 ∧ db' = db.
Proof.
  split.
  - unfold passer_commande, get_stripped.
    destruct (default _ (js !! "username")); try done.
    destruct (default _ (js !! "destination")); try done.
    destruct (_ || _); [done|].
    destruct (int_of _) as [[]|n]; try done.
    destruct (find_user _ _); [|done]. by destruct (fits_int64 n).
  - intros resp db' Hp.
    by apply passer_commande_cases in Hp
      as [[? ?]|(u & dest & n & _ & _ & _ & _ & _ & _ & _ & -> & _)].
Qed.

(** X23 (an accepted order, read back): when [passer_commande] answers 200,
    one document was added at the end of the collection: a shipment of the
    stripped user name and destination and of the quantity [int] gives,
    which fits the 8 bytes of the store and is 0 when the body has none, at
    stage 0, neither finished nor archived.  The tracking number answered
    reads back, through [get_one_shipment], as the new shipment if the
    number was not in use, and as the older shipment of that number if it
    was. *)
Theorem passer_commande_read_back
    (js : Dict) (r : CreateDraws) (users : list User) (db db' : Store)
    (body : Body) :
  passer_commande js r users db = inr ((body, 200), db') →
  ∃ s, db' = db ++ [s] ∧ body = SuccessTracking (tracking s) ∧
       get_stripped js "username" = inr (client s) ∧
       get_stripped js "destination" = inr (destination s) ∧
       int_of (default (JInt 0) (js !! "quantity")) = inr (quantity s) ∧
       - 2 ^ 63 ≤ quantity s < 2 ^ 63 ∧
       (js !! "quantity" = None → quantity s = 0) ∧
       status s = "Commande confirmée" ∧ current_step_index s = 0 ∧
       finished s = false ∧ archived s = false ∧
       get_one_shipment (tracking s) db' =
         (One (view (default s (find_one (tracking s) db))), 200).
Proof.
  intros Hp.
  apply passer_commande_cases in Hp
    as [[Hcode _]|(u & dest & n & Hu & Hd & Hn & Hfit & _ & _ & _ & [= ->] & ->)];
    [done|].
  eexists. split_and!; try done.
  - apply andb_true_iff in Hfit as [?%Z.leb_le _]. done.
  - apply andb_true_iff in Hfit as [_ ?%Z.ltb_lt]. done.
  - intros Hnone. rewrite Hnone in Hn. simpl in Hn. by simplify_eq.
  - unfold get_one_shipment.
    destruct (find_one _ db) as [d|] eqn:Hf; simpl.
    + by rewrite (find_one_app_l _ _ _ _ Hf).
    + pose proof (find_one_insert _ _ Hf) as Hnew. unfold insert_one in Hnew.
      change (Py.str (cd_tracking r))
        with (tracking (new_shipment u n dest r)).
      by rewrite Hnew.
Qed.

(** X24 (signup, then an order): after a [signup] answered with 200, an
    order under the same user name, with a destination that is not blank
    and a quantity that [int] accepts, is answered with 200 and adds the
    shipment when the quantity fits the 8 bytes of the store, and raises
    [OverflowError] from the insert, with nothing stored, when it does not;
    so it is on the [users] collection that [signup] left and on every
    collection that extends it. *)
Theorem signup_then_order
    (js js' : Dict) (r : CreateDraws) (users users' users'' : list User)
    (db : Store) (body : Body) (dest : string) (n : Z) :
  signup js users = inr ((body, 200), users') →
  users' `prefix_of` users'' →
  get_stripped js' "username" = get_stripped js "username" →
  get_stripped js' "destination" = inr dest → dest ≠ "" →
  int_of (default (JInt 0) (js' !! "quantity")) = inr n →
  ∃ u, get_stripped js "username" = inr u ∧
       passer_commande js' r users'' db =
         if bool_decide (- 2 ^ 63 ≤ n < 2 ^ 63)
         then inr ((SuccessTracking (Py.str (cd_tracking r)), 200),
                   db ++ [new_shipment u n dest r])
         else inl OverflowError.
Proof.
  intros Hs [more ->] Hsame Hdest Hne Hn.
  apply signup_cases in Hs
    as [[Hcode _]|(u & p & Hu & Hp & Hune & _ & _ & _ & ->)]; [done|].
  exists u. split; [done|]. unfold passer_commande.
  rewrite Hsame, Hu, Hdest, Hn.
  rewrite bool_decide_eq_false_2, bool_decide_eq_false_2 by done. simpl.
  destruct (find_user_is_Some (by_username u)
              ((users ++ [mkUser u p]) ++ more) (mkUser u p)) as [x ->];
    [|done|].
  { apply elem_of_app. left. apply elem_of_app. right. left. }
  unfold fits_int64.
  destruct (Z.leb_spec (- 2 ^ 63) n), (Z.ltb_spec n (2 ^ 63)); simpl;
    case_bool_decide; try done; lia.
Qed.

End routes.

(** The routes on the bodies of the examples. *)

Lemma signup_usernames_distinct_witness :
  let users := [mkUser "bob" "hunter2"] in
  (signup (interp := example_interp) alice_account users
   = inr ((Success, 200), users ++ [mkUser "alice" "secret"])) ∧
  signup_overlapped (interp := example_interp) alice_account alice_again users
  = (inr (Success, 200), inr (Success, 200),
     users ++ [mkUser "alice" "secret"] ++ [mkUser "alice" "other"]) ∧
  ¬ NoDup (username <$>
             (users ++ [mkUser "alice" "secret"] ++ [mkUser "alice" "other"])).
Proof.
  split; [vm_compute; reflexivity|].
  apply (proj2 (signup_usernames_distinct (interp := example_interp)
                  alice_account alice_again [mkUser "bob" "hunter2"])
           "alice" "secret" "other");
    try (vm_compute; reflexivity); try done.
  by intros [[=]|[]%elem_of_nil]%elem_of_cons.
Defined.

Lemma signup_then_login_witness :
  ∃ u, get_stripped (interp := example_interp) alice_account "username" = inr u ∧
       login (interp := example_interp) alice_account
         [mkUser "alice" "secret"; mkUser "bob" "hunter2"] =
         inr (SuccessRole (if bool_decide (u = "BUT3MLT")
                           then "admin" else "client"), 200).
Proof.
  apply (signup_then_login (interp := example_interp) alice_account []
           [mkUser "alice" "secret"]
           [mkUser "alice" "secret"; mkUser "bob" "hunter2"] Success).
  - vm_compute. reflexivity.
  - by exists [mkUser "bob" "hunter2"].
Defined.

Lemma login_wrong_password_witness :
  login (interp := example_interp)
    (list_to_map [("username", JStr "alice"); ("password", JStr "guess")])
    [mkUser "alice" "secret"; mkUser "bob" "hunter2"] =
  if decide ("guess" = "secret")
  then inr (SuccessRole (if bool_decide ("alice" = "BUT3MLT")
                         then "admin" else "client"), 200)
  else inr (Error "Identifiants invalides", 401).
Proof.
  apply (login_wrong_password (interp := example_interp)).
  - apply (bool_decide_unpack _). vm_compute. exact I.
  - left.
  - vm_compute. reflexivity.
  - vm_compute. reflexivity.
Defined.

Lemma passer_commande_read_back_witness :
  let db' := [shipment_a; new_shipment "alice" 0 "Paris" draws_a] in
  ∃ s, db' = [shipment_a] ++ [s] ∧
       SuccessTracking "10000001" = SuccessTracking (tracking s) ∧
       get_stripped (interp := example_interp) alice_order "username"
         = inr (client s) ∧
       get_stripped (interp := example_interp) alice_order "destination"
         = inr (destination s) ∧
       int_of (interp := example_interp)
         (default (JInt 0) (alice_order !! "quantity")) = inr (quantity s) ∧
       - 2 ^ 63 ≤ quantity s < 2 ^ 63 ∧
       (alice_order !! "quantity" = None → quantity s = 0) ∧
       status s = "Commande confirmée" ∧ current_step_index s = 0 ∧
       finished s = false ∧ archived s = false ∧
       get_one_shipment (tracking s) db' =
         (One (view (default s (find_one (tracking s) [shipment_a]))), 200).
Proof.
  apply (passer_commande_read_back (interp := example_interp) alice_order
           draws_a [mkUser "alice" "secret"] [shipment_a]).
  vm_compute. reflexivity.
Defined.

Lemma signup_then_order_witness :
  ∃ u, get_stripped (interp := example_interp) alice_account "username" = inr u ∧
       passer_commande (interp := example_interp) alice_bulk_order draws_a
         [mkUser "alice" "secret"] [] =
         if bool_decide (- 2 ^ 63 ≤ 2 ^ 63 < 2 ^ 63)
         then inr ((SuccessTracking (Py.str (cd_tracking draws_a)), 200),
                   [] ++ [new_shipment u (2 ^ 63) "Paris" draws_a])
         else inl OverflowError.
Proof.
  apply (signup_then_order (interp := example_interp) alice_account
           alice_bulk_order draws_a [] [mkUser "alice" "secret"]
           [mkUser "alice" "secret"] [] Success "Paris" (2 ^ 63)).
  - vm_compute. reflexivity.
  - done.
  - vm_compute. reflexivity.
  - vm_compute. reflexivity.
  - done.
  - vm_compute. reflexivity.
Defined.

(** X25 (one shipment and the list): what [get_one_shipment] answers for a
    tracking number is the first entry of that number in the list that
    [get_shipments] answers, and 404 when the list has none; the list has
    one entry per document, archived or finished ones included. *)
Theorem get_one_shipment_in_list (t : string) (db : Store) :
  (get_shipments db).1 = Many (view <$> db) ∧
  v_tracking <$> (view <$> db) = tracking <$> db ∧
  get_one_shipment t db =
    match head (filter (λ v, v_tracking v = t) (view <$> db)) with
    | Some v => (One v, 200)
    | None => (Error "Invalide", 404)
    end.
Proof.
  split_and!; [done|by rewrite <- list_fmap_compose|].
  unfold get_one_shipment.
  induction db as [|d db IH]; csimpl; [done|].
  rewrite filter_cons. simpl. case_decide; [done|]. apply IH.
Qed.

(** ** The scheduler is started once *)

(** X26 (one scheduler thread): however often [start_simulation] is
    called, one after the other from the initial flag, the calls start one
    thread in all, the first of them, and leave the flag set. *)
Theorem start_simulation_once (n : nat) :
  Nat.iter (S n)
    (λ st : bool * nat,
       ((start_simulation st.1).1, (st.2 + (start_simulation st.1).2)%nat))
    (false, 0%nat)
  = (true, 1%nat).
Proof.
  induction n as [|n IH]; [done|].
  rewrite Nat.iter_succ, IH. done.
Qed.
